(** * pycave: output heads of hidden Markov models and the Markov chain estimator

    A shallow embedding of [pycave/bayes/output.py] (the [Discrete] and
    [Gaussian] output heads with their maximize / update / apply protocol) and
    of [_get_num_states] from [pycave/bayes/markov_chain/estimator.py].

    Tensors are objects of a store: a Python name bound to a tensor is a
    location, in-place operations ([+=], [scatter_add_], [set_], [fill_])
    write the store, and the dictionaries that [maximize] and [update] return
    map their keys to locations, so that two dictionaries can share a tensor. *)

From Stdlib Require Import ZArith QArith Qabs Qcanon SpecFloat.
From stdpp Require Import base option list strings gmap.

Local Open Scope nat_scope.

(** ** Element types

    A torch tensor carries a dtype; the arithmetic of the output heads is the
    arithmetic of that dtype. *)

Class DType (E : Type) := {
  e_zero : E;
  e_one : E;
  e_add : E → E → E;
  e_mul : E → E → E;
  e_div : E → E → E
}.

(** [torch.empty] without a dtype creates [torch.float32] tensors: IEEE 754
    binary32, 24 bits of precision, infinities at exponent 128, round to
    nearest even. *)
Definition f32_prec : Z := 24.
Definition f32_emax : Z := 128.

Definition float32 : Type := spec_float.

Definition f32_add : float32 → float32 → float32 := SFadd f32_prec f32_emax.
Definition f32_mul : float32 → float32 → float32 := SFmul f32_prec f32_emax.
Definition f32_div : float32 → float32 → float32 := SFdiv f32_prec f32_emax.

#[global] Instance float32_eq_dec : EqDecision float32.
Proof. solve_decision. Defined.

(** The float32 nearest to an integer. *)
Definition f32_of_Z (z : Z) : float32 :=
  binary_normalize f32_prec f32_emax z 0 false.

#[export] Instance float32_dtype : DType float32 := {
  e_zero := S754_zero false;
  e_one := f32_of_Z 1;
  e_add := f32_add;
  e_mul := f32_mul;
  e_div := f32_div
}.

(** Exact rational arithmetic: the real-number operations that the float
    operations round.  Used to state what a law says once rounding is set
    aside; no tensor of the program has this element type. *)
#[export] Instance exact_dtype : DType Qc := {
  e_zero := 0%Qc;
  e_one := 1%Qc;
  e_add := Qcplus;
  e_mul := Qcmult;
  e_div := Qcdiv
}.

Definition is_nan (x : float32) : bool :=
  match x with S754_nan => true | _ => false end.

Definition is_zero (x : float32) : bool :=
  match x with S754_zero _ => true | _ => false end.

Definition is_finite (x : float32) : bool :=
  match x with S754_zero _ | S754_finite _ _ _ => true | _ => false end.

(** The rational value of a finite float (0 for the others). *)
Definition f32_to_Q (x : float32) : Q :=
  match x with
  | S754_finite s m e =>
      (inject_Z (if s then Z.neg m else Z.pos m) * Qpower 2 e)%Q
  | _ => 0%Q
  end.

(** ** Tensors of rank 0, 1 and 2

    [Mat c m] is a tensor of shape [[length m; c]]: the column count is kept
    so that a tensor without rows still has its shape. *)

Inductive Tensor (E : Type) : Type :=
  | Scal (x : E)
  | Vec (v : list E)
  | Mat (c : nat) (m : list (list E)).

Arguments Scal {E} x.
Arguments Vec {E} v.
Arguments Mat {E} c m.

(** ** Reductions

    [torch.sum] adds the elements of a slice in an order that torch does not
    fix: the kernel may keep several accumulators, add in blocks or in pairs,
    and start from zero.  [e_sum dim t j l] stands for the value that the
    kernel of [t.sum(dim)] leaves at position [j] of its result, whose slice
    holds the elements [l]; the order of the additions may depend on all of
    [dim], [t] and [j]. *)
Class Reduce (E : Type) := { e_sum : Z → Tensor E → nat → list E → E }.

(** [sums_to l x]: [x] is the result of adding up the elements of [l], each
    once, in some order and some grouping, zeros possibly added in. *)
Inductive sums_to {E : Type} `{!DType E} : list E → E → Prop :=
  | sums_nil : sums_to [] e_zero
  | sums_one x : sums_to [x] x
  | sums_app l1 l2 x1 x2 :
      sums_to l1 x1 → sums_to l2 x2 → sums_to (l1 ++ l2) (e_add x1 x2)
  | sums_perm l l' x : l ≡ₚ l' → sums_to l x → sums_to l' x.

(** All that is known of a kernel: every value it leaves is such a sum. *)
Class ReduceSums (E : Type) `{!DType E} `{!Reduce E} : Prop :=
  e_sum_sums : ∀ dim t j l, sums_to l (e_sum dim t j l).

(** A range of integers that the element type holds exactly: [ι] embeds the
    integers from 0 to [B], and adding two of them within the range is
    exact. *)
Record ExactRange {E : Type} `{!DType E} (ι : Z → E) (B : Z) : Prop := {
  exact_zero : ι 0%Z = e_zero;
  exact_add : ∀ a b : Z,
    (0 ≤ a)%Z → (0 ≤ b)%Z → (a + b ≤ B)%Z → e_add (ι a) (ι b) = ι (a + b)%Z
}.

Section Tensors.
Context {E : Type} `{!DType E} `{!Reduce E}.

Definition shape (t : Tensor E) : list nat :=
  match t with
  | Scal _ => []
  | Vec v => [length v]
  | Mat c m => [length m; c]
  end.

(** Every row of a matrix has the declared number of columns. *)
Definition wf (t : Tensor E) : bool :=
  match t with
  | Mat c m => forallb (λ row, length row =? c) m
  | _ => true
  end.

Definition flatten (t : Tensor E) : list E :=
  match t with
  | Scal x => [x]
  | Vec v => v
  | Mat _ m => concat m
  end.

(** Cut a list into rows of [c] elements. *)
Fixpoint chunks (r c : nat) (l : list E) : list (list E) :=
  match r with
  | 0 => []
  | S r' => take c l :: chunks r' c (drop c l)
  end.

(** [t.view] with the sizes [s] for an explicit shape [s] of rank at most 2. *)
Definition view (t : Tensor E) (s : list nat) : option (Tensor E) :=
  let l := flatten t in
  match s with
  | [] => match l with [x] => Some (Scal x) | _ => None end
  | [n] => if length l =? n then Some (Vec l) else None
  | [r; c] => if length l =? r * c then Some (Mat c (chunks r c l)) else None
  | _ => None
  end.

(** *** Broadcasting

    Shapes are aligned at the trailing dimension; two sizes are compatible
    when they are equal or one of them is 1. *)
Definition broadcast_dim (a b : nat) : option nat :=
  if a =? b then Some a
  else if a =? 1 then Some b
  else if b =? 1 then Some a
  else None.

Fixpoint broadcast_rev (s1 s2 : list nat) : option (list nat) :=
  match s1, s2 with
  | [], s => Some s
  | s, [] => Some s
  | a :: s1', b :: s2' =>
      d ← broadcast_dim a b;
      r ← broadcast_rev s1' s2';
      Some (d :: r)
  end.

Definition broadcast_shapes (s1 s2 : list nat) : option (list nat) :=
  reverse <$> broadcast_rev (reverse s1) (reverse s2).

(** Expand one dimension to size [n]: kept when it already has that size,
    repeated when it has size 1. *)
Definition expand_list {A : Type} (l : list A) (n : nat) : option (list A) :=
  if length l =? n then Some l
  else match l with
       | [x] => Some (replicate n x)
       | _ => None
       end.

(** [t.expand] to the sizes [s]: missing leading dimensions are added. *)
Definition expand (t : Tensor E) (s : list nat) : option (Tensor E) :=
  match t, s with
  | Scal x, [] => Some (Scal x)
  | Scal x, [n] => Some (Vec (replicate n x))
  | Scal x, [r; c] => Some (Mat c (replicate r (replicate c x)))
  | Vec v, [n] => Vec <$> expand_list v n
  | Vec v, [r; c] => row ← expand_list v c; Some (Mat c (replicate r row))
  | Mat _ m, [r; c] =>
      rows ← mapM (λ row, expand_list row c) m;
      Mat c <$> expand_list rows r
  | _, _ => None
  end.

(** Elementwise function of one tensor. *)
Definition tmap (f : E → E) (t : Tensor E) : Tensor E :=
  match t with
  | Scal x => Scal (f x)
  | Vec v => Vec (f <$> v)
  | Mat c m => Mat c ((λ row : list E, f <$> row) <$> m)
  end.

(** Elementwise operation on two tensors of one shape. *)
Definition tmap2 (f : E → E → E) (a b : Tensor E) : option (Tensor E) :=
  match a, b with
  | Scal x, Scal y => Some (Scal (f x y))
  | Vec u, Vec v => Some (Vec (zip_with f u v))
  | Mat c m, Mat _ n => Some (Mat c (zip_with (zip_with f) m n))
  | _, _ => None
  end.

(** An out-of-place binary operator: both operands are broadcast to the
    common shape, a [RuntimeError] ([None]) when there is none. *)
Definition binop (f : E → E → E) (a b : Tensor E) : option (Tensor E) :=
  s ← broadcast_shapes (shape a) (shape b);
  a' ← expand a s;
  b' ← expand b s;
  tmap2 f a' b'.

Definition tdiv : Tensor E → Tensor E → option (Tensor E) := binop e_div.
Definition tmul : Tensor E → Tensor E → option (Tensor E) := binop e_mul.

(** The value of [a] after [a += b]: [b] is broadcast to the shape of [a],
    which an in-place operation cannot change. *)
Definition iadd (a b : Tensor E) : option (Tensor E) :=
  b' ← expand b (shape a);
  tmap2 e_add a b'.

(** [torch.zeros_like(t)], [torch.ones(n)], [t.fill_(x)]. *)
Definition fill (x : E) (t : Tensor E) : Tensor E :=
  match t with
  | Scal _ => Scal x
  | Vec v => Vec (replicate (length v) x)
  | Mat c m => Mat c (replicate (length m) (replicate c x))
  end.

Definition zeros_like (t : Tensor E) : Tensor E := fill e_zero t.
Definition ones (n : nat) : Tensor E := Vec (replicate n e_one).

(** [t.size(0)] and [t.size(1)]: an [IndexError] when the rank is too low. *)
Definition size0 (t : Tensor E) : option nat :=
  match t with
  | Scal _ => None
  | Vec v => Some (length v)
  | Mat _ m => Some (length m)
  end.

Definition size1 (t : Tensor E) : option nat :=
  match t with
  | Mat c _ => Some c
  | _ => None
  end.

(** [t.t()]: the transpose of a matrix; a tensor of lower rank is returned
    as it is. *)
Definition column (j : nat) (m : list (list E)) : option (list E) :=
  mapM (λ row : list E, row !! j) m.

Definition t_ (t : Tensor E) : option (Tensor E) :=
  match t with
  | Mat c m => Mat (length m) <$> mapM (λ j, column j m) (seq 0 c)
  | _ => Some t
  end.

(** [t.sum(0)]: the kernel reduces the elements of a vector, and every
    column of a matrix. *)
Definition sum0 (t : Tensor E) : option (Tensor E) :=
  match t with
  | Scal x => Some (Scal (e_sum 0 t 0 [x]))
  | Vec v => Some (Scal (e_sum 0 t 0 v))
  | Mat c m => Vec <$> mapM (λ j, e_sum 0 t j <$> column j m) (seq 0 c)
  end.

(** A Python index into a dimension of size [n]: negative indices count
    from the end. *)
Definition py_index (n : nat) (i : Z) : option nat :=
  if decide (0 ≤ i < Z.of_nat n)%Z then Some (Z.to_nat i)
  else if decide (- Z.of_nat n ≤ i < 0)%Z then Some (Z.to_nat (i + Z.of_nat n))
  else None.

(** [t[i]] for an integer [i]. *)
Definition tget (t : Tensor E) (i : Z) : option (Tensor E) :=
  match t with
  | Scal _ => None
  | Vec v => j ← py_index (length v) i; Scal <$> v !! j
  | Mat _ m => j ← py_index (length m) i; Vec <$> m !! j
  end.

(** [t[data]] for a one-dimensional long tensor [data] (advanced indexing:
    the result is a new tensor). *)
Definition tindex (t : Tensor E) (data : list Z) : option (Tensor E) :=
  match t with
  | Scal _ => None
  | Vec v => Vec <$> mapM (λ i, j ← py_index (length v) i; v !! j) data
  | Mat c m => Mat c <$> mapM (λ i, j ← py_index (length m) i; m !! j) data
  end.

(** [torch.diag]: a vector becomes a diagonal matrix, a matrix gives its
    diagonal. *)
Definition diag_row (n : nat) (i : nat) (x : E) : list E :=
  <[i := x]> (replicate n e_zero).

Definition diag (t : Tensor E) : option (Tensor E) :=
  match t with
  | Scal _ => None
  | Vec v => Some (Mat (length v) (imap (diag_row (length v)) v))
  | Mat c m => Some (Vec (omap (λ '(i, row), row !! i) (zip (seq 0 (length m)) m)))
  end.

(** The elements of [l] added one after the other, starting from zero: the
    order in which [scatter_add_] accumulates the sources of one position
    (see [scatter_add_row]).  It is one of the orders that a reduction kernel
    may take, not the one of [torch.sum]. *)
Definition sum_in_order (l : list E) : E := foldl e_add e_zero l.

(** [self.scatter_add_(1, index, src)] on one row:
    [row[index[j]] += src[j]] for every [j] of the index row. *)
Definition scatter_add_row (row : list E) (index : list nat) (src : list E)
  : list E :=
  foldl (λ acc '(i, x), alter (λ y, e_add y x) i acc) row (zip index src).

(** [self.scatter_add_(1, index, src)] for an index tensor of shape
    [[length index; n]].  An index without elements leaves [self] as it is;
    otherwise the three tensors are matrices, the index is no larger than
    [src] in both dimensions and no larger than [self] in dimension 0, and
    every index value is a column of [self]. *)
Definition scatter_add_1 (self : Tensor E) (n : nat) (index : list (list Z))
    (src : Tensor E) : option (Tensor E) :=
  if length index * n =? 0 then Some self
  else match self, src with
       | Mat c m, Mat cs ms =>
           if decide (length index ≤ length ms ∧ n ≤ cs ∧ length index ≤ length m
                      ∧ Forall (Forall (λ i, 0 ≤ i < Z.of_nat c)%Z) index)
           then
             let upd := zip_with (λ row '(ix, sr), scatter_add_row row (Z.to_nat <$> ix) sr)
                          m (zip index ms) in
             Some (Mat c (upd ++ drop (length index) m))
           else None
       | _, _ => None
       end.
End Tensors.

(** ** The store of tensor objects

    A location is an index into the list of the tensors allocated so far.
    A computation reads and writes the store and may raise ([None]). *)

Abbreviation loc := nat (only parsing).

Definition M (E A : Type) : Type := list (Tensor E) → option (A * list (Tensor E)).

Definition ret {E A} (a : A) : M E A := λ σ, Some (a, σ).

Definition bind {E A B} (m : M E A) (k : A → M E B) : M E B :=
  λ σ, match m σ with
       | Some (a, σ') => k a σ'
       | None => None
       end.

Notation "'let*' x := m 'in' k" := (bind m (λ x, k))
  (at level 10, x name, m at level 100, k at level 200).
Notation "m ;;; k" := (bind m (λ _, k))
  (at level 100, k at level 200, right associativity).

(** An operation that raises when it has no result. *)
Definition lift {E A} (o : option A) : M E A :=
  λ σ, match o with Some a => Some (a, σ) | None => None end.

Definition alloc {E} (t : Tensor E) : M E loc :=
  λ σ, Some (length σ, σ ++ [t]).

Definition load {E} (l : loc) : M E (Tensor E) :=
  λ σ, match σ !! l with Some t => Some (t, σ) | None => None end.

Definition store {E} (l : loc) (t : Tensor E) : M E unit :=
  λ σ, if decide (l < length σ) then Some (tt, <[l := t]> σ) else None.

(** The dictionaries exchanged by maximize, update and apply: keys to tensor
    objects.  A missing key is a [KeyError]. *)
Abbreviation Stats := (gmap string loc).

(** The functions imported from [pycave/bayes/utils.py] are parameters of the
    model: functions of the values of their arguments, with [None] for an
    exception. *)
Record Utils (E : Type) : Type := {
  normalize : Tensor E → option (Tensor E);
  log_normal : Tensor E → Tensor E → Tensor E → option (Tensor E);
  max_likeli_means : Tensor E → Tensor E → Tensor E → option (Tensor E);
  max_likeli_covars :
    Tensor E → Tensor E → Tensor E → Tensor E → string → option (Tensor E);
  (** the elementwise function of [Tensor.exp] *)
  e_exp : E → E
}.

Arguments normalize {E} _ _.
Arguments log_normal {E} _ _ _ _.
Arguments max_likeli_means {E} _ _ _ _.
Arguments max_likeli_covars {E} _ _ _ _ _ _.
Arguments e_exp {E} _ _.

(** ** class Discrete *)

Module Discrete.
Section Discrete.
Context {E : Type} `{!DType E} `{!Reduce E} (U : Utils E).

(** The module owns one parameter tensor. *)
Record head : Type := { probabilities : loc }.

(** [self.probabilities.size(0)] *)
Definition num_states (self : head) : M E nat :=
  let* P := load (probabilities self) in
  lift (size0 P).

(** [t.sum(-1, keepdim=True)] of a matrix: one column, in which the kernel
    leaves the sum of every row. *)
Definition sum_last_keepdim (t : Tensor E) : option (Tensor E) :=
  match t with
  | Mat _ m => Some (Mat 1 (imap (λ i row, [e_sum (-1) t i row]) m))
  | _ => None
  end.

(** The value of [a] after [a /= b]. *)
Definition idiv (a b : Tensor E) : option (Tensor E) :=
  b' ← expand b (shape a);
  tmap2 e_div a b'.

(** [reset_parameters]: [uniform] is the table drawn by [uniform_()]. *)
Definition reset_parameters (self : head) (uniform : nat → nat → E) : M E unit :=
  let* P := load (probabilities self) in
  let* draws := lift (match P with
                      | Mat c m => Some (Mat c (imap (λ i _, uniform i <$> seq 0 c) m))
                      | _ => None
                      end) in
  store (probabilities self) draws;;;
  let* s := lift (sum_last_keepdim draws) in
  let* q := lift (idiv draws s) in
  store (probabilities self) q.

(** [__init__]: [torch.empty] leaves the contents unspecified; they are
    overwritten by [reset_parameters] before they are read. *)
Definition __init__ (n_states n_outputs : nat) (uniform : nat → nat → E)
  : M E head :=
  let* p := alloc (Mat n_outputs (replicate n_states (replicate n_outputs e_zero))) in
  let self := {| probabilities := p |} in
  reset_parameters self uniform;;;
  ret self.

(** [evaluate]: [data] is a one-dimensional long tensor. *)
Definition evaluate (self : head) (data : list Z) : M E loc :=
  let* P := load (probabilities self) in
  let* Pt := lift (t_ P) in
  let* probs := lift (tindex Pt data) in
  let* r := lift (normalize U probs) in
  alloc r.

(** [maximize]: [sequences] holds the elements of the long tensor
    [sequences], in the order of [sequences.view(1, -1)]. *)
Definition maximize (self : head) (sequences : list Z) (gamma : Tensor E)
  : M E Stats :=
  let* gamma_ := lift (t_ gamma) in
  let* k := num_states self in
  let sequences_ := replicate k sequences in
  let* P := load (probabilities self) in
  let* num := alloc (zeros_like P) in
  let* num0 := load num in
  let* num1 := lift (scatter_add_1 num0 (length sequences) sequences_ gamma_) in
  store num num1;;;
  let* d := lift (sum0 gamma) in
  let* denom := alloc d in
  ret {[ "num" := num; "denom" := denom ]}.

(** [num += previous['num']] *)
Definition iadd_ (l l' : loc) : M E unit :=
  let* a := load l in
  let* b := load l' in
  let* s := lift (iadd a b) in
  store l s.

Definition update (current : Stats) (previous : option Stats) : M E Stats :=
  let* num := lift (current !! "num") in
  let* denom := lift (current !! "denom") in
  match previous with
  | Some previous =>
      let* pnum := lift (previous !! "num") in
      iadd_ num pnum;;;
      let* pdenom := lift (previous !! "denom") in
      iadd_ denom pdenom
  | None => ret tt
  end;;;
  ret {[ "num" := num; "denom" := denom ]}.

(** [apply]: [set_] makes the parameter take the storage of the quotient. *)
Definition apply (self : head) (update : Stats) : M E unit :=
  let* num := lift (update !! "num") in
  let* n := load num in
  let* denom := lift (update !! "denom") in
  let* d := load denom in
  let* q := lift (tdiv n d) in
  store (probabilities self) q.
End Discrete.
End Discrete.

(** ** class Gaussian *)

Module Gaussian.
Section Gaussian.
Context {E : Type} `{!DType E} `{!Reduce E} (U : Utils E).

Record head : Type := {
  covariance : string;
  means : loc;
  covars : loc
}.

Definition num_components (self : head) : M E nat :=
  let* m := load (means self) in
  lift (size0 m).

Definition num_features (self : head) : M E nat :=
  let* m := load (means self) in
  lift (size1 m).

(** [reset_parameters()] without data ([labels] is [None]): the means are
    filled by [normal_()], of which [normal] is the table of draws, and the
    covariances by [fill_(1)].  The branch for given data runs k-means and
    is not modelled. *)
Definition reset_parameters (self : head) (normal : nat → nat → E) : M E unit :=
  let* m := load (means self) in
  let* draws := lift (match m with
                      | Mat c rows => Some (Mat c (imap (λ i _, normal i <$> seq 0 c) rows))
                      | _ => None
                      end) in
  store (means self) draws;;;
  let* c := load (covars self) in
  store (covars self) (fill e_one c).

(** [__init__]: the contents of [torch.empty] are unspecified; they are
    overwritten by [reset_parameters] before they are read. *)
Definition __init__ (n_components n_features : nat) (cov : string)
    (normal : nat → nat → E) : M E head :=
  let* m := alloc (Mat n_features (replicate n_components (replicate n_features e_zero))) in
  let* c :=
    if String.eqb cov "diag" then
      alloc (Mat n_features (replicate n_components (replicate n_features e_zero)))
    else if String.eqb cov "spherical" then
      alloc (Vec (replicate n_components e_zero))
    else
      alloc (Vec (replicate n_features e_zero)) in
  let self := {| covariance := cov; means := m; covars := c |} in
  reset_parameters self normal;;;
  ret self.

(** [evaluate]: [data] has shape [[..., D]]; [shape[:-1]] is empty for a
    vector and [[N]] for a matrix. *)
Definition evaluate (self : head) (data : Tensor E) (log : bool) : M E loc :=
  let* d := lift (last (shape data)) in
  let* flat := lift (if d =? 0 then None else view data [length (flatten data) / d; d]) in
  let* m := load (means self) in
  let* c := load (covars self) in
  let* probabilities := lift (log_normal U flat m c) in
  let* k := num_components self in
  let* result := lift (view probabilities (removelast (shape data) ++ [k])) in
  if log then alloc result
  else alloc (tmap (e_exp U) result).

Definition maximize (self : head) (sequences gamma : Tensor E) : M E Stats :=
  let* denom := lift (sum0 gamma) in
  let* m := lift (max_likeli_means U sequences gamma denom) in
  let* c := lift (max_likeli_covars U sequences gamma denom m (covariance self)) in
  let* lm := alloc m in
  let* lc := alloc c in
  ret {[ "means" := lm; "covars" := lc ]}.

(** [update] and [apply] have the body [pass]: they return [None] and touch
    nothing. *)
Definition update (self : head) (current : Stats) (previous : option Stats)
  : M E (option Stats) :=
  ret None.

Definition apply (self : head) (update : Stats) : M E unit :=
  ret tt.

Definition _get_full_covariance_matrix (self : head) (i : Z) : M E (Tensor E) :=
  let* c := load (covars self) in
  if String.eqb (covariance self) "diag" then
    let* ci := lift (tget c i) in
    lift (diag ci)
  else if String.eqb (covariance self) "diag-shared" then
    lift (diag c)
  else
    let* ci := lift (tget c i) in
    let* d := num_features self in
    let* eye := lift (diag (ones d)) in
    lift (tmul ci eye).
End Gaussian.
End Gaussian.

(** ** Markov chain estimator: the number of states *)

Module MarkovChain.

Definition int64_min : Z := - 2 ^ 63.
Definition int64_max : Z := 2 ^ 63 - 1.

(** Arithmetic on [np.int64] scalars wraps around. *)
Definition wrap64 (z : Z) : Z := (z + 2 ^ 63) mod 2 ^ 64 - 2 ^ 63.

(** The dtype of an array or tensor, as far as the assertions look at it. *)
Inductive dtype : Type := int64 | other_dtype.

(** [SequenceData]: a NumPy array, a tensor (both given by their elements)
    or a dataset that yields such data. *)
#[warnings="-register-all"]
Inductive SequenceData : Type :=
  | NdArray (dt : dtype) (a : list Z)
  | TorchTensor (dt : dtype) (a : list Z)
  | Dataset (entries : list SequenceData).

(** [max] of a sequence: a [ValueError] when it is empty. *)
Definition maximum (l : list Z) : option Z :=
  match l with
  | [] => None
  | x :: l' => Some (foldl Z.max x l')
  end.

Fixpoint _get_num_states (data : SequenceData) : option Z :=
  match data with
  | NdArray dt a =>
      match dt with
      | int64 => m ← maximum a; Some (wrap64 (m + 1))
      | other_dtype => None
      end
  | TorchTensor dt a =>
      match dt with
      | int64 => m ← maximum a; Some (m + 1)%Z
      | other_dtype => None
      end
  | Dataset entries =>
      let fix each (l : list SequenceData) : option (list Z) :=
        match l with
        | [] => Some []
        | entry :: l' =>
            match _get_num_states entry, each l' with
            | Some k, Some ks => Some (k :: ks)
            | _, _ => None
            end
        end in
      ks ← each entries; maximum ks
  end.

(** The [num_states] that [fit] hands to the model configuration:
    [self.num_states or _get_num_states(sequences)]. *)
Definition fit_num_states (num_states : option Z) (sequences : SequenceData)
  : option Z :=
  match num_states with
  | Some n => if (n =? 0)%Z then _get_num_states sequences else Some n
  | None => _get_num_states sequences
  end.

End MarkovChain.

(** ** Notions used by the statements *)

Section Statements.
Context {E : Type} `{!DType E}.

(** The elementwise sum of two tensors of one shape. *)
Definition tadd (a b : Tensor E) : Tensor E :=
  match a, b with
  | Scal x, Scal y => Scal (e_add x y)
  | Vec u, Vec v => Vec (zip_with e_add u v)
  | Mat c m, Mat _ n => Mat c (zip_with (zip_with e_add) m n)
  | _, _ => a
  end.

(** In the store [σ] the record [u] has the numerator tensor [num] and the
    denominator tensor [denom]. *)
Definition stats_at (σ : list (Tensor E)) (u : Stats) (num denom : Tensor E) : Prop :=
  ∃ ln ld : loc,
    u !! "num" = Some ln ∧ u !! "denom" = Some ld ∧
    σ !! ln = Some num ∧ σ !! ld = Some denom.

(** The shape of the statistics of a head with [k] states and [v] symbols. *)
Definition discrete_stats (k v : nat) (num denom : Tensor E) : Prop :=
  shape num = [k; v] ∧ wf num = true ∧ shape denom = [k].

(** Two records that share no tensor. *)
Definition separate (a b : Stats) : Prop :=
  ∀ (i j : string) (l l' : loc), a !! i = Some l → b !! j = Some l' → l ≠ l'.

(** The computation [m] run in [σ] returns a record with the values [num]
    and [denom]. *)
Definition yields (m : M E Stats) (σ : list (Tensor E)) (num denom : Tensor E) : Prop :=
  ∃ r σ', m σ = Some (r, σ') ∧ stats_at σ' r num denom.

(** The responsibilities [gamma[n][k]] of the items [n] with symbol [v],
    and of all items, in the order of the items. *)
Definition resp_of_symbol (data : list Z) (gamma : list (list E)) (k v : nat) : list E :=
  omap (λ '(d, row), if decide (d = Z.of_nat v) then row !! k else None)
       (zip data gamma).

Definition resp_of_state (gamma : list (list E)) (k : nat) : list E :=
  omap (λ row : list E, row !! k) gamma.

(** The value of the tensor that the computation [m], run in [σ], returns. *)
Definition out_value (m : M E nat) (σ : list (Tensor E)) : option (Tensor E) :=
  match m σ with
  | Some (r, σ') => σ' !! r
  | None => None
  end.

(** The entry of a matrix. *)
Definition entry (t : Tensor E) (i j : nat) : option E :=
  match t with
  | Mat _ m => row ← m !! i; row !! j
  | _ => None
  end.

(** The covariance tensor that [Gaussian.__init__] leaves for a covariance
    name, [k] components and [d] features. *)
Definition covars_init (cov : string) (k d : nat) : Tensor E :=
  if String.eqb cov "diag" then Mat d (replicate k (replicate d e_one))
  else if String.eqb cov "spherical" then Vec (replicate k e_one)
  else Vec (replicate d e_one).

(** The table that [normal_()] leaves for the draws [normal]. *)
Definition means_init (normal : nat → nat → E) (k d : nat) : Tensor E :=
  Mat d (imap (λ i _, normal i <$> seq 0 d) (replicate k (replicate d e_zero))).

(** The diagonal matrix of a vector and the identity matrix
    [torch.diag(torch.ones(n))]. *)
Definition diag_matrix (v : list E) : Tensor E :=
  Mat (length v) (imap (diag_row (length v)) v).

Definition identity (n : nat) : Tensor E := diag_matrix (replicate n e_one).
End Statements.

(** A row of floats sums to 1 within 1e-6: every entry is finite and the exact
    sum of the entries is at most 1e-6 away from 1. *)
Definition row_sums_to_one (row : list float32) : bool :=
  forallb is_finite row
  && Qle_bool (Qabs (foldr Qplus 0%Q (f32_to_Q <$> row) - 1)) (1 # 1000000).

(** The sum of a list of integers. *)
Definition total (zs : list Z) : Z := foldr Z.add 0%Z zs.

Definition is_max (m : Z) (l : list Z) : Prop :=
  m ∈ l ∧ Forall (λ x, x ≤ m)%Z l.

(** ** Concrete heads and stores of the examples *)

Module Ex.
Definition F : Z → float32 := f32_of_Z.
Definition half : float32 := f32_div (F 1) (F 2).

(** A kernel for running the examples: it adds in index order.  The
    statements on sums hold for every kernel. *)
#[global] Instance in_order : Reduce float32 :=
  {| e_sum := λ _ _ _, sum_in_order |}.

(** Stand-ins for the functions of [utils.py] where an example runs
    [evaluate]: any function of the values serves. *)
Definition U : Utils float32 := {|
  normalize := Some;
  log_normal := λ data _ _, Some data;
  max_likeli_means := λ _ _ denom, Some denom;
  max_likeli_covars := λ _ _ denom _ _, Some denom;
  e_exp := id
|}.

(** A Gaussian head with one component and one feature, mean 0 and
    variance 1, and a statistics record with mean 5 and variance 2. *)
Definition gauss : Gaussian.head :=
  {| Gaussian.covariance := "diag"; Gaussian.means := 0; Gaussian.covars := 1 |}.
Definition gauss_store : list (Tensor float32) :=
  [Mat 1 [[F 0]]; Mat 1 [[F 1]]; Mat 1 [[F 5]]; Mat 1 [[F 2]]].
Definition gauss_update : Stats := {[ "means" := 2; "covars" := 3 ]}.

(** A Discrete head with two states and two symbols. *)
Definition disc : Discrete.head := {| Discrete.probabilities := 0 |}.
Definition disc_store : list (Tensor float32) :=
  [Mat 2 [[half; half]; [F 1; F 0]]].
(** Three items, all with symbol 0; the first two belong to state 0 and
    the third to state 1. *)
Definition disc_data : list Z := [0; 0; 0]%Z.
Definition disc_gamma : Tensor float32 :=
  Mat 2 [[F 1; F 0]; [F 1; F 0]; [F 0; F 1]].

(** A Discrete head with one state and two symbols, and statistics of a
    batch that gave the state no responsibility. *)
Definition single_store : list (Tensor float32) :=
  [Mat 2 [[half; half]]; Mat 2 [[F 0; F 0]]; Vec [F 0]].
Definition single_update : Stats := {[ "num" := 1; "denom" := 2 ]}.

(** Three statistics records of a head with one state and two symbols,
    each with its own tensors, in float32 and in exact arithmetic. *)
Definition rec_a : Stats := {[ "num" := 0; "denom" := 1 ]}.
Definition rec_b : Stats := {[ "num" := 2; "denom" := 3 ]}.
Definition rec_c : Stats := {[ "num" := 4; "denom" := 5 ]}.
Definition merge_store : list (Tensor float32) :=
  [Mat 2 [[F 1; F 0]]; Vec [F 1]; Mat 2 [[F 0; F 2]]; Vec [F 2];
   Mat 2 [[F 3; F 1]]; Vec [F 4]].
Definition exact_store : list (Tensor Qc) :=
  [Mat 2 [[1; 0]]; Vec [1]; Mat 2 [[0; 1]]; Vec [1];
   Mat 2 [[1; 1]]; Vec [1 + 1]]%Qc.
End Ex.

(** ** Further notions and examples *)

Module Ex2.
(** The head of [Ex.disc] with the statistics of its three items, and a head
    with one state and two symbols with statistics of total weight 4. *)
Definition counted_store : list (Tensor float32) :=
  [Mat 2 [[Ex.half; Ex.half]; [Ex.F 1; Ex.F 0]];
   Mat 2 [[Ex.F 2; Ex.F 0]; [Ex.F 1; Ex.F 0]]; Vec [Ex.F 2; Ex.F 1]].
Definition counted : Stats := {[ "num" := 1; "denom" := 2 ]}.
Definition one_store : list (Tensor float32) :=
  [Mat 2 [[Ex.half; Ex.half]]; Mat 2 [[Ex.F 1; Ex.F 3]]; Vec [Ex.F 4]].
End Ex2.

(** The states that a [SequenceData] holds, at any depth of nesting. *)
Fixpoint all_states (data : MarkovChain.SequenceData) : list Z :=
  match data with
  | MarkovChain.NdArray _ a => a
  | MarkovChain.TorchTensor _ a => a
  | MarkovChain.Dataset entries =>
      (fix go (l : list MarkovChain.SequenceData) : list Z :=
         match l with
         | [] => []
         | entry :: l' => all_states entry ++ go l'
         end) entries
  end.

(** The elements of every NumPy array are int64 values below 2^63 - 1, so
    that adding 1 does not wrap. *)
Fixpoint no_overflow (data : MarkovChain.SequenceData) : Prop :=
  match data with
  | MarkovChain.NdArray _ a =>
      Forall (λ x, MarkovChain.int64_min ≤ x < MarkovChain.int64_max)%Z a
  | MarkovChain.TorchTensor _ _ => True
  | MarkovChain.Dataset entries =>
      (fix go (l : list MarkovChain.SequenceData) : Prop :=
         match l with
         | [] => True
         | entry :: l' => no_overflow entry ∧ go l'
         end) entries
  end.

(** Data from which a number of states can be read: arrays and tensors are
    int64 and not empty, datasets are not empty and yield such data. *)
Fixpoint inferable (data : MarkovChain.SequenceData) : bool :=
  match data with
  | MarkovChain.NdArray dt a | MarkovChain.TorchTensor dt a =>
      match dt, a with
      | MarkovChain.int64, _ :: _ => true
      | _, _ => false
      end
  | MarkovChain.Dataset entries =>
      match entries with
      | [] => false
      | _ :: _ =>
          (fix go (l : list MarkovChain.SequenceData) : bool :=
             match l with
             | [] => true
             | entry :: l' => inferable entry && go l'
             end) entries
      end
  end.

(** * Theorems *)

(** ** The store monad *)

Lemma bind_Some {E A B} (m : M E A) (k : A → M E B) σ a σ' :
  m σ = Some (a, σ') → bind m k σ = k a σ'.
Proof. intros H. unfold bind. by rewrite H. Qed.

Lemma lift_Some {E A} (o : option A) (a : A) (σ : list (Tensor E)) :
  o = Some a → lift o σ = Some (a, σ).
Proof. by intros ->. Qed.

Lemma load_Some {E} (l : loc) (t : Tensor E) σ :
  σ !! l = Some t → load l σ = Some (t, σ).
Proof. intros H. unfold load. by rewrite H. Qed.

Lemma store_Some {E} (l : loc) (t t0 : Tensor E) σ :
  σ !! l = Some t0 → store l t σ = Some (tt, <[l := t]> σ).
Proof.
  intros H%lookup_lt_Some. unfold store. by rewrite decide_True.
Qed.

(** ** Gaussian: update and apply *)

Lemma Gaussian_apply_pass {E} (h : Gaussian.head) (u : Stats) (σ : list (Tensor E)) :
  Gaussian.apply h u σ = Some (tt, σ).
Proof. reflexivity. Qed.

Lemma Gaussian_update_pass {E} (h : Gaussian.head) (cur : Stats) (prev : option Stats)
    (σ : list (Tensor E)) :
  Gaussian.update h cur prev σ = Some (None, σ).
Proof. reflexivity. Qed.

(** C1 (the code does not do this): [Gaussian.apply] should commit the means
    and covariances of the statistics record.  On the head with mean 0 and
    variance 1 and the record with mean 5 and variance 2, [apply] returns with
    the store as it was: the mean is still 0 and the variance still 1, and
    [update] returns [None] instead of a merged record. *)
Theorem Gaussian_apply_commits_nothing :
  Gaussian.apply Ex.gauss Ex.gauss_update Ex.gauss_store = Some (tt, Ex.gauss_store)
  ∧ Ex.gauss_store !! Gaussian.means Ex.gauss = Some (Mat 1 [[Ex.F 0]])
  ∧ Ex.gauss_store !! Gaussian.covars Ex.gauss = Some (Mat 1 [[Ex.F 1]])
  ∧ (m ← Ex.gauss_update !! "means"; Ex.gauss_store !! m) = Some (Mat 1 [[Ex.F 5]])
  ∧ (c ← Ex.gauss_update !! "covars"; Ex.gauss_store !! c) = Some (Mat 1 [[Ex.F 2]])
  ∧ Gaussian.update Ex.gauss Ex.gauss_update None Ex.gauss_store
    = Some (None, Ex.gauss_store).
Proof. repeat split; reflexivity. Qed.

(** ** Discrete: the quotient of apply *)

(** C2 (the code does not do this): after [apply] every row with a positive
    denominator should sum to 1.  The statistics of three items with symbol 0,
    two of state 0 and one of state 1, have the numerators [[2, 0], [1, 0]]
    and the denominators [2, 1].  [num / denom] aligns the denominators with
    the last axis, so that entry (k, v) is divided by [denom[v]]: the table
    becomes [[1, 0], [0.5, 0]] and the row of state 1, whose denominator is 1,
    sums to 0.5. *)
Theorem Discrete_apply_divides_by_column :
  ∃ σ',
    (let* u := Discrete.maximize Ex.disc Ex.disc_data Ex.disc_gamma in
     let* merged := Discrete.update u None in
     Discrete.apply Ex.disc merged) Ex.disc_store = Some (tt, σ')
    ∧ σ' !! 1 = Some (Mat 2 [[Ex.F 2; Ex.F 0]; [Ex.F 1; Ex.F 0]])
    ∧ σ' !! 2 = Some (Vec [Ex.F 2; Ex.F 1])
    ∧ σ' !! Discrete.probabilities Ex.disc
      = Some (Mat 2 [[Ex.F 1; Ex.F 0]; [Ex.half; Ex.F 0]])
    ∧ row_sums_to_one [Ex.F 1; Ex.F 0] = true
    ∧ row_sums_to_one [Ex.half; Ex.F 0] = false.
Proof. eexists. repeat split; vm_compute; reflexivity. Qed.

(** ** Gaussian: construction *)

Lemma lookup_snoc {A} (σ : list A) (t : A) : (σ ++ [t]) !! length σ = Some t.
Proof. by rewrite lookup_app_r, Nat.sub_diag. Qed.

Lemma lookup_snoc2 {A} (σ : list A) (t u : A) :
  ((σ ++ [t]) ++ [u]) !! length σ = Some t.
Proof. rewrite lookup_app_l by (rewrite length_app; simpl; lia). apply lookup_snoc. Qed.

(** [__init__] always returns: it allocates the means and the covariances
    behind the tensors that exist, whatever the covariance name is. *)
Lemma Gaussian_init_spec {E} `{!DType E} (K D : nat) (cov : string)
    (normal : nat → nat → E) (σ : list (Tensor E)) :
  Gaussian.__init__ K D cov normal σ
  = Some ({| Gaussian.covariance := cov; Gaussian.means := length σ;
             Gaussian.covars := S (length σ) |},
          σ ++ [means_init normal K D; covars_init cov K D]).
Proof.
  unfold Gaussian.__init__, covars_init, means_init.
  unfold bind at 1. unfold alloc at 1.
  set (m0 := Mat D (replicate K (replicate D e_zero))).
  assert (Hc : ∀ c0 : Tensor E,
    bind (alloc c0) (λ c, bind (Gaussian.reset_parameters
            {| Gaussian.covariance := cov; Gaussian.means := length σ;
               Gaussian.covars := c |} normal)
            (λ _, ret {| Gaussian.covariance := cov; Gaussian.means := length σ;
                         Gaussian.covars := c |}))
         (σ ++ [m0])
    = Some ({| Gaussian.covariance := cov; Gaussian.means := length σ;
               Gaussian.covars := S (length σ) |},
            σ ++ [Mat D (imap (λ i _, normal i <$> seq 0 D)
                           (replicate K (replicate D e_zero)));
                  fill e_one c0])).
  { intros c0. unfold bind at 1, alloc.
    assert (Hl : length (σ ++ [m0]) = S (length σ)) by (rewrite length_app; simpl; lia).
    rewrite Hl.
    unfold bind at 1, Gaussian.reset_parameters. simpl.
    unfold bind at 1, load. rewrite lookup_snoc2.
    unfold bind at 1, lift. subst m0. cbn iota beta.
    unfold bind at 1, store. rewrite decide_True by (rewrite !length_app; simpl; lia).
    unfold bind at 1, load.
    rewrite <- !(assoc_L (++)). simpl.
    rewrite (insert_app_r_alt σ _ (length σ)) by lia. rewrite Nat.sub_diag. simpl.
    rewrite lookup_app_r by lia. replace (S (length σ) - length σ) with 1 by lia. simpl.
    rewrite decide_True by (rewrite length_app; simpl; lia).
    unfold ret. do 2 f_equal.
    rewrite (insert_app_r_alt σ _ (S (length σ))) by lia.
    replace (S (length σ) - length σ) with 1 by lia. reflexivity. }
  destruct (String.eqb cov "diag"); [|destruct (String.eqb cov "spherical")];
    rewrite Hc; simpl; by rewrite ?length_replicate.
Qed.

(** C6, as the claim states it, fails: the covariance name "bogus" is in no
    set of supported modes, and [__init__] returns a head for it. *)
Lemma Gaussian_init_bogus_covariance :
  Gaussian.__init__ 1 1 "bogus" (λ _ _, Ex.F 0) []
  = Some ({| Gaussian.covariance := "bogus"; Gaussian.means := 0; Gaussian.covars := 1 |},
          [Mat 1 [[Ex.F 0]]; Vec [Ex.F 1]]).
Proof. reflexivity. Qed.

(** C6 (amended): [Gaussian.__init__] does not check the covariance name.  For
    every string it returns a head that carries the string, with its two
    parameter tensors allocated; a name other than 'diag' and 'spherical' takes
    the last branch and gets one covariance entry per feature. *)
Theorem Gaussian_init_accepts_every_covariance {E} `{!DType E} (K D : nat)
    (cov : string) (normal : nat → nat → E) (σ : list (Tensor E)) :
  ∃ h σ',
    Gaussian.__init__ K D cov normal σ = Some (h, σ')
    ∧ Gaussian.covariance h = cov
    ∧ is_Some (σ' !! Gaussian.means h)
    ∧ is_Some (σ' !! Gaussian.covars h)
    ∧ (cov ≠ "diag" → cov ≠ "spherical" →
       σ' !! Gaussian.covars h = Some (Vec (replicate D e_one))).
Proof.
  eexists _, _. split; [apply Gaussian_init_spec|].
  cbn [Gaussian.means Gaussian.covars Gaussian.covariance].
  assert (H1 : (σ ++ [means_init normal K D; covars_init cov K D]) !! length σ
               = Some (means_init normal K D)).
  { by rewrite lookup_app_r, Nat.sub_diag. }
  assert (H2 : (σ ++ [means_init normal K D; covars_init cov K D]) !! S (length σ)
               = Some (covars_init cov K D)).
  { rewrite lookup_app_r by lia. by replace (S (length σ) - length σ) with 1 by lia. }
  rewrite H1, H2. repeat split; eauto.
  intros Hd Hs. unfold covars_init.
  apply String.eqb_neq in Hd, Hs. by rewrite Hd, Hs.
Qed.

(** ** Markov chain: the inferred number of states *)

Lemma foldl_max_spec (l : list Z) (x : Z) :
  (foldl Z.max x l = x ∨ foldl Z.max x l ∈ l)
  ∧ (x ≤ foldl Z.max x l)%Z
  ∧ Forall (λ y, y ≤ foldl Z.max x l)%Z l.
Proof.
  revert x. induction l as [|y l IH]; intros x; simpl.
  - split; [by left|]. split; [lia|constructor].
  - destruct (IH (Z.max x y)) as (Hm & Hle & Hall).
    split; [|split].
    + destruct Hm as [Hm|Hm].
      * destruct (Z.max_spec x y) as [[_ Hxy]|[_ Hxy]]; rewrite Hm, Hxy.
        -- right. left.
        -- by left.
      * right. by right.
    + lia.
    + constructor; [lia|done].
Qed.

Lemma maximum_is_max (l : list Z) :
  l ≠ [] → ∃ m, MarkovChain.maximum l = Some m ∧ is_max m l.
Proof.
  destruct l as [|x l]; [done|]. intros _. eexists. split; [reflexivity|].
  destruct (foldl_max_spec l x) as (Hm & Hle & Hall).
  split.
  - destruct Hm as [->|Hm]; [left|by right].
  - by constructor.
Qed.

Lemma wrap64_small (z : Z) :
  (MarkovChain.int64_min ≤ z ≤ MarkovChain.int64_max)%Z → MarkovChain.wrap64 z = z.
Proof.
  unfold MarkovChain.int64_min, MarkovChain.int64_max, MarkovChain.wrap64.
  intros H. rewrite Z.mod_small; lia.
Qed.

Lemma get_num_states_dataset (entries : list MarkovChain.SequenceData) (ks : list Z) :
  Forall2 (λ e k, MarkovChain._get_num_states e = Some k) entries ks →
  MarkovChain._get_num_states (MarkovChain.Dataset entries) = MarkovChain.maximum ks.
Proof.
  intros H. simpl.
  match goal with |- mbind _ ?e = _ => assert (He : e = Some ks) end.
  { induction H as [|e k es ks' Hek _ IH]; [done|]. by rewrite Hek, IH. }
  by rewrite He.
Qed.

Lemma Gaussian_init_accepts_every_covariance_witness :
  ∃ h σ',
    Gaussian.__init__ 1 1 "bogus" (λ _ _, Ex.F 0) [] = Some (h, σ')
    ∧ Gaussian.covariance h = "bogus"
    ∧ σ' !! Gaussian.covars h = Some (Vec [Ex.F 1]).
Proof.
  destruct (Gaussian_init_accepts_every_covariance 1 1 "bogus" (λ _ _, Ex.F 0) [])
    as (h & σ' & Hrun & Hc & _ & _ & Hv).
  exists h, σ'. split; [exact Hrun|]. split; [exact Hc|].
  apply Hv; discriminate.
Defined.

(** C8, as the claim states it, fails on arrays: [data.max() + 1] is computed
    on [np.int64] and wraps, so the array that holds 2^63 - 1 gives -2^63. *)
Lemma get_num_states_array_wraps :
  MarkovChain._get_num_states
    (MarkovChain.NdArray MarkovChain.int64 [MarkovChain.int64_max])
  = Some MarkovChain.int64_min
  ∧ MarkovChain.int64_min ≠ (MarkovChain.int64_max + 1)%Z.
Proof. split; [reflexivity|discriminate]. Qed.

(** C8 (amended): without [num_states], [fit] takes [_get_num_states].  For a
    non-empty long tensor it is the maximum element plus 1; for a non-empty
    int64 array it is the maximum element plus 1 when the maximum is below
    2^63 - 1; for a non-empty dataset whose entries have inferred values it is
    the maximum of these values. *)
Theorem get_num_states_max_plus_one :
  (∀ data, MarkovChain.fit_num_states None data = MarkovChain._get_num_states data)
  ∧ (∀ a : list Z, a ≠ [] →
       Forall (λ x, MarkovChain.int64_min ≤ x ≤ MarkovChain.int64_max)%Z a →
       ∃ m, is_max m a
            ∧ MarkovChain._get_num_states (MarkovChain.TorchTensor MarkovChain.int64 a)
              = Some (m + 1)%Z
            ∧ ((m < MarkovChain.int64_max)%Z →
               MarkovChain._get_num_states (MarkovChain.NdArray MarkovChain.int64 a)
               = Some (m + 1)%Z))
  ∧ (∀ entries ks, entries ≠ [] →
       Forall2 (λ e k, MarkovChain._get_num_states e = Some k) entries ks →
       ∃ K, MarkovChain._get_num_states (MarkovChain.Dataset entries) = Some K
            ∧ is_max K ks).
Proof.
  split; [done|]. split.
  - intros a Hne Hrange.
    destruct (maximum_is_max a Hne) as (m & Hm & Hmax).
    exists m. split; [done|]. simpl. rewrite Hm. simpl. split; [done|].
    intros Hlt. f_equal. apply wrap64_small.
    destruct Hmax as [Hin _].
    rewrite Forall_forall in Hrange. specialize (Hrange m Hin). lia.
  - intros entries ks Hne H.
    rewrite (get_num_states_dataset _ _ H).
    destruct (maximum_is_max ks) as (K & HK & Hmax).
    { intros ->. apply Forall2_nil_inv_r in H. done. }
    eauto.
Qed.

Lemma get_num_states_max_plus_one_witness :
  MarkovChain._get_num_states (MarkovChain.TorchTensor MarkovChain.int64 [0; 2; 1]%Z)
  = Some 3%Z
  ∧ MarkovChain._get_num_states (MarkovChain.NdArray MarkovChain.int64 [0; 2; 1]%Z)
    = Some 3%Z.
Proof.
  destruct get_num_states_max_plus_one as (_ & Harr & _).
  destruct (Harr [0; 2; 1]%Z) as (m & (Hin & Hle) & Ht & Ha).
  - discriminate.
  - repeat constructor; vm_compute; discriminate.
  - assert (m = 2%Z) as ->.
    { apply list_elem_of_In in Hin. simpl in Hin.
      apply Forall_cons in Hle as [_ Hle]. apply Forall_cons in Hle as [H2 _].
      lia. }
    split; [exact Ht|]. apply Ha. reflexivity.
Defined.

(** With two states and three symbols there is no common shape for the
    numerators (2 by 3) and the denominators (2): the division raises. *)
Example Discrete_quotient_shape_mismatch :
  tdiv (Mat 3 [[Ex.F 1; Ex.F 1; Ex.F 0]; [Ex.F 0; Ex.F 1; Ex.F 1]])
       (Vec [Ex.F 2; Ex.F 2]) = None.
Proof. reflexivity. Qed.

(** ** Discrete: update *)

Section Update.
Context {E : Type} `{!DType E}.
Implicit Types (σ : list (Tensor E)) (a b u r : Stats) (l : loc).

Lemma expand_list_len {A} (x : list A) (n : nat) :
  length x = n → expand_list x n = Some x.
Proof. intros <-. unfold expand_list. by rewrite Nat.eqb_refl. Qed.

Lemma mapM_expand_rows (c : nat) (m : list (list E)) :
  forallb (λ row, length row =? c) m = true →
  mapM (λ row, expand_list row c) m = Some m.
Proof.
  induction m as [|row m IH]; simpl; [done|].
  intros [Hr%Nat.eqb_eq Hm]%andb_prop.
  rewrite (expand_list_len row c Hr), (IH Hm). done.
Qed.

Lemma expand_list_same {A} (x : list A) : expand_list x (length x) = Some x.
Proof. by apply expand_list_len. Qed.

Lemma iadd_same_shape (x y : Tensor E) :
  shape x = shape y → wf y = true → iadd x y = Some (tadd x y).
Proof.
  destruct x as [x|u|c m], y as [y|v|c' n]; try done; unfold iadd; simpl.
  - intros [= Hl] _. rewrite Hl, expand_list_same. done.
  - intros [= Hl ->] Hwf. rewrite (mapM_expand_rows _ _ Hwf). simpl.
    rewrite Hl, expand_list_same. done.
Qed.

Lemma tadd_shape (x y : Tensor E) :
  shape x = shape y → shape (tadd x y) = shape x.
Proof.
  destruct x as [x|u|c m], y as [y|v|c' n]; try done; simpl.
  - intros [= Hl]. rewrite length_zip_with. f_equal. lia.
  - intros [= Hl ->]. rewrite length_zip_with. f_equal. lia.
Qed.

Lemma tadd_wf (x y : Tensor E) :
  shape x = shape y → wf x = true → wf y = true → wf (tadd x y) = true.
Proof.
  destruct x as [x|u|c m], y as [y|v|c' n]; try done; simpl.
  intros [= Hl ->]. revert n Hl.
  induction m as [|r m IH]; intros [|r' n]; simpl; try done.
  intros [= Hl] [Hr Hm]%andb_prop [Hr' Hn]%andb_prop.
  rewrite (IH n Hl Hm Hn), andb_true_r.
  apply Nat.eqb_eq in Hr, Hr'. apply Nat.eqb_eq. rewrite length_zip_with. lia.
Qed.

Lemma stats_lookup_num l l' : ({[ "num" := l; "denom" := l' ]} : Stats) !! "num" = Some l.
Proof. by simplify_map_eq. Qed.

Lemma stats_lookup_denom l l' : ({[ "num" := l; "denom" := l' ]} : Stats) !! "denom" = Some l'.
Proof. by simplify_map_eq. Qed.

Lemma update_None σ a l l' :
  a !! "num" = Some l → a !! "denom" = Some l' →
  Discrete.update a None σ = Some ({[ "num" := l; "denom" := l' ]}, σ).
Proof.
  intros Hn Hd. unfold Discrete.update.
  rewrite (bind_Some _ _ σ l σ) by by apply lift_Some.
  rewrite (bind_Some _ _ σ l' σ) by by apply lift_Some.
  reflexivity.
Qed.

Lemma iadd__Some σ l l' (x y s : Tensor E) :
  σ !! l = Some x → σ !! l' = Some y → iadd x y = Some s →
  Discrete.iadd_ l l' σ = Some (tt, <[l := s]> σ).
Proof.
  intros Hx Hy Hs. unfold Discrete.iadd_.
  rewrite (bind_Some _ _ σ x σ) by by apply load_Some.
  rewrite (bind_Some _ _ σ y σ) by by apply load_Some.
  rewrite (bind_Some _ _ σ s σ) by by apply lift_Some.
  by eapply store_Some.
Qed.

Lemma update_Some σ a b la da lb db (na nb sn vda vdb sd : Tensor E) :
  a !! "num" = Some la → a !! "denom" = Some da →
  b !! "num" = Some lb → b !! "denom" = Some db →
  σ !! la = Some na → σ !! lb = Some nb → iadd na nb = Some sn →
  <[la := sn]> σ !! da = Some vda → <[la := sn]> σ !! db = Some vdb →
  iadd vda vdb = Some sd →
  Discrete.update a (Some b) σ
  = Some ({[ "num" := la; "denom" := da ]}, <[da := sd]> (<[la := sn]> σ)).
Proof.
  intros Han Had Hbn Hbd Hla Hlb Hsn Hda Hdb Hsd. unfold Discrete.update.
  rewrite (bind_Some _ _ σ la σ) by by apply lift_Some.
  rewrite (bind_Some _ _ σ da σ) by by apply lift_Some.
  erewrite (bind_Some _ _ σ tt); [reflexivity|].
  rewrite (bind_Some _ _ σ lb σ) by by apply lift_Some.
  rewrite (bind_Some _ _ σ tt (<[la := sn]> σ)) by by eapply iadd__Some.
  rewrite (bind_Some _ _ _ db (<[la := sn]> σ)) by by apply lift_Some.
  by eapply iadd__Some.
Qed.

Lemma stats_at_same σ a r (n d : Tensor E) :
  r !! "num" = a !! "num" → r !! "denom" = a !! "denom" →
  stats_at σ a n d → stats_at σ r n d.
Proof.
  intros Hn Hd (ln & ld & ? & ? & ? & ?). exists ln, ld.
  rewrite Hn, Hd. done.
Qed.

Lemma shape_rank_ne (k v : nat) (x y : Tensor E) :
  shape x = [k; v] → shape y = [k] → x ≠ y.
Proof. intros Hx Hy ->. congruence. Qed.

(** One merge: the tensors of [a] take the sums, the returned record names
    the tensors of [a], and the records that share nothing with [a] keep
    their values. *)
Lemma update_step σ a b (k v : nat) (na da nb db : Tensor E) :
  stats_at σ a na da → stats_at σ b nb db →
  discrete_stats k v na da → discrete_stats k v nb db →
  ∃ r σ',
    Discrete.update a (Some b) σ = Some (r, σ')
    ∧ r !! "num" = a !! "num" ∧ r !! "denom" = a !! "denom"
    ∧ stats_at σ' a (tadd na nb) (tadd da db)
    ∧ discrete_stats k v (tadd na nb) (tadd da db)
    ∧ (∀ u n d, separate a u → stats_at σ u n d → stats_at σ' u n d).
Proof.
  intros (la & lda & Han & Had & Hla & Hlda) (lb & ldb & Hbn & Hbd & Hlb & Hldb)
         (Hsna & Hwa & Hsda) (Hsnb & Hwb & Hsdb).
  assert (la ≠ lda) as Hne1.
  { intros ->. eapply (shape_rank_ne k v na da); congruence. }
  assert (la ≠ ldb) as Hne2.
  { intros ->. eapply (shape_rank_ne k v na db); congruence. }
  assert (Hin : iadd na nb = Some (tadd na nb)).
  { apply iadd_same_shape; congruence. }
  assert (Hid : iadd da db = Some (tadd da db)).
  { apply iadd_same_shape; [congruence|]. by destruct db. }
  eexists _, _. split.
  { eapply update_Some; eauto; by rewrite list_lookup_insert_ne. }
  rewrite stats_lookup_num, stats_lookup_denom.
  split; [done|]. split; [done|].
  pose proof (lookup_lt_Some _ _ _ Hla) as Hlt1.
  pose proof (lookup_lt_Some _ _ _ Hlda) as Hlt2.
  split; [|split].
  - exists la, lda. split; [done|]. split; [done|]. split.
    + rewrite list_lookup_insert_ne by done. by apply list_lookup_insert_eq.
    + apply list_lookup_insert_eq. by rewrite length_insert.
  - split; [|split].
    + rewrite tadd_shape; congruence.
    + apply tadd_wf; congruence.
    + rewrite tadd_shape; congruence.
  - intros u n d Hsep (lu & ldu & Hun & Hud & Hlu & Hldu).
    exists lu, ldu. split; [done|]. split; [done|].
    split; rewrite !list_lookup_insert_ne; try done;
      first [by eapply Hsep | intros ->; by eapply Hsep].
Qed.
End Update.

(** With as many symbols as states the division returns, and divides every
    row elementwise by the whole vector of denominators. *)
Lemma tdiv_square {E} `{!DType E} (num : list (list E)) (denom : list E) :
  wf (Mat (length denom) num) = true → length num = length denom →
  tdiv (Mat (length denom) num) (Vec denom)
  = Some (Mat (length denom) ((λ row, zip_with e_div row denom) <$> num)).
Proof.
  intros Hwf Hlen. unfold tdiv, binop, broadcast_shapes. simpl.
  unfold broadcast_dim. rewrite Nat.eqb_refl. simpl.
  rewrite (mapM_expand_rows _ _ Hwf). simpl.
  rewrite !expand_list_same. simpl. do 2 f_equal.
  by rewrite zip_with_replicate_r_eq.
Qed.

(** Elementwise addition: float32 addition commutes exactly; it is not
    associative, so the association order of a fold shows in the rounding. *)
Lemma f32_add_comm : Comm (=) f32_add.
Proof.
  intros x y. unfold f32_add, SFadd.
  destruct x as [sx|sx| |sx mx ex], y as [sy|sy| |sy my ey]; try reflexivity;
    try (by destruct sx, sy).
  rewrite (Z.min_comm ex ey). f_equal. apply Z.add_comm.
Qed.

Section Laws.
Context {E : Type} `{!DType E}.

Lemma zip_with_comm_list {A B} (f : A → A → B) (x y : list A) :
  (∀ u v, f u v = f v u) → zip_with f x y = zip_with f y x.
Proof.
  intros Hf. revert y. induction x as [|u x IH]; intros [|v y]; simpl; try done.
  by rewrite Hf, IH.
Qed.

Lemma zip_with_assoc_list {A} (f : A → A → A) (x y z : list A) :
  (∀ u v w, f u (f v w) = f (f u v) w) →
  zip_with f (zip_with f x y) z = zip_with f x (zip_with f y z).
Proof.
  intros Hf. revert y z.
  induction x as [|u x IH]; intros [|v y] [|w z]; simpl; try done.
  by rewrite Hf, IH.
Qed.

Lemma tadd_comm (x y : Tensor E) :
  Comm (=) (e_add (E:=E)) → shape x = shape y → tadd x y = tadd y x.
Proof.
  intros Hc. destruct x as [x|u|c m], y as [y|v|c' n]; try done; simpl.
  - intros _. f_equal. apply Hc.
  - intros _. f_equal. apply zip_with_comm_list, Hc.
  - intros [= _ ->]. f_equal. apply zip_with_comm_list.
    intros r r'. apply zip_with_comm_list, Hc.
Qed.

Lemma tadd_assoc (x y z : Tensor E) :
  Assoc (=) (e_add (E:=E)) → shape x = shape y → shape y = shape z →
  tadd (tadd x y) z = tadd x (tadd y z).
Proof.
  intros Ha. destruct x as [x|u|c m], y as [y|v|c' n], z as [z|w|c'' p];
    try done; simpl.
  - intros _ _. f_equal. symmetry. apply Ha.
  - intros _ _. f_equal. apply zip_with_assoc_list, Ha.
  - intros _ _. f_equal. apply zip_with_assoc_list.
    intros r r' r''. symmetry. apply zip_with_assoc_list, Ha.
Qed.
End Laws.

(** In float32 the order of the first two records does not show. *)
Lemma tadd_swap_float32 (na nb nc : Tensor float32) :
  shape na = shape nb → tadd (tadd nb na) nc = tadd (tadd na nb) nc.
Proof.
  intros Hs. f_equal. apply tadd_comm; [apply f32_add_comm|done].
Qed.

(** The sums of -2^24, 2^24 and 1 in the two association orders. *)
Example f32_add_not_assoc :
  f32_add (f32_add (Ex.F (- 2 ^ 24)) (Ex.F (2 ^ 24))) (Ex.F 1) = Ex.F 1
  ∧ f32_add (Ex.F (- 2 ^ 24)) (f32_add (Ex.F (2 ^ 24)) (Ex.F 1)) = Ex.F 0.
Proof. split; vm_compute; reflexivity. Qed.

Section Merge.
Context {E : Type} `{!DType E}.
Implicit Types (σ : list (Tensor E)) (a b c u r : Stats).

Lemma separate_sym a b : separate a b → separate b a.
Proof. intros H i j l l' Hb Ha Heq. by eapply (H j i l' l). Qed.

Lemma separate_literal (la da lb db : nat) :
  la ≠ lb → la ≠ db → da ≠ lb → da ≠ db →
  separate ({[ "num" := la; "denom" := da ]} : Stats) {[ "num" := lb; "denom" := db ]}.
Proof.
  intros ? ? ? ? i j l l'.
  intros [[_ <-]|[_ [_ <-]%lookup_singleton_Some]]%lookup_insert_Some
         [[_ <-]|[_ [_ <-]%lookup_singleton_Some]]%lookup_insert_Some; done.
Qed.

(** Two merges in a row. *)
Lemma update_two_steps σ a b c (k v : nat) (na da nb db nc dc : Tensor E) :
  stats_at σ a na da → stats_at σ b nb db → stats_at σ c nc dc →
  discrete_stats k v na da → discrete_stats k v nb db → discrete_stats k v nc dc →
  separate a c →
  yields (let* ab := Discrete.update a (Some b) in Discrete.update ab (Some c)) σ
         (tadd (tadd na nb) nc) (tadd (tadd da db) dc).
Proof.
  intros Ha Hb Hc Hsa Hsb Hsc Hac.
  destruct (update_step σ a b k v na da nb db Ha Hb Hsa Hsb)
    as (r & σ1 & Hrun & Hrn & Hrd & Ha1 & Hs1 & Hframe).
  assert (Hr1 : stats_at σ1 r (tadd na nb) (tadd da db)) by by eapply stats_at_same.
  destruct (update_step σ1 r c k v _ _ nc dc Hr1 (Hframe _ _ _ Hac Hc) Hs1 Hsc)
    as (r' & σ2 & Hrun' & Hrn' & Hrd' & Ha2 & _).
  exists r', σ2. split.
  - by rewrite (bind_Some _ _ σ r σ1).
  - by eapply stats_at_same.
Qed.

Lemma update_nested σ a b c (k v : nat) (na da nb db nc dc : Tensor E) :
  stats_at σ a na da → stats_at σ b nb db → stats_at σ c nc dc →
  discrete_stats k v na da → discrete_stats k v nb db → discrete_stats k v nc dc →
  separate a b →
  yields (let* bc := Discrete.update b (Some c) in Discrete.update a (Some bc)) σ
         (tadd na (tadd nb nc)) (tadd da (tadd db dc)).
Proof.
  intros Ha Hb Hc Hsa Hsb Hsc Hab.
  destruct (update_step σ b c k v nb db nc dc Hb Hc Hsb Hsc)
    as (r & σ1 & Hrun & Hrn & Hrd & Hb1 & Hs1 & Hframe).
  assert (Hr1 : stats_at σ1 r (tadd nb nc) (tadd db dc)) by by eapply stats_at_same.
  destruct (update_step σ1 a r k v na da _ _
              (Hframe _ _ _ (separate_sym _ _ Hab) Ha) Hr1 Hsa Hs1)
    as (r' & σ2 & Hrun' & Hrn' & Hrd' & Ha2 & _).
  exists r', σ2. split.
  - by rewrite (bind_Some _ _ σ r σ1).
  - by eapply stats_at_same.
Qed.
End Merge.

(** C10: [Discrete.update] with a previous record works in place.  For two
    statistics records [a] and [b] of one shape, [update(a, b)] returns, the
    tensors of [a] then hold the elementwise sums (the values [a] had are
    gone), and the returned record names these same tensors, so it holds the
    same sums. *)
Theorem Discrete_update_in_place {E} `{!DType E} (σ : list (Tensor E)) (a b : Stats)
    (k v : nat) (na da nb db : Tensor E) :
  stats_at σ a na da → stats_at σ b nb db →
  discrete_stats k v na da → discrete_stats k v nb db →
  ∃ r σ',
    Discrete.update a (Some b) σ = Some (r, σ')
    ∧ stats_at σ' a (tadd na nb) (tadd da db)
    ∧ stats_at σ' r (tadd na nb) (tadd da db)
    ∧ r !! "num" = a !! "num" ∧ r !! "denom" = a !! "denom".
Proof.
  intros Ha Hb Hsa Hsb.
  destruct (update_step σ a b k v na da nb db Ha Hb Hsa Hsb)
    as (r & σ' & Hrun & Hrn & Hrd & Ha' & _).
  exists r, σ'. repeat split; try done. by eapply stats_at_same.
Qed.

Lemma Discrete_update_in_place_witness :
  ∃ r σ',
    Discrete.update Ex.rec_a (Some Ex.rec_b) Ex.merge_store = Some (r, σ')
    ∧ stats_at σ' Ex.rec_a (Mat 2 [[Ex.F 1; Ex.F 2]]) (Vec [Ex.F 3])
    ∧ stats_at σ' r (Mat 2 [[Ex.F 1; Ex.F 2]]) (Vec [Ex.F 3])
    ∧ r !! "num" = Ex.rec_a !! "num" ∧ r !! "denom" = Ex.rec_a !! "denom".
Proof.
  change (Mat 2 [[Ex.F 1; Ex.F 2]])
    with (tadd (Mat 2 [[Ex.F 1; Ex.F 0]]) (Mat 2 [[Ex.F 0; Ex.F 2]])).
  change (Vec [Ex.F 3]) with (tadd (Vec [Ex.F 1]) (Vec [Ex.F 2])).
  apply (Discrete_update_in_place Ex.merge_store Ex.rec_a Ex.rec_b 1 2
           (Mat 2 [[Ex.F 1; Ex.F 0]]) (Vec [Ex.F 1])
           (Mat 2 [[Ex.F 0; Ex.F 2]]) (Vec [Ex.F 2])).
  - exists 0, 1. repeat split; reflexivity.
  - exists 2, 3. repeat split; reflexivity.
  - repeat split; reflexivity.
  - repeat split; reflexivity.
Defined.

(** C4: [Discrete.update] merges by elementwise addition, with [None] as the
    identity.  [update(a, None)] returns a record with the values of [a] and
    leaves the store as it is.  For three records of one shape that share no
    tensor, each of [update(update(a,b),c)], [update(update(b,a),c)] and
    [update(a, update(b,c))], run from the same store, returns the elementwise
    sum of the three numerators and of the three denominators, in the
    association order of the calls.  The first two results are equal whenever
    the addition of the element type commutes (float32 addition does), and
    the third equals them whenever it is associative, that is, up to the
    rounding of the additions. *)
Theorem Discrete_update_merge_laws {E} `{!DType E} (σ : list (Tensor E))
    (a b c : Stats) (k v : nat) (na da nb db nc dc : Tensor E) :
  stats_at σ a na da → stats_at σ b nb db → stats_at σ c nc dc →
  discrete_stats k v na da → discrete_stats k v nb db → discrete_stats k v nc dc →
  separate a b → separate a c → separate b c →
  (∃ r, Discrete.update a None σ = Some (r, σ) ∧ stats_at σ r na da)
  ∧ yields (let* ab := Discrete.update a (Some b) in Discrete.update ab (Some c)) σ
           (tadd (tadd na nb) nc) (tadd (tadd da db) dc)
  ∧ yields (let* ba := Discrete.update b (Some a) in Discrete.update ba (Some c)) σ
           (tadd (tadd nb na) nc) (tadd (tadd db da) dc)
  ∧ yields (let* bc := Discrete.update b (Some c) in Discrete.update a (Some bc)) σ
           (tadd na (tadd nb nc)) (tadd da (tadd db dc))
  ∧ (Comm (=) (e_add (E:=E)) →
     tadd (tadd nb na) nc = tadd (tadd na nb) nc
     ∧ tadd (tadd db da) dc = tadd (tadd da db) dc)
  ∧ (Assoc (=) (e_add (E:=E)) →
     tadd na (tadd nb nc) = tadd (tadd na nb) nc
     ∧ tadd da (tadd db dc) = tadd (tadd da db) dc).
Proof.
  intros Ha Hb Hc Hsa Hsb Hsc Hab Hac Hbc.
  split; [|split; [|split; [|split; [|split]]]].
  - destruct Ha as (la & lda & Han & Had & Hla & Hlda).
    eexists. split; [by apply update_None|].
    exists la, lda. by rewrite stats_lookup_num, stats_lookup_denom.
  - by eapply update_two_steps.
  - by eapply update_two_steps.
  - by eapply update_nested.
  - destruct Hsa as (? & ? & ?), Hsb as (? & ? & ?).
    intros Hcomm. split; f_equal; apply tadd_comm; congruence.
  - destruct Hsa as (? & ? & ?), Hsb as (? & ? & ?), Hsc as (? & ? & ?).
    intros Hassoc. split; symmetry; apply tadd_assoc; congruence.
Qed.

(** The law compares runs from one store.  Run one after the other on the
    same three records, the second nesting starts from the tensors that the
    first has overwritten: the numerators [[1, 0]], [[0, 2]] and [[3, 1]] give
    [[4, 3]] for the first nesting and [[7, 6]] for the second. *)
Example update_nestings_in_sequence :
  ∃ σ',
    (let* ab := Discrete.update Ex.rec_a (Some Ex.rec_b) in
     let* r1 := Discrete.update ab (Some Ex.rec_c) in
     let* ba := Discrete.update Ex.rec_b (Some Ex.rec_a) in
     let* r2 := Discrete.update ba (Some Ex.rec_c) in
     ret (r1 !! "num", r2 !! "num")) Ex.merge_store
    = Some ((Some 0, Some 2), σ')
    ∧ σ' !! 0 = Some (Mat 2 [[Ex.F 4; Ex.F 3]])
    ∧ σ' !! 2 = Some (Mat 2 [[Ex.F 7; Ex.F 6]]).
Proof. eexists. repeat split; vm_compute; reflexivity. Qed.

Lemma Discrete_update_merge_laws_witness :
  yields (let* ab := Discrete.update Ex.rec_a (Some Ex.rec_b) in
          Discrete.update ab (Some Ex.rec_c)) Ex.exact_store
         (Mat 2 [[1 + 0 + 1; 0 + 1 + 1]]%Qc) (Vec [1 + 1 + (1 + 1)]%Qc)
  ∧ (Mat 2 [[1 + (0 + 1); 0 + (1 + 1)]]%Qc : Tensor Qc) = Mat 2 [[1 + 0 + 1; 0 + 1 + 1]]%Qc.
Proof.
  destruct (Discrete_update_merge_laws Ex.exact_store Ex.rec_a Ex.rec_b Ex.rec_c 1 2
              (Mat 2 [[1; 0]]%Qc) (Vec [1]%Qc) (Mat 2 [[0; 1]]%Qc) (Vec [1]%Qc)
              (Mat 2 [[1; 1]]%Qc) (Vec [1 + 1]%Qc))
    as (_ & Hab & _ & _ & _ & Hassoc).
  - exists 0, 1. repeat split; reflexivity.
  - exists 2, 3. repeat split; reflexivity.
  - exists 4, 5. repeat split; reflexivity.
  - repeat split; reflexivity.
  - repeat split; reflexivity.
  - repeat split; reflexivity.
  - apply separate_literal; discriminate.
  - apply separate_literal; discriminate.
  - apply separate_literal; discriminate.
  - split; [exact Hab|]. apply Hassoc. intros x y z. apply Qcplus_assoc.
Defined.

(** ** Sums in some order *)

Lemma total_app (zs1 zs2 : list Z) : total (zs1 ++ zs2) = (total zs1 + total zs2)%Z.
Proof. unfold total. induction zs1 as [|z zs1 IH]; simpl; lia. Qed.

Lemma total_nonneg (zs : list Z) : Forall (λ z, 0 ≤ z)%Z zs → (0 ≤ total zs)%Z.
Proof. unfold total. induction 1; simpl; lia. Qed.

Lemma total_Permutation (zs zs' : list Z) : zs ≡ₚ zs' → total zs = total zs'.
Proof. unfold total. induction 1; simpl; lia. Qed.

Section Sums.
Context {E : Type} `{!DType E}.

Lemma foldl_add_sums (l0 : list E) (x : E) (l : list E) :
  sums_to l0 x → sums_to (l0 ++ l) (foldl e_add x l).
Proof.
  revert l0 x. induction l as [|y l IH]; intros l0 x Hx; simpl.
  - by rewrite app_nil_r.
  - rewrite cons_middle, (assoc_L (++)). apply IH.
    apply sums_app; [done|constructor].
Qed.

(** Adding in index order from zero is one of the sums. *)
Lemma sums_to_in_order (l : list E) : sums_to l (sum_in_order l).
Proof. apply (foldl_add_sums [] e_zero l). constructor. Qed.

(** Within an exact range every order of additions gives the same value:
    the embedding of the sum of the integers. *)
Lemma sums_to_exact (ι : Z → E) (B : Z) (l : list E) (x : E) :
  ExactRange ι B → sums_to l x →
  ∀ zs, l = ι <$> zs → Forall (λ z, 0 ≤ z)%Z zs → (total zs ≤ B)%Z →
        x = ι (total zs).
Proof.
  intros [Hzero Hadd]. induction 1 as [|x|l1 l2 x1 x2 _ IH1 _ IH2|l l' x Hp _ IH];
    intros zs Hl Hnn HB.
  - symmetry in Hl. apply fmap_nil_inv in Hl as ->. by rewrite <- Hzero.
  - destruct zs as [|z [|? ?]]; simplify_eq/=. by rewrite Z.add_0_r.
  - symmetry in Hl. apply fmap_app_inv in Hl as (zs1 & zs2 & -> & -> & ->).
    apply Forall_app in Hnn as [Hnn1 Hnn2]. rewrite total_app in HB |- *.
    pose proof (total_nonneg _ Hnn1). pose proof (total_nonneg _ Hnn2).
    rewrite (IH1 zs1), (IH2 zs2) by (done || lia). apply Hadd; lia.
  - subst l'. apply Permutation_map_inv in Hp as (zs' & -> & Hp').
    rewrite (total_Permutation _ _ Hp'). apply IH; [done| |].
    + by rewrite <- Hp'.
    + by rewrite <- (total_Permutation _ _ Hp').
Qed.

Lemma resp_of_state_fmap (ι : Z → E) (g : list (list Z)) (k : nat) :
  resp_of_state ((λ row : list Z, ι <$> row) <$> g) k = ι <$> resp_of_state g k.
Proof.
  unfold resp_of_state. induction g as [|row g IH]; [done|].
  cbn. rewrite list_lookup_fmap. destruct (row !! k); cbn; by rewrite IH.
Qed.

Lemma resp_of_symbol_fmap (ι : Z → E) (data : list Z) (g : list (list Z)) (k v : nat) :
  resp_of_symbol data ((λ row : list Z, ι <$> row) <$> g) k v = ι <$> resp_of_symbol data g k v.
Proof.
  unfold resp_of_symbol. revert g.
  induction data as [|d data IH]; intros [|row g]; try done.
  cbn. destruct (decide (d = Z.of_nat v)); [|by rewrite IH].
  rewrite list_lookup_fmap. destruct (row !! k); cbn; by rewrite IH.
Qed.
End Sums.

Lemma resp_of_state_nonneg (g : list (list Z)) (k : nat) :
  Forall (Forall (λ z, 0 ≤ z)%Z) g → Forall (λ z, 0 ≤ z)%Z (resp_of_state g k).
Proof.
  unfold resp_of_state. induction 1 as [|row g Hrow _ IH]; [constructor|].
  cbn. destruct (row !! k) as [z|] eqn:Hz; [|done].
  constructor; [|done]. by eapply Forall_lookup_1 in Hrow.
Qed.

Lemma resp_of_symbol_part (data : list Z) (g : list (list Z)) (k v : nat) :
  Forall (Forall (λ z, 0 ≤ z)%Z) g →
  Forall (λ z, 0 ≤ z)%Z (resp_of_symbol data g k v)
  ∧ (total (resp_of_symbol data g k v) ≤ total (resp_of_state g k))%Z.
Proof.
  unfold resp_of_symbol, resp_of_state. intros Hg. revert data.
  induction Hg as [|row g Hrow Hg IH]; intros [|d data]; cbn.
  - done.
  - done.
  - split; [constructor|]. apply total_nonneg.
    apply (resp_of_state_nonneg (row :: g) k). by constructor.
  - destruct (IH data) as [IH1 IH2].
    destruct (row !! k) as [z|] eqn:Hz; destruct (decide (d = Z.of_nat v)); cbn;
      try done.
    + eapply Forall_lookup_1 in Hrow; [|done]. split; [by constructor|].
      unfold total in *. simpl. lia.
    + eapply Forall_lookup_1 in Hrow; [|done]. split; [done|].
      unfold total in *. simpl. lia.
Qed.

(** An exact range of float32: the integers up to 256. *)
Lemma f32_exact_range : ExactRange Ex.F 256.
Proof.
  split; [reflexivity|]. intros a b Ha Hb Hab.
  assert (Hall : forallb (λ a, forallb (λ b,
                    bool_decide (f32_add (Ex.F a) (Ex.F b) = Ex.F (a + b)))
                    (seqZ 0 257)) (seqZ 0 257) = true)
    by (vm_compute; reflexivity).
  rewrite forallb_forall in Hall.
  specialize (Hall a). rewrite forallb_forall in Hall.
  eapply bool_decide_eq_true_1, Hall; apply list_elem_of_In, elem_of_seqZ; lia.
Qed.

(** The kernel of the examples adds in some order. *)
#[global] Instance in_order_sums : ReduceSums float32.
Proof. intros dim t j l. apply sums_to_in_order. Qed.

(** ** Discrete: maximize *)

Section Maximize.
Context {E : Type} `{!DType E} `{!Reduce E}.
Implicit Types (σ : list (Tensor E)) (gamma : list (list E)) (data : list Z).

Lemma column_resp gamma (k : nat) :
  Forall (λ row, k < length row) gamma →
  column k gamma = Some (resp_of_state gamma k).
Proof.
  unfold column, resp_of_state.
  induction 1 as [|row gamma Hk _ IH]; [done|].
  destruct (lookup_lt_is_Some_2 row k Hk) as [x Hx].
  cbn. rewrite Hx. cbn. by rewrite IH.
Qed.

Lemma columns_resp gamma (K : nat) :
  Forall (λ row, length row = K) gamma →
  mapM (λ j, column j gamma) (seq 0 K) = Some (resp_of_state gamma <$> seq 0 K).
Proof.
  intros Hg. apply mapM_Some. apply Forall2_fmap_r, Forall_Forall2_diag.
  apply Forall_forall. intros j [_ Hj]%elem_of_seq.
  apply column_resp. eapply Forall_impl; [exact Hg|]. simpl. intros row ->. lia.
Qed.

Lemma sums_resp gamma (K : nat) (t : Tensor E) :
  Forall (λ row, length row = K) gamma →
  mapM (λ j, e_sum 0 t j <$> column j gamma) (seq 0 K)
  = Some ((λ j, e_sum 0 t j (resp_of_state gamma j)) <$> seq 0 K).
Proof.
  intros Hg. apply mapM_Some. apply Forall2_fmap_r, Forall_Forall2_diag.
  apply Forall_forall. intros j [_ Hj]%elem_of_seq.
  rewrite column_resp; [done|].
  eapply Forall_impl; [exact Hg|]. simpl. intros row ->. lia.
Qed.

(** One row of [scatter_add_]: position [v] accumulates, in order, the
    sources whose index is [v]. *)
Lemma scatter_add_row_lookup (idx : list nat) (src : list E) (acc : list E)
    (v : nat) (x : E) :
  acc !! v = Some x →
  scatter_add_row acc idx src !! v
  = Some (foldl e_add x
            (omap (λ '(i, s), if decide (i = v) then Some s else None) (zip idx src))).
Proof.
  unfold scatter_add_row. revert src acc x.
  induction idx as [|i idx IH]; intros [|s src] acc x Hx; simpl; try done.
  destruct (decide (i = v)) as [->|Hne]; simpl.
  - apply IH. by rewrite list_lookup_alter_eq, Hx.
  - apply IH. by rewrite list_lookup_alter_ne.
Qed.

Lemma scatter_add_row_length (idx : list nat) (src : list E) (acc : list E) :
  length (scatter_add_row acc idx src) = length acc.
Proof.
  unfold scatter_add_row. revert src acc.
  induction idx as [|i idx IH]; intros [|s src] acc; simpl; try done.
  by rewrite IH, length_alter.
Qed.

Lemma selected_resp data gamma (k v : nat) :
  Forall (λ z, 0 ≤ z)%Z data →
  Forall (λ row, k < length row) gamma →
  omap (λ '(i, s), if decide (i = v) then Some s else None)
       (zip (Z.to_nat <$> data) (resp_of_state gamma k))
  = resp_of_symbol data gamma k v.
Proof.
  unfold resp_of_state, resp_of_symbol. intros Hd. revert gamma.
  induction Hd as [|d data Hd0 _ IH]; intros gamma Hg; [done|].
  destruct Hg as [|row gamma Hk Hg]; [done|].
  destruct (lookup_lt_is_Some_2 row k Hk) as [x Hx].
  cbn. rewrite Hx. cbn. rewrite (IH gamma Hg).
  destruct (decide (Z.to_nat d = v)) as [Hv|Hv], (decide (d = Z.of_nat v)) as [Hv'|Hv'];
    try done; lia.
Qed.

Lemma scatter_add_1_zeros data gamma (K V : nat) (mp : list (list E)) :
  length mp = K →
  Forall (λ z, 0 ≤ z < Z.of_nat V)%Z data →
  length gamma = length data →
  ∃ num,
    scatter_add_1 (zeros_like (Mat V mp)) (length data) (replicate K data)
      (Mat (length gamma) (resp_of_state gamma <$> seq 0 K)) = Some (Mat V num)
    ∧ length num = K
    ∧ ∀ k, k < K →
        num !! k = Some (scatter_add_row (replicate V e_zero) (Z.to_nat <$> data)
                           (resp_of_state gamma k)).
Proof.
  intros Hmp Hdata Hlen. unfold scatter_add_1, zeros_like, fill.
  rewrite length_replicate, Hmp.
  destruct (K * length data =? 0) eqn:Hz.
  - eexists. split; [done|]. split; [by rewrite length_replicate|].
    intros k Hk. rewrite lookup_replicate_2 by done.
    apply Nat.eqb_eq in Hz.
    assert (length data = 0) as Hn%nil_length_inv by nia.
    by rewrite Hn.
  - rewrite decide_True.
    2:{ rewrite !length_fmap, length_seq, Hlen, length_replicate.
        repeat split; try lia. by apply Forall_replicate. }
    eexists. split; [done|].
    assert (Hd : drop K (replicate K (replicate V (e_zero (E:=E)))) = []).
    { apply drop_ge. by rewrite length_replicate. }
    rewrite Hd, app_nil_r. split.
    + rewrite length_zip_with, length_zip, !length_replicate, length_fmap, length_seq. lia.
    + intros k Hk. rewrite lookup_zip_with.
      rewrite lookup_replicate_2 by done. simpl.
      rewrite (lookup_zip_with pair (replicate K data)).
      rewrite lookup_replicate_2 by done. simpl.
      rewrite list_lookup_fmap, lookup_seq_lt by done. done.
Qed.

Lemma maximize_run σ (h : Discrete.head) (K V : nat) (mp : list (list E)) data gamma :
  σ !! Discrete.probabilities h = Some (Mat V mp) → length mp = K →
  Forall (λ z, 0 ≤ z < Z.of_nat V)%Z data →
  length gamma = length data →
  Forall (λ row, length row = K) gamma →
  ∃ num,
    Discrete.maximize h data (Mat K gamma) σ
    = Some ({[ "num" := length σ; "denom" := S (length σ) ]},
            σ ++ [Mat V num;
                  Vec ((λ j, e_sum 0 (Mat K gamma) j (resp_of_state gamma j))
                         <$> seq 0 K)])
    ∧ length num = K
    ∧ ∀ k, k < K →
        num !! k = Some (scatter_add_row (replicate V e_zero) (Z.to_nat <$> data)
                           (resp_of_state gamma k)).
Proof.
  intros HP Hmp Hdata Hlen Hg.
  destruct (scatter_add_1_zeros data gamma K V mp Hmp Hdata Hlen)
    as (num & Hsc & Hnl & Hnum).
  exists num. split; [|done].
  unfold Discrete.maximize.
  rewrite (bind_Some _ _ σ (Mat (length gamma) (resp_of_state gamma <$> seq 0 K)) σ).
  2:{ apply lift_Some. simpl. by rewrite (columns_resp gamma K Hg). }
  rewrite (bind_Some _ _ σ K σ).
  2:{ unfold Discrete.num_states. rewrite (bind_Some _ _ σ _ σ (load_Some _ _ _ HP)).
      apply lift_Some. simpl. by rewrite Hmp. }
  rewrite (bind_Some _ _ σ _ σ (load_Some _ _ _ HP)).
  rewrite (bind_Some _ _ σ (length σ) (σ ++ [zeros_like (Mat V mp)])) by done.
  rewrite (bind_Some _ _ _ (zeros_like (Mat V mp)) (σ ++ [zeros_like (Mat V mp)])).
  2:{ apply load_Some, lookup_snoc. }
  rewrite (bind_Some _ _ _ (Mat V num) (σ ++ [zeros_like (Mat V mp)])).
  2:{ apply lift_Some. by rewrite <- Hlen in Hsc |- *. }
  rewrite (bind_Some _ _ _ tt (σ ++ [Mat V num])).
  2:{ erewrite store_Some by apply lookup_snoc.
      rewrite insert_app_r_alt, Nat.sub_diag by done. done. }
  rewrite (bind_Some _ _ _
             (Vec ((λ j, e_sum 0 (Mat K gamma) j (resp_of_state gamma j)) <$> seq 0 K))
             (σ ++ [Mat V num])).
  2:{ apply lift_Some. simpl. by rewrite (sums_resp gamma K _ Hg). }
  unfold bind, alloc, ret. rewrite length_app, <- (assoc_L (++)). simpl.
  by rewrite Nat.add_1_r.
Qed.
End Maximize.

(** C5: for a head with [K] states and [V] symbols, [N] symbols in range and
    an [N]-by-[K] responsibility matrix, [Discrete.maximize] returns a record
    whose numerator has at (k, v) the sum of [gamma[n][k]] over the items [n]
    with [data[n] = v], accumulated in the order of the items, and whose
    denominator has at k a sum of [gamma[n][k]] over all items, added in the
    order that the kernel of [gamma.sum(0)] takes.  Where the additions are
    exact (responsibilities in an exact range of the element type) both are
    the sums themselves, whatever the order.  The two tensors have the shapes
    [K]-by-[V] and [K], and the probability table, like every tensor that
    existed, is as it was. *)
Theorem Discrete_maximize_statistics {E} `{!DType E} `{!Reduce E} `{!ReduceSums E}
    (σ : list (Tensor E)) (h : Discrete.head) (K V : nat) (mp : list (list E))
    (data : list Z) (gamma : list (list E)) :
  σ !! Discrete.probabilities h = Some (Mat V mp) → length mp = K →
  Forall (λ z, 0 ≤ z < Z.of_nat V)%Z data →
  length gamma = length data →
  Forall (λ row, length row = K) gamma →
  ∃ r σ' num denom,
    Discrete.maximize h data (Mat K gamma) σ = Some (r, σ')
    ∧ stats_at σ' r num denom
    ∧ discrete_stats K V num denom
    ∧ (∀ k v, k < K → v < V →
         entry num k v = Some (sum_in_order (resp_of_symbol data gamma k v)))
    ∧ (∀ k, k < K →
         ∃ d, tget denom (Z.of_nat k) = Some (Scal d)
              ∧ sums_to (resp_of_state gamma k) d)
    ∧ (∀ (ι : Z → E) (B : Z) (g : list (list Z)),
         ExactRange ι B → gamma = (λ row : list Z, ι <$> row) <$> g →
         Forall (Forall (λ z, 0 ≤ z)%Z) g →
         ∀ k, k < K → (total (resp_of_state g k) ≤ B)%Z →
           tget denom (Z.of_nat k) = Some (Scal (ι (total (resp_of_state g k))))
           ∧ ∀ v, v < V →
               entry num k v = Some (ι (total (resp_of_symbol data g k v))))
    ∧ σ' !! Discrete.probabilities h = Some (Mat V mp)
    ∧ (∀ l t, σ !! l = Some t → σ' !! l = Some t).
Proof.
  intros HP Hmp Hdata Hlen Hg.
  destruct (maximize_run σ h K V mp data gamma HP Hmp Hdata Hlen Hg)
    as (num & Hrun & Hnl & Hnum).
  assert (Hentry : ∀ k v, k < K → v < V →
            entry (Mat V num) k v
            = Some (sum_in_order (resp_of_symbol data gamma k v))).
  { intros k v Hk Hv. simpl. rewrite (Hnum k Hk). simpl.
    rewrite (scatter_add_row_lookup _ _ _ v e_zero) by by apply lookup_replicate_2.
    rewrite selected_resp; [done| |].
    - eapply Forall_impl; [exact Hdata|]. simpl. lia.
    - eapply Forall_impl; [exact Hg|]. simpl. intros row ->. lia. }
  assert (Hdenom : ∀ k, k < K →
            tget (Vec ((λ j, e_sum 0 (Mat K gamma) j (resp_of_state gamma j))
                         <$> seq 0 K)) (Z.of_nat k)
            = Some (Scal (e_sum 0 (Mat K gamma) k (resp_of_state gamma k)))).
  { intros k Hk. simpl. unfold py_index.
    rewrite decide_True by (rewrite length_fmap, length_seq; lia).
    simpl. rewrite Nat2Z.id, list_lookup_fmap, lookup_seq_lt by done. done. }
  eexists _, _, (Mat V num), (Vec _). split; [exact Hrun|].
  split; [|split; [|split; [|split; [|split; [|split]]]]].
  - exists (length σ), (S (length σ)).
    rewrite stats_lookup_num, stats_lookup_denom. repeat split.
    + by rewrite lookup_app_r, Nat.sub_diag.
    + rewrite lookup_app_r by lia. by replace (S (length σ) - length σ) with 1 by lia.
  - split; [|split]; simpl.
    + by rewrite Hnl.
    + apply forallb_forall. intros row Hin.
      apply list_elem_of_In, list_elem_of_lookup in Hin as [k Hk].
      pose proof (lookup_lt_Some _ _ _ Hk) as Hlt. rewrite Hnl in Hlt.
      rewrite (Hnum k Hlt) in Hk. simplify_eq.
      apply Nat.eqb_eq. by rewrite scatter_add_row_length, length_replicate.
    + by rewrite length_fmap, length_seq.
  - exact Hentry.
  - intros k Hk. eexists. split; [by apply Hdenom|]. apply e_sum_sums.
  - intros ι B g HX -> Hnn k Hk HB. split.
    + rewrite (Hdenom k Hk). do 2 f_equal.
      eapply (sums_to_exact ι B); [done|apply e_sum_sums| |by apply resp_of_state_nonneg|done].
      apply resp_of_state_fmap.
    + intros v Hv. rewrite (Hentry k v Hk Hv). f_equal.
      destruct (resp_of_symbol_part data g k v Hnn) as [Hnn' Hle].
      eapply (sums_to_exact ι B); [done|apply sums_to_in_order| |done|lia].
      apply resp_of_symbol_fmap.
  - by apply lookup_app_l_Some.
  - intros l t Hl. by apply lookup_app_l_Some.
Qed.

Lemma Discrete_maximize_statistics_witness :
  ∃ r σ' num denom,
    Discrete.maximize Ex.disc Ex.disc_data Ex.disc_gamma Ex.disc_store = Some (r, σ')
    ∧ stats_at σ' r num denom
    ∧ discrete_stats 2 2 num denom
    ∧ (∀ k v, k < 2 → v < 2 →
         entry num k v
         = Some (sum_in_order
                   (resp_of_symbol Ex.disc_data
                      [[Ex.F 1; Ex.F 0]; [Ex.F 1; Ex.F 0]; [Ex.F 0; Ex.F 1]] k v)))
    ∧ (∀ k, k < 2 →
         ∃ d, tget denom (Z.of_nat k) = Some (Scal d)
              ∧ sums_to (resp_of_state
                           [[Ex.F 1; Ex.F 0]; [Ex.F 1; Ex.F 0]; [Ex.F 0; Ex.F 1]] k) d)
    ∧ (∀ (ι : Z → float32) (B : Z) (g : list (list Z)),
         ExactRange ι B →
         [[Ex.F 1; Ex.F 0]; [Ex.F 1; Ex.F 0]; [Ex.F 0; Ex.F 1]]
         = (λ row : list Z, ι <$> row) <$> g →
         Forall (Forall (λ z, 0 ≤ z)%Z) g →
         ∀ k, k < 2 → (total (resp_of_state g k) ≤ B)%Z →
           tget denom (Z.of_nat k) = Some (Scal (ι (total (resp_of_state g k))))
           ∧ ∀ v, v < 2 →
               entry num k v = Some (ι (total (resp_of_symbol Ex.disc_data g k v))))
    ∧ σ' !! Discrete.probabilities Ex.disc
      = Some (Mat 2 [[Ex.half; Ex.half]; [Ex.F 1; Ex.F 0]])
    ∧ (∀ l t, Ex.disc_store !! l = Some t → σ' !! l = Some t).
Proof.
  apply (Discrete_maximize_statistics Ex.disc_store Ex.disc 2 2
           [[Ex.half; Ex.half]; [Ex.F 1; Ex.F 0]] Ex.disc_data
           [[Ex.F 1; Ex.F 0]; [Ex.F 1; Ex.F 0]; [Ex.F 0; Ex.F 1]]).
  - reflexivity.
  - reflexivity.
  - repeat constructor; lia.
  - reflexivity.
  - repeat constructor.
Defined.

(** The statistics of the examples do not depend on the kernel: the sums of
    the columns of [Ex.disc_gamma] are exact in every order. *)
Lemma maximize_example_any_kernel (R : Reduce float32) :
  ReduceSums float32 →
  @Discrete.maximize float32 _ R Ex.disc Ex.disc_data Ex.disc_gamma Ex.disc_store
  = Some ({[ "num" := 1; "denom" := 2 ]},
          Ex.disc_store ++ [Mat 2 [[Ex.F 2; Ex.F 0]; [Ex.F 1; Ex.F 0]];
                            Vec [Ex.F 2; Ex.F 1]]).
Proof.
  intros HR.
  destruct (maximize_run Ex.disc_store Ex.disc 2 2
              [[Ex.half; Ex.half]; [Ex.F 1; Ex.F 0]] Ex.disc_data
              [[Ex.F 1; Ex.F 0]; [Ex.F 1; Ex.F 0]; [Ex.F 0; Ex.F 1]])
    as (num & Hrun & Hnl & Hnum); try done.
  { repeat constructor; lia. }
  { repeat constructor. }
  assert (Hn : num = [[Ex.F 2; Ex.F 0]; [Ex.F 1; Ex.F 0]]).
  { pose proof (Hnum 0 ltac:(lia)) as H0. pose proof (Hnum 1 ltac:(lia)) as H1.
    destruct num as [|r0 [|r1 [|? ?]]]; simplify_eq/=. done. }
  assert (H0 : e_sum 0 (Mat 2 [[Ex.F 1; Ex.F 0]; [Ex.F 1; Ex.F 0]; [Ex.F 0; Ex.F 1]]) 0
                 [Ex.F 1; Ex.F 1; Ex.F 0] = Ex.F 2).
  { apply (sums_to_exact Ex.F 256 _ _ f32_exact_range (e_sum_sums _ _ _ _)
             [1; 1; 0]%Z); [done|repeat constructor; lia|by vm_compute]. }
  assert (H1 : e_sum 0 (Mat 2 [[Ex.F 1; Ex.F 0]; [Ex.F 1; Ex.F 0]; [Ex.F 0; Ex.F 1]]) 1
                 [Ex.F 0; Ex.F 0; Ex.F 1] = Ex.F 1).
  { apply (sums_to_exact Ex.F 256 _ _ f32_exact_range (e_sum_sums _ _ _ _)
             [0; 0; 1]%Z); [done|repeat constructor; lia|by vm_compute]. }
  unfold Ex.disc_gamma. rewrite Hrun, Hn. cbn [fmap list_fmap seq].
  change (resp_of_state [[Ex.F 1; Ex.F 0]; [Ex.F 1; Ex.F 0]; [Ex.F 0; Ex.F 1]] 0)
    with [Ex.F 1; Ex.F 1; Ex.F 0].
  change (resp_of_state [[Ex.F 1; Ex.F 0]; [Ex.F 1; Ex.F 0]; [Ex.F 0; Ex.F 1]] 1)
    with [Ex.F 0; Ex.F 0; Ex.F 1].
  by rewrite H0, H1.
Qed.

(** The order of the additions matters: on one column of float32 values,
    adding in index order gives 16777216, and adding with four accumulators
    gives 16777222; both are sums of the column. *)
Lemma sums_to_depends_on_order :
  let col := Ex.F 16777216 :: replicate 7 (Ex.F 1) in
  sum_in_order col = Ex.F 16777216
  ∧ sums_to col (Ex.F 16777216)
  ∧ sums_to col (Ex.F 16777222).
Proof.
  split; [by vm_compute|]. split.
  - change (Ex.F 16777216) with
      (sum_in_order (Ex.F 16777216 :: replicate 7 (Ex.F 1))) at 2.
    apply sums_to_in_order.
  - change (sums_to (([Ex.F 16777216] ++ [Ex.F 1]) ++ ([Ex.F 1] ++ [Ex.F 1])
                     ++ ([Ex.F 1] ++ [Ex.F 1]) ++ ([Ex.F 1] ++ [Ex.F 1]))
              (e_add (e_add (Ex.F 16777216) (Ex.F 1))
                 (e_add (e_add (Ex.F 1) (Ex.F 1))
                    (e_add (e_add (Ex.F 1) (Ex.F 1)) (e_add (Ex.F 1) (Ex.F 1)))))).
    repeat apply sums_app; apply sums_one.
Qed.

(** ** Discrete: apply *)

Section Apply.
Context {E : Type} `{!DType E}.
Implicit Types (σ : list (Tensor E)).

Lemma apply_quotient σ (h : Discrete.head) (u : Stats) (n d : Tensor E) σ' :
  stats_at σ u n d →
  Discrete.apply h u σ = Some (tt, σ') →
  ∃ q, tdiv n d = Some q
       ∧ σ' = <[Discrete.probabilities h := q]> σ
       ∧ σ' !! Discrete.probabilities h = Some q.
Proof.
  intros (ln & ld & Hn & Hd & Hln & Hld). unfold Discrete.apply.
  rewrite (bind_Some _ _ σ ln σ) by by apply lift_Some.
  rewrite (bind_Some _ _ σ n σ) by by apply load_Some.
  rewrite (bind_Some _ _ σ ld σ) by by apply lift_Some.
  rewrite (bind_Some _ _ σ d σ) by by apply load_Some.
  unfold bind, lift. destruct (tdiv n d) as [q|]; [|done].
  unfold store. case_decide as Hlt; [|done].
  intros [= <-]. exists q. split; [done|]. split; [done|].
  by apply list_lookup_insert_eq.
Qed.

Lemma broadcast_dim_gt (V K d k : nat) :
  broadcast_dim V K = Some d → 0 < V → k < K → k < d.
Proof.
  unfold broadcast_dim. intros H HV Hk.
  destruct (V =? K) eqn:H1; [apply Nat.eqb_eq in H1; simplify_eq; lia|].
  destruct (V =? 1) eqn:H2; [simplify_eq; lia|].
  destruct (K =? 1) eqn:H3; [apply Nat.eqb_eq in H3; simplify_eq; lia|].
  done.
Qed.

Lemma expand_list_lookup_same {A} (l l' : list A) (n k : nat) (x : A) :
  expand_list l n = Some l' → l !! k = Some x → k < n → l' !! k = Some x.
Proof.
  unfold expand_list. intros H Hx Hk.
  destruct (length l =? n); [by simplify_eq|].
  destruct l as [|y [|??]]; simplify_eq.
  destruct k; simplify_eq/=. by apply lookup_replicate_2.
Qed.

Lemma expand_list_lookup_elem {A} (l l' : list A) (n k : nat) :
  expand_list l n = Some l' → k < n → ∃ y, l' !! k = Some y ∧ y ∈ l.
Proof.
  unfold expand_list. intros H Hk.
  destruct (length l =? n) eqn:Hl.
  - apply Nat.eqb_eq in Hl. simplify_eq.
    destruct (lookup_lt_is_Some_2 l' k Hk) as [y Hy].
    exists y. split; [done|]. by eapply list_elem_of_lookup_2.
  - destruct l as [|y [|??]]; simplify_eq.
    exists y. split; [by apply lookup_replicate_2|]. left.
Qed.

(** The diagonal entry (k, k) of [num / denom] is [num[k][j] / denom[k]] for
    some column [j], whichever way the two tensors broadcast. *)
Lemma tdiv_diagonal (V : nat) (num : list (list E)) (denom : list E) (q : Tensor E)
    (k : nat) (row : list E) (dk : E) :
  tdiv (Mat V num) (Vec denom) = Some q →
  length denom = length num → 0 < V →
  num !! k = Some row → denom !! k = Some dk →
  ∃ x, x ∈ row ∧ entry q k k = Some (e_div x dk).
Proof.
  unfold tdiv, binop, broadcast_shapes. simpl. intros Hq Hlen HV Hrow Hdk.
  destruct (broadcast_dim V (length denom)) as [d|] eqn:Hd; [|done].
  simpl in Hq.
  destruct (mapM (λ r, expand_list r d) num) as [rows|] eqn:Hrows; [|done].
  simpl in Hq.
  pose proof (lookup_lt_Some _ _ _ Hrow) as Hk.
  assert (Hkd : k < d) by (eapply broadcast_dim_gt; [done..|lia]).
  apply mapM_Some in Hrows.
  pose proof (Forall2_length _ _ _ Hrows) as Hrl.
  rewrite (expand_list_len rows (length num)) in Hq by lia.
  simpl in Hq.
  destruct (expand_list denom d) as [drow|] eqn:Hdrow; [|done].
  simpl in Hq. simplify_eq. simpl.
  destruct (Forall2_lookup_l _ _ _ _ _ Hrows Hrow) as (erow & Herow & Hex).
  destruct (expand_list_lookup_elem _ _ _ k Hex Hkd) as (x & Hx & Hin).
  exists x. split; [done|].
  rewrite lookup_zip_with, Herow. simpl.
  rewrite lookup_replicate_2 by lia. simpl.
  rewrite lookup_zip_with, Hx. simpl.
  by rewrite (expand_list_lookup_same _ _ _ _ _ Hdrow Hdk Hkd).
Qed.
End Apply.

Lemma f32_div_zero_zero (x d : float32) :
  is_zero x = true → is_zero d = true → f32_div x d = S754_nan.
Proof. by destruct x, d. Qed.

(** C3, as the claim states it, fails: a head with one state and the table
    [[0.5, 0.5]] is given statistics with the numerators [[0, 0]] and the
    denominator [0].  [apply] returns and the row of the state is
    [NaN, NaN], not the row it had. *)
Lemma Discrete_apply_zero_denominator_nan :
  Discrete.apply Ex.disc Ex.single_update Ex.single_store
  = Some (tt, [Mat 2 [[S754_nan; S754_nan]]; Mat 2 [[Ex.F 0; Ex.F 0]]; Vec [Ex.F 0]])
  ∧ Ex.single_store !! Discrete.probabilities Ex.disc
    = Some (Mat 2 [[Ex.half; Ex.half]])
  ∧ stats_at Ex.single_store Ex.single_update (Mat 2 [[Ex.F 0; Ex.F 0]]) (Vec [Ex.F 0]).
Proof.
  split; [reflexivity|]. split; [reflexivity|].
  exists 1, 2. repeat split; reflexivity.
Qed.

(** C3 (amended): [Discrete.apply] has no guard for a zero denominator.  For a
    state k with [denom[k] = 0] whose numerators are all zero (at least one
    symbol), whenever [apply] returns, the table is the quotient of the
    numerators by the denominators, whatever it was before, and its entry
    (k, k) is NaN: row k is overwritten, not kept. *)
Theorem Discrete_apply_zero_denominator (σ σ' : list (Tensor float32))
    (h : Discrete.head) (u : Stats) (V : nat) (num : list (list float32))
    (denom : list float32) (k : nat) (row : list float32) (dk : float32) :
  stats_at σ u (Mat V num) (Vec denom) →
  length denom = length num → 0 < V →
  num !! k = Some row → Forall (λ x, is_zero x = true) row →
  denom !! k = Some dk → is_zero dk = true →
  Discrete.apply h u σ = Some (tt, σ') →
  ∃ q, σ' !! Discrete.probabilities h = Some q
       ∧ tdiv (Mat V num) (Vec denom) = Some q
       ∧ entry q k k = Some S754_nan.
Proof.
  intros Hu Hlen HV Hrow Hz Hdk Hzd Hrun.
  destruct (apply_quotient σ h u _ _ σ' Hu Hrun) as (q & Hq & _ & Hlk).
  exists q. split; [done|]. split; [done|].
  destruct (tdiv_diagonal V num denom q k row dk Hq Hlen HV Hrow Hdk)
    as (x & Hx & ->).
  f_equal. apply f32_div_zero_zero; [|done].
  rewrite Forall_forall in Hz. by apply Hz.
Qed.

Lemma Discrete_apply_zero_denominator_witness :
  ∃ q, [Mat 2 [[S754_nan; S754_nan]]; Mat 2 [[Ex.F 0; Ex.F 0]]; Vec [Ex.F 0]]
         !! Discrete.probabilities Ex.disc = Some q
       ∧ tdiv (Mat 2 [[Ex.F 0; Ex.F 0]]) (Vec [Ex.F 0]) = Some q
       ∧ entry q 0 0 = Some S754_nan.
Proof.
  apply (Discrete_apply_zero_denominator Ex.single_store _ Ex.disc Ex.single_update
           2 [[Ex.F 0; Ex.F 0]] [Ex.F 0] 0 [Ex.F 0; Ex.F 0] (Ex.F 0)).
  - exists 1, 2. repeat split; reflexivity.
  - reflexivity.
  - lia.
  - reflexivity.
  - repeat constructor.
  - reflexivity.
  - reflexivity.
  - reflexivity.
Defined.

(** ** Gaussian: the covariance tensor and its full matrix *)

Section Covariance.
Context {E : Type} `{!DType E}.
Implicit Types (σ : list (Tensor E)) (h : Gaussian.head).

Lemma py_index_nat (n i : nat) : i < n → py_index n (Z.of_nat i) = Some i.
Proof.
  intros Hi. unfold py_index. rewrite decide_True by lia. by rewrite Nat2Z.id.
Qed.

Lemma diag_row_length (n i : nat) (x : E) : length (diag_row n i x) = n.
Proof. unfold diag_row. by rewrite length_insert, length_replicate. Qed.

Lemma diag_matrix_wf (v : list E) : wf (diag_matrix v) = true.
Proof.
  unfold diag_matrix, wf. apply forallb_forall. intros row Hin.
  apply list_elem_of_In, list_elem_of_lookup in Hin as [i Hi].
  rewrite list_lookup_imap in Hi.
  destruct (v !! i); simplify_eq/=. apply Nat.eqb_eq, diag_row_length.
Qed.

(** The entries of a diagonal matrix. *)
Lemma diag_matrix_entry (v : list E) (i j : nat) (x : E) :
  v !! i = Some x → j < length v →
  entry (diag_matrix v) i j = Some (if decide (i = j) then x else e_zero).
Proof.
  intros Hx Hj. unfold diag_matrix, entry, diag_row.
  rewrite list_lookup_imap, Hx. simpl.
  case_decide as Hij.
  - subst j. apply list_lookup_insert_eq. by rewrite length_replicate.
  - rewrite list_lookup_insert_ne by done. by apply lookup_replicate_2.
Qed.

Lemma covars_init_shape (cov : string) (K D : nat) :
  shape (covars_init (E:=E) cov K D)
  = if String.eqb cov "diag" then [K; D]
    else if String.eqb cov "spherical" then [K] else [D].
Proof.
  unfold covars_init.
  destruct (String.eqb cov "diag"); [|destruct (String.eqb cov "spherical")];
    simpl; by rewrite length_replicate.
Qed.

Lemma get_full_diag h σ (D : nat) (rows : list (list E)) (i : nat) (row : list E) :
  Gaussian.covariance h = "diag" →
  σ !! Gaussian.covars h = Some (Mat D rows) → rows !! i = Some row →
  Gaussian._get_full_covariance_matrix h (Z.of_nat i) σ = Some (diag_matrix row, σ).
Proof.
  intros Hc Hl Hi. unfold Gaussian._get_full_covariance_matrix.
  rewrite (bind_Some _ _ σ _ σ (load_Some _ _ _ Hl)), Hc. simpl.
  rewrite (bind_Some _ _ σ (Vec row) σ); [done|].
  apply lift_Some. simpl. rewrite py_index_nat by by eapply lookup_lt_Some.
  simpl. by rewrite Hi.
Qed.

Lemma get_full_diag_shared h σ (v : list E) (i : Z) :
  Gaussian.covariance h = "diag-shared" →
  σ !! Gaussian.covars h = Some (Vec v) →
  Gaussian._get_full_covariance_matrix h i σ = Some (diag_matrix v, σ).
Proof.
  intros Hc Hl. unfold Gaussian._get_full_covariance_matrix.
  by rewrite (bind_Some _ _ σ _ σ (load_Some _ _ _ Hl)), Hc.
Qed.

Lemma tmul_scalar_matrix (x : E) (c : nat) (m : list (list E)) :
  wf (Mat c m) = true →
  tmul (Scal x) (Mat c m) = Some (tmap (e_mul x) (Mat c m)).
Proof.
  intros Hwf. unfold tmul, binop, broadcast_shapes. simpl.
  rewrite (mapM_expand_rows _ _ Hwf). simpl.
  rewrite expand_list_same. simpl. do 2 f_equal.
  rewrite zip_with_replicate_l by done.
  apply list_fmap_ext. intros j row Hrow.
  apply zip_with_replicate_l.
  simpl in Hwf. rewrite forallb_forall in Hwf.
  assert (Hr : (length row =? c) = true).
  { apply Hwf, list_elem_of_In. by eapply list_elem_of_lookup_2. }
  apply Nat.eqb_eq in Hr. lia.
Qed.

Lemma get_full_other h σ (v : list E) (D : nat) (mm : list (list E)) (i : nat) (x : E) :
  Gaussian.covariance h ≠ "diag" → Gaussian.covariance h ≠ "diag-shared" →
  σ !! Gaussian.covars h = Some (Vec v) →
  σ !! Gaussian.means h = Some (Mat D mm) →
  v !! i = Some x →
  Gaussian._get_full_covariance_matrix h (Z.of_nat i) σ
  = Some (tmap (e_mul x) (identity D), σ).
Proof.
  intros Hd%String.eqb_neq Hs%String.eqb_neq Hl Hm Hi.
  unfold Gaussian._get_full_covariance_matrix.
  rewrite (bind_Some _ _ σ _ σ (load_Some _ _ _ Hl)), Hd, Hs.
  rewrite (bind_Some _ _ σ (Scal x) σ).
  2:{ apply lift_Some. simpl. rewrite py_index_nat by by eapply lookup_lt_Some.
      simpl. by rewrite Hi. }
  rewrite (bind_Some _ _ σ D σ).
  2:{ unfold Gaussian.num_features.
      by rewrite (bind_Some _ _ σ _ σ (load_Some _ _ _ Hm)). }
  rewrite (bind_Some _ _ σ (identity D) σ) by done.
  apply lift_Some. unfold identity. apply tmul_scalar_matrix, diag_matrix_wf.
Qed.
End Covariance.

(** C7, as the claim states it, fails for 'full': with one component and two
    features the covariance tensor has the shape [2], one entry per feature,
    not a 2-by-2 matrix per component; [_get_full_covariance_matrix(1)] takes
    entry 1 of it, for a component that does not exist. *)
Lemma Gaussian_full_covars_is_a_vector :
  Gaussian.__init__ 1 2 "full" (λ _ _, Ex.F 0) []
  = Some ({| Gaussian.covariance := "full"; Gaussian.means := 0; Gaussian.covars := 1 |},
          [Mat 2 [[Ex.F 0; Ex.F 0]]; Vec [Ex.F 1; Ex.F 1]])
  ∧ shape (Vec [Ex.F 1; Ex.F 1]) = [2]
  ∧ shape (Vec [Ex.F 1; Ex.F 1]) ≠ [1; 2; 2]
  ∧ Gaussian._get_full_covariance_matrix
      {| Gaussian.covariance := "full"; Gaussian.means := 0; Gaussian.covars := 1 |} 1
      [Mat 2 [[Ex.F 0; Ex.F 0]]; Vec [Ex.F 1; Ex.F 1]]
    = Some (Mat 2 [[Ex.F 1; Ex.F 0]; [Ex.F 0; Ex.F 1]],
            [Mat 2 [[Ex.F 0; Ex.F 0]]; Vec [Ex.F 1; Ex.F 1]]).
Proof. repeat split; try reflexivity. discriminate. Qed.

(** C7 (amended): after [__init__] with [K] components and [D] features the
    means are [K]-by-[D] and the covariance tensor is [K]-by-[D] for 'diag',
    a vector of length [K] for 'spherical' and a vector of length [D] for
    every other name, 'diag-shared' and 'full' among them.
    [_get_full_covariance_matrix(i)] is the diagonal matrix of row [i] for
    'diag', the diagonal matrix of the whole vector, the same for every [i],
    for 'diag-shared', and entry [i] of the vector times the identity for
    every other name. *)
Theorem Gaussian_covars_shape_and_full_matrix {E} `{!DType E} :
  (∀ (K D : nat) (cov : string) (normal : nat → nat → E) (σ : list (Tensor E)),
     ∃ h σ' m c,
       Gaussian.__init__ K D cov normal σ = Some (h, σ')
       ∧ Gaussian.covariance h = cov
       ∧ σ' !! Gaussian.means h = Some m ∧ shape m = [K; D]
       ∧ σ' !! Gaussian.covars h = Some c
       ∧ shape c = (if String.eqb cov "diag" then [K; D]
                    else if String.eqb cov "spherical" then [K] else [D]))
  ∧ (∀ (h : Gaussian.head) (σ : list (Tensor E)) (D : nat) (rows : list (list E))
       (i : nat) (row : list E),
       Gaussian.covariance h = "diag" →
       σ !! Gaussian.covars h = Some (Mat D rows) → rows !! i = Some row →
       Gaussian._get_full_covariance_matrix h (Z.of_nat i) σ
       = Some (diag_matrix row, σ))
  ∧ (∀ (h : Gaussian.head) (σ : list (Tensor E)) (v : list E) (i : Z),
       Gaussian.covariance h = "diag-shared" →
       σ !! Gaussian.covars h = Some (Vec v) →
       Gaussian._get_full_covariance_matrix h i σ = Some (diag_matrix v, σ))
  ∧ (∀ (h : Gaussian.head) (σ : list (Tensor E)) (v : list E) (D : nat)
       (mm : list (list E)) (i : nat) (x : E),
       Gaussian.covariance h ≠ "diag" → Gaussian.covariance h ≠ "diag-shared" →
       σ !! Gaussian.covars h = Some (Vec v) →
       σ !! Gaussian.means h = Some (Mat D mm) →
       v !! i = Some x →
       Gaussian._get_full_covariance_matrix h (Z.of_nat i) σ
       = Some (tmap (e_mul x) (identity D), σ))
  ∧ (∀ (v : list E) (i j : nat) (x : E),
       v !! i = Some x → j < length v →
       entry (diag_matrix v) i j = Some (if decide (i = j) then x else e_zero)).
Proof.
  split; [|split; [|split; [|split]]].
  - intros K D cov normal σ.
    eexists _, _, (means_init normal K D), (covars_init cov K D).
    split; [apply Gaussian_init_spec|].
    cbn [Gaussian.means Gaussian.covars Gaussian.covariance].
    split; [done|]. split; [by rewrite lookup_app_r, Nat.sub_diag|].
    split.
    { unfold means_init. simpl. by rewrite length_imap, length_replicate. }
    split; [|apply covars_init_shape].
    rewrite lookup_app_r by lia. by replace (S (length σ) - length σ) with 1 by lia.
  - intros. by eapply get_full_diag.
  - intros. by apply get_full_diag_shared.
  - intros. by eapply get_full_other.
  - intros. by apply diag_matrix_entry.
Qed.

Lemma Gaussian_covars_shape_and_full_matrix_witness :
  Gaussian._get_full_covariance_matrix
    {| Gaussian.covariance := "diag"; Gaussian.means := 0; Gaussian.covars := 1 |} 1
    [Mat 2 [[Ex.F 0; Ex.F 0]; [Ex.F 0; Ex.F 0]]; Mat 2 [[Ex.F 1; Ex.F 2]; [Ex.F 3; Ex.F 4]]]
  = Some (Mat 2 [[Ex.F 3; Ex.F 0]; [Ex.F 0; Ex.F 4]],
          [Mat 2 [[Ex.F 0; Ex.F 0]; [Ex.F 0; Ex.F 0]]; Mat 2 [[Ex.F 1; Ex.F 2]; [Ex.F 3; Ex.F 4]]])
  ∧ Gaussian._get_full_covariance_matrix
      {| Gaussian.covariance := "spherical"; Gaussian.means := 0; Gaussian.covars := 1 |} 1
      [Mat 2 [[Ex.F 0; Ex.F 0]; [Ex.F 0; Ex.F 0]]; Vec [Ex.F 1; Ex.F 2]]
    = Some (Mat 2 [[Ex.F 2; Ex.F 0]; [Ex.F 0; Ex.F 2]],
            [Mat 2 [[Ex.F 0; Ex.F 0]; [Ex.F 0; Ex.F 0]]; Vec [Ex.F 1; Ex.F 2]]).
Proof.
  destruct (Gaussian_covars_shape_and_full_matrix (E:=float32))
    as (_ & Hdiag & _ & Hother & _).
  split.
  - apply (Hdiag _ _ 2 [[Ex.F 1; Ex.F 2]; [Ex.F 3; Ex.F 4]] 1 [Ex.F 3; Ex.F 4]);
      reflexivity.
  - apply (Hother _ _ [Ex.F 1; Ex.F 2] 2 [[Ex.F 0; Ex.F 0]; [Ex.F 0; Ex.F 0]] 1 (Ex.F 2));
      try reflexivity; discriminate.
Defined.

(** ** evaluate *)

Section Evaluate.
Context {E : Type} `{!DType E} (U : Utils E).
Implicit Types (σ : list (Tensor E)).

Lemma Discrete_evaluate_run (h : Discrete.head) (data : list Z) σ :
  Discrete.evaluate U h data σ
  = match σ !! Discrete.probabilities h with
    | Some P =>
        match Pt ← t_ P; probs ← tindex Pt data; normalize U probs with
        | Some r => Some (length σ, σ ++ [r])
        | None => None
        end
    | None => None
    end.
Proof.
  unfold Discrete.evaluate, bind, load, lift, alloc.
  destruct (σ !! Discrete.probabilities h) as [P|]; [|done].
  destruct (t_ P) as [Pt|]; [|done]. simpl.
  destruct (tindex Pt data) as [probs|]; [|done]. simpl.
  by destruct (normalize U probs).
Qed.

Local Arguments view : simpl never.

Lemma Gaussian_evaluate_run (h : Gaussian.head) (data : Tensor E) (log : bool) :
  ∃ f : option (Tensor E) → option (Tensor E) → option (Tensor E),
    ∀ σ, Gaussian.evaluate U h data log σ
         = match f (σ !! Gaussian.means h) (σ !! Gaussian.covars h) with
           | Some r => Some (length σ, σ ++ [r])
           | None => None
           end.
Proof.
  exists (λ om oc,
    d ← last (shape data);
    flat ← (if d =? 0 then None else view data [length (flatten data) / d; d]);
    m ← om; c ← oc;
    probabilities ← log_normal U flat m c;
    k ← size0 m;
    result ← view probabilities (removelast (shape data) ++ [k]);
    Some (if log then result else tmap (e_exp U) result)).
  intros σ.
  unfold Gaussian.evaluate, Gaussian.num_components, bind, load, lift, alloc.
  destruct (last (shape data)) as [d|]; [simpl|reflexivity].
  destruct (if d =? 0 then None else view data [length (flatten data) / d; d])
    as [flat|]; [simpl|reflexivity].
  destruct (σ !! Gaussian.means h) as [m|] eqn:Hm; [simpl|reflexivity].
  destruct (σ !! Gaussian.covars h) as [c|]; [simpl|reflexivity].
  destruct (log_normal U flat m c) as [p|]; [simpl|reflexivity].
  rewrite Hm.
  destruct (size0 m) as [k|]; [simpl|reflexivity].
  destruct (view p (removelast (shape data) ++ [k])) as [result|]; [simpl|reflexivity].
  by destruct log.
Qed.
End Evaluate.

(** C9: [evaluate] does not change the parameters and is deterministic, for
    both heads and whatever the functions of [utils.py] compute from the
    values of their arguments.  A call that returns leaves every tensor that
    existed, the parameters among them, with its value; and in two stores that
    give the parameters of the head the same values, [evaluate] on the same
    data returns tensors of the same value, or raises in both. *)
Theorem evaluate_reads_only_and_repeats {E} `{!DType E} (U : Utils E) :
  (∀ (h : Discrete.head) (data : list Z) (σ σ' : list (Tensor E)) (r : nat),
     Discrete.evaluate U h data σ = Some (r, σ') →
     ∀ l t, σ !! l = Some t → σ' !! l = Some t)
  ∧ (∀ (h : Discrete.head) (data : list Z) (σ1 σ2 : list (Tensor E)),
       σ1 !! Discrete.probabilities h = σ2 !! Discrete.probabilities h →
       out_value (Discrete.evaluate U h data) σ1
       = out_value (Discrete.evaluate U h data) σ2)
  ∧ (∀ (h : Gaussian.head) (data : Tensor E) (log : bool)
       (σ σ' : list (Tensor E)) (r : nat),
       Gaussian.evaluate U h data log σ = Some (r, σ') →
       ∀ l t, σ !! l = Some t → σ' !! l = Some t)
  ∧ (∀ (h : Gaussian.head) (data : Tensor E) (log : bool) (σ1 σ2 : list (Tensor E)),
       σ1 !! Gaussian.means h = σ2 !! Gaussian.means h →
       σ1 !! Gaussian.covars h = σ2 !! Gaussian.covars h →
       out_value (Gaussian.evaluate U h data log) σ1
       = out_value (Gaussian.evaluate U h data log) σ2).
Proof.
  split; [|split; [|split]].
  - intros h data σ σ' r. rewrite Discrete_evaluate_run.
    intros Hrun l t Hl. repeat case_match; simplify_eq.
    by apply lookup_app_l_Some.
  - intros h data σ1 σ2 Hp. unfold out_value.
    rewrite !Discrete_evaluate_run, Hp.
    repeat case_match; simplify_eq; try done.
    by rewrite !lookup_snoc.
  - intros h data log σ σ' r.
    destruct (Gaussian_evaluate_run U h data log) as [f Hf]. rewrite Hf.
    intros Hrun l t Hl. repeat case_match; simplify_eq.
    by apply lookup_app_l_Some.
  - intros h data log σ1 σ2 Hm Hc. unfold out_value.
    destruct (Gaussian_evaluate_run U h data log) as [f Hf].
    rewrite !Hf, Hm, Hc.
    repeat case_match; simplify_eq; try done.
    by rewrite !lookup_snoc.
Qed.

Lemma evaluate_reads_only_and_repeats_witness :
  out_value (Discrete.evaluate Ex.U Ex.disc [0; 1]%Z) Ex.disc_store
  = out_value (Discrete.evaluate Ex.U Ex.disc [0; 1]%Z)
      (Ex.disc_store ++ [Mat 2 [[Ex.half; Ex.F 1]; [Ex.half; Ex.F 0]]])
  ∧ out_value (Gaussian.evaluate Ex.U Ex.gauss (Mat 1 [[Ex.F 3]]) false) Ex.gauss_store
    = out_value (Gaussian.evaluate Ex.U Ex.gauss (Mat 1 [[Ex.F 3]]) false)
        (Ex.gauss_store ++ [Mat 1 [[Ex.F 3]]]).
Proof.
  destruct (evaluate_reads_only_and_repeats Ex.U) as (_ & Hd & _ & Hg).
  split.
  - apply Hd. reflexivity.
  - apply Hg; reflexivity.
Defined.

(** * Further properties of the code *)

(** ** Discrete.apply: when it returns and what it leaves *)

Section ApplyShape.
Context {E : Type} `{!DType E}.
Implicit Types (σ : list (Tensor E)) (h : Discrete.head) (u : Stats).

Lemma apply_run σ h u (n d : Tensor E) :
  stats_at σ u n d →
  Discrete.apply h u σ
  = match tdiv n d with
    | Some q => store (Discrete.probabilities h) q σ
    | None => None
    end.
Proof.
  intros (ln & ld & Hn & Hd & Hln & Hld). unfold Discrete.apply.
  rewrite (bind_Some _ _ σ ln σ) by by apply lift_Some.
  rewrite (bind_Some _ _ σ n σ) by by apply load_Some.
  rewrite (bind_Some _ _ σ ld σ) by by apply lift_Some.
  rewrite (bind_Some _ _ σ d σ) by by apply load_Some.
  unfold bind, lift. by destruct (tdiv n d).
Qed.

Lemma expand_list_singleton {A} (x : A) (n : nat) :
  expand_list [x] n = Some (replicate n x).
Proof.
  by destruct n as [|[|n]].
Qed.

(** Expanding the last axis of a matrix with [V] columns to [d] columns. *)
Lemma expand_rows_Some (V d : nat) (m : list (list E)) :
  wf (Mat V m) = true → V = d ∨ V = 1 →
  ∃ rows, mapM (λ row, expand_list row d) m = Some rows ∧ length rows = length m
          ∧ Forall (λ row, length row = d) rows.
Proof.
  simpl. intros Hwf Hd. induction m as [|row m IH]; simpl.
  - by exists [].
  - simpl in Hwf. apply andb_prop in Hwf as [Hr%Nat.eqb_eq Hm].
    destruct (IH Hm) as (rows & -> & Hl & Hall). simpl.
    destruct Hd as [<-| ->].
    + rewrite (expand_list_len row V) by done. simpl.
      eexists. split; [done|]. split; [simpl; lia|]. constructor; [lia|done].
    + destruct row as [|x [|??]]; simplify_eq/=.
      rewrite expand_list_singleton. simpl.
      eexists. split; [done|]. split; [simpl; lia|].
      constructor; [by rewrite length_replicate|done].
Qed.

Lemma broadcast_dim_Some (V K d : nat) :
  broadcast_dim V K = Some d ↔ (V = K ∨ V = 1 ∨ K = 1) ∧ d = (if V =? 1 then K else V).
Proof.
  unfold broadcast_dim.
  destruct (Nat.eqb_spec V K), (Nat.eqb_spec V 1), (Nat.eqb_spec K 1);
    (split; [intros ?; simplify_eq; split; lia
            |intros [? ?]; simplify_eq; first [done | f_equal; lia | lia]]).
Qed.

(** The quotient of numerators [K]-by-[V] and [K] denominators has a value
    exactly when the two shapes broadcast, and then it has [K] rows. *)
Lemma tdiv_stats_shape (K V : nat) (num denom : Tensor E) :
  discrete_stats K V num denom →
  match tdiv num denom with
  | Some q => (V = K ∨ V = 1 ∨ K = 1) ∧ shape q = [K; if V =? 1 then K else V]
  | None => ¬ (V = K ∨ V = 1 ∨ K = 1)
  end.
Proof.
  intros (Hsn & Hwf & Hsd).
  destruct num as [|?|V' m]; try done. simpl in Hsn. injection Hsn as HK HV.
  destruct denom as [|dv|]; try done. simpl in Hsd. injection Hsd as Hlen.
  subst V' K. unfold tdiv, binop, broadcast_shapes. simpl. rewrite Hlen.
  destruct (broadcast_dim V (length m)) as [d|] eqn:Hd; simpl.
  2:{ intros Hc. assert (is_Some (broadcast_dim V (length m))) as [? ?]; [|congruence].
      eexists. apply broadcast_dim_Some. split; [exact Hc|reflexivity]. }
  apply broadcast_dim_Some in Hd as [Hc ->].
  set (d := if V =? 1 then length m else V).
  assert (Hvd : V = d ∨ V = 1).
  { subst d. destruct (V =? 1) eqn:H; [apply Nat.eqb_eq in H|]; auto. }
  destruct (expand_rows_Some V d m Hwf Hvd) as (rows & -> & Hl & Hall). simpl.
  rewrite (expand_list_len rows (length m)) by lia. simpl.
  assert (Hden : ∃ drow, expand_list dv d = Some drow) .
  { subst d. destruct (V =? 1) eqn:H1; [rewrite <- Hlen, expand_list_same; eauto|].
    apply Nat.eqb_neq in H1.
    destruct Hc as [->|[?|Hk]]; [rewrite <- Hlen, expand_list_same; eauto|done|].
    rewrite <- Hlen in Hk.
    destruct dv as [|x [|??]]; simplify_eq/=.
    rewrite expand_list_singleton. eauto. }
  destruct Hden as [drow ->]. simpl. split; [done|].
  rewrite length_zip_with, length_replicate. f_equal. lia.
Qed.
End ApplyShape.


(** X1: [Discrete.apply] on statistics of the proper shape returns exactly
    when the number of symbols equals the number of states or one of the two
    is 1; for any other pair of sizes the division raises. *)
Theorem Discrete_apply_returns_iff {E} `{!DType E} (σ : list (Tensor E))
    (h : Discrete.head) (u : Stats) (K V : nat) (num denom : Tensor E) :
  stats_at σ u num denom → discrete_stats K V num denom →
  is_Some (σ !! Discrete.probabilities h) →
  is_Some (Discrete.apply h u σ) ↔ V = K ∨ V = 1 ∨ K = 1.
Proof.
  intros Hu Hs [P HP]. rewrite (apply_run σ h u num denom Hu).
  pose proof (tdiv_stats_shape K V num denom Hs) as Hq.
  destruct (tdiv num denom) as [q|].
  - destruct Hq as [Hc _]. split; [done|]. intros _.
    erewrite store_Some by done. eauto.
  - split; [by intros [? ?]|done].
Qed.

Lemma Discrete_apply_returns_iff_witness :
  is_Some (Discrete.apply Ex.disc Ex2.counted Ex2.counted_store) ↔ 2 = 2 ∨ 2 = 1 ∨ 2 = 1.
Proof.
  apply (Discrete_apply_returns_iff Ex2.counted_store Ex.disc Ex2.counted 2 2
           (Mat 2 [[Ex.F 2; Ex.F 0]; [Ex.F 1; Ex.F 0]]) (Vec [Ex.F 2; Ex.F 1])).
  - exists 1, 2. repeat split; reflexivity.
  - repeat split; reflexivity.
  - eexists. reflexivity.
Defined.

(** X2: when [Discrete.apply] returns, only the parameter tensor has changed,
    and the new table has as many rows as states and, per row, as many
    entries as symbols, except that a table with one symbol gets one entry
    per state: [set_] takes the shape of the quotient, whatever shape the
    table had. *)
Theorem Discrete_apply_table_shape {E} `{!DType E} (σ σ' : list (Tensor E))
    (h : Discrete.head) (u : Stats) (K V : nat) (num denom : Tensor E) :
  stats_at σ u num denom → discrete_stats K V num denom →
  Discrete.apply h u σ = Some (tt, σ') →
  (∃ q, σ' !! Discrete.probabilities h = Some q
        ∧ shape q = [K; if V =? 1 then K else V])
  ∧ (∀ l, l ≠ Discrete.probabilities h → σ' !! l = σ !! l).
Proof.
  intros Hu Hs Hrun.
  destruct (apply_quotient σ h u num denom σ' Hu Hrun) as (q & Hq & -> & Hlk).
  pose proof (tdiv_stats_shape K V num denom Hs) as Hsh. rewrite Hq in Hsh.
  split; [exists q; split; [done|apply Hsh]|].
  intros l Hl. by rewrite list_lookup_insert_ne.
Qed.

Lemma Discrete_apply_table_shape_witness :
  (∃ q, [Mat 2 [[Ex.half; Ex.F 1]; [Ex.F 1; Ex.F 2]];
         Mat 1 [[Ex.F 1]; [Ex.F 2]]; Vec [Ex.F 2; Ex.F 1]]
          !! Discrete.probabilities Ex.disc = Some q
        ∧ shape q = [2; 2])
  ∧ (∀ l, l ≠ Discrete.probabilities Ex.disc →
       [Mat 2 [[Ex.half; Ex.F 1]; [Ex.F 1; Ex.F 2]];
        Mat 1 [[Ex.F 1]; [Ex.F 2]]; Vec [Ex.F 2; Ex.F 1]] !! l
       = [Mat 1 [[Ex.F 0]; [Ex.F 0]];
          Mat 1 [[Ex.F 1]; [Ex.F 2]]; Vec [Ex.F 2; Ex.F 1]] !! l).
Proof.
  apply (Discrete_apply_table_shape
           [Mat 1 [[Ex.F 0]; [Ex.F 0]]; Mat 1 [[Ex.F 1]; [Ex.F 2]]; Vec [Ex.F 2; Ex.F 1]]
           [Mat 2 [[Ex.half; Ex.F 1]; [Ex.F 1; Ex.F 2]];
            Mat 1 [[Ex.F 1]; [Ex.F 2]]; Vec [Ex.F 2; Ex.F 1]]
           Ex.disc Ex2.counted 2 1
           (Mat 1 [[Ex.F 1]; [Ex.F 2]]) (Vec [Ex.F 2; Ex.F 1])).
  - exists 1, 2. repeat split; reflexivity.
  - repeat split; reflexivity.
  - reflexivity.
Defined.

Section ApplyValues.
Context {E : Type} `{!DType E}.

Lemma tdiv_single (V : nat) (row : list E) (d : E) :
  length row = V →
  tdiv (Mat V [row]) (Vec [d]) = Some (Mat V [(λ x, e_div x d) <$> row]).
Proof.
  intros Hl. unfold tdiv, binop, broadcast_shapes. simpl.
  assert (Hd : broadcast_dim V 1 = Some V).
  { apply broadcast_dim_Some. split; [auto|].
    destruct (Nat.eqb_spec V 1); congruence. }
  rewrite Hd. simpl. rewrite (expand_list_len row V Hl). simpl.
  rewrite expand_list_singleton. simpl. do 3 f_equal.
  by rewrite zip_with_replicate_r_eq.
Qed.
End ApplyValues.

(** X3: for a head with one state [Discrete.apply] divides the numerators of
    the state by its denominator: the new table is the one row
    [num[0][v] / denom[0]]. *)
Theorem Discrete_apply_single_state {E} `{!DType E} (σ σ' : list (Tensor E))
    (h : Discrete.head) (u : Stats) (row : list E) (d : E) :
  stats_at σ u (Mat (length row) [row]) (Vec [d]) →
  Discrete.apply h u σ = Some (tt, σ') →
  σ' !! Discrete.probabilities h
  = Some (Mat (length row) [(λ x, e_div x d) <$> row]).
Proof.
  intros Hu Hrun.
  destruct (apply_quotient σ h u _ _ σ' Hu Hrun) as (q & Hq & _ & Hlk).
  rewrite tdiv_single in Hq by done. by simplify_eq.
Qed.

Lemma Discrete_apply_single_state_witness :
  [Mat 2 [[f32_div (Ex.F 1) (Ex.F 4); f32_div (Ex.F 3) (Ex.F 4)]];
   Mat 2 [[Ex.F 1; Ex.F 3]]; Vec [Ex.F 4]] !! Discrete.probabilities Ex.disc
  = Some (Mat (length [Ex.F 1; Ex.F 3]) [(λ x, e_div x (Ex.F 4)) <$> [Ex.F 1; Ex.F 3]]).
Proof.
  apply (Discrete_apply_single_state Ex2.one_store
           [Mat 2 [[f32_div (Ex.F 1) (Ex.F 4); f32_div (Ex.F 3) (Ex.F 4)]];
            Mat 2 [[Ex.F 1; Ex.F 3]]; Vec [Ex.F 4]]
           Ex.disc Ex.single_update [Ex.F 1; Ex.F 3] (Ex.F 4)).
  - exists 1, 2. repeat split; reflexivity.
  - reflexivity.
Defined.

(** X4: for a head with as many symbols as states [Discrete.apply] divides
    entry (k, v) of the numerators by the denominator of state [v], the
    column, not by that of state [k]. *)
Theorem Discrete_apply_square_table {E} `{!DType E} (σ σ' : list (Tensor E))
    (h : Discrete.head) (u : Stats) (num : list (list E)) (denom : list E) :
  stats_at σ u (Mat (length denom) num) (Vec denom) →
  wf (Mat (length denom) num) = true → length num = length denom →
  Discrete.apply h u σ = Some (tt, σ') →
  ∃ q, σ' !! Discrete.probabilities h = Some q
       ∧ ∀ k v row x dv,
           num !! k = Some row → row !! v = Some x → denom !! v = Some dv →
           entry q k v = Some (e_div x dv).
Proof.
  intros Hu Hwf Hlen Hrun.
  destruct (apply_quotient σ h u _ _ σ' Hu Hrun) as (q & Hq & _ & Hlk).
  rewrite tdiv_square in Hq by done. simplify_eq.
  eexists. split; [done|]. intros k v row x dv Hrow Hx Hdv. simpl.
  rewrite list_lookup_fmap, Hrow. simpl.
  by rewrite lookup_zip_with, Hx, Hdv.
Qed.

Lemma Discrete_apply_square_table_witness :
  ∃ q, [Mat 2 [[Ex.F 1; Ex.F 0]; [Ex.half; Ex.F 0]];
        Mat 2 [[Ex.F 2; Ex.F 0]; [Ex.F 1; Ex.F 0]]; Vec [Ex.F 2; Ex.F 1]]
         !! Discrete.probabilities Ex.disc = Some q
       ∧ ∀ k v row x dv,
           [[Ex.F 2; Ex.F 0]; [Ex.F 1; Ex.F 0]] !! k = Some row →
           row !! v = Some x → [Ex.F 2; Ex.F 1] !! v = Some dv →
           entry q k v = Some (e_div x dv).
Proof.
  apply (Discrete_apply_square_table Ex2.counted_store
           [Mat 2 [[Ex.F 1; Ex.F 0]; [Ex.half; Ex.F 0]];
            Mat 2 [[Ex.F 2; Ex.F 0]; [Ex.F 1; Ex.F 0]]; Vec [Ex.F 2; Ex.F 1]]
           Ex.disc Ex2.counted
           [[Ex.F 2; Ex.F 0]; [Ex.F 1; Ex.F 0]] [Ex.F 2; Ex.F 1]).
  - exists 1, 2. repeat split; reflexivity.
  - reflexivity.
  - reflexivity.
  - reflexivity.
Defined.

(** ** Discrete.__init__: the rows of a new table *)

Section DiscreteInit.
Context {E : Type} `{!DType E} `{!Reduce E}.

Lemma imap_replicate_seq {A B} (f : nat → B) (n : nat) (z : A) :
  imap (λ i _, f i) (replicate n z) = f <$> seq 0 n.
Proof.
  apply list_eq. intros i. rewrite list_lookup_imap, list_lookup_fmap.
  destruct (decide (i < n)) as [Hi|Hi].
  - by rewrite lookup_replicate_2, lookup_seq_lt.
  - rewrite lookup_seq_ge by lia.
    assert (replicate n z !! i = None) as ->; [|done].
    apply lookup_replicate_None. lia.
Qed.

(** A table divided in place by a column of one value per row: every row is
    divided by its own value. *)
Lemma idiv_by_column (V : nat) (D : list (list E)) (S : list E) :
  Forall (λ row, length row = V) D → length S = length D →
  Discrete.idiv (Mat V D) (Mat 1 ((λ s, [s]) <$> S))
  = Some (Mat V (zip_with (λ row s, (λ x, e_div x s) <$> row) D S)).
Proof.
  intros HD HS. unfold Discrete.idiv. simpl.
  assert (Hrows : mapM (λ row : list E, expand_list row V) ((λ s, [s]) <$> S)
                  = Some (replicate V <$> S)).
  { apply mapM_Some. apply Forall2_fmap, Forall_Forall2_diag.
    apply Forall_forall. intros s _. apply expand_list_singleton. }
  rewrite Hrows. simpl.
  rewrite expand_list_len by by rewrite length_fmap. simpl. do 2 f_equal.
  rewrite zip_with_fmap_r. clear Hrows. revert S HS.
  induction HD as [|row D Hrow _ IH]; intros [|s S] HS; simplify_eq/=; [done|].
  f_equal; [|by apply IH]. by apply zip_with_replicate_r_eq.
Qed.

Lemma sum_last_keepdim_column (V : nat) (D : list (list E)) :
  Discrete.sum_last_keepdim (Mat V D)
  = Some (Mat 1 ((λ s, [s]) <$> imap (e_sum (-1) (Mat V D)) D)).
Proof.
  simpl. do 2 f_equal. apply list_eq. intros i.
  rewrite list_lookup_fmap, !list_lookup_imap. by destruct (D !! i).
Qed.
End DiscreteInit.

(** X5: [Discrete.__init__] always returns; the table it leaves has one row
    per state and one entry per symbol, and every row is the row of uniform
    draws divided by a sum of that same row, added in the order that the
    kernel takes ([sum(-1, keepdim=True)] keeps the state axis, so the
    division is per row). *)
Theorem Discrete_init_normalises_rows {E} `{!DType E} `{!Reduce E} `{!ReduceSums E}
    (K V : nat) (uniform : nat → nat → E) (σ : list (Tensor E)) :
  ∃ sums : list E,
    Discrete.__init__ K V uniform σ
    = Some ({| Discrete.probabilities := length σ |},
            σ ++ [Mat V (zip_with (λ row s, (λ x, e_div x s) <$> row)
                           ((λ k, uniform k <$> seq 0 V) <$> seq 0 K) sums)])
    ∧ length sums = K
    ∧ ∀ k s, sums !! k = Some s → sums_to (uniform k <$> seq 0 V) s.
Proof.
  set (D := (λ k, uniform k <$> seq 0 V) <$> seq 0 K).
  exists (imap (e_sum (-1) (Mat V D)) D). split; [|split].
  - unfold Discrete.__init__. unfold bind at 1, alloc at 1.
    unfold Discrete.reset_parameters. cbn [Discrete.probabilities].
    rewrite (bind_Some _ _ _ tt
               (σ ++ [Mat V (zip_with (λ row s, (λ x, e_div x s) <$> row) D
                               (imap (e_sum (-1) (Mat V D)) D))])); [done|].
    rewrite (bind_Some _ _ _ _ _ (load_Some _ _ _ (lookup_snoc _ _))).
    rewrite imap_replicate_seq. fold D.
    rewrite (bind_Some _ _ _ (Mat V D)
               (σ ++ [Mat V (replicate K (replicate V e_zero))])) by done.
    rewrite (bind_Some _ _ _ tt (σ ++ [Mat V D])).
    2:{ erewrite store_Some by apply lookup_snoc.
        by rewrite insert_app_r_alt, Nat.sub_diag. }
    erewrite bind_Some; [|apply lift_Some, sum_last_keepdim_column].
    erewrite bind_Some.
    2:{ apply lift_Some, idiv_by_column.
        - apply Forall_fmap, Forall_forall. intros k _. simpl.
          by rewrite length_fmap, length_seq.
        - by rewrite length_imap. }
    erewrite store_Some by apply lookup_snoc.
    by rewrite insert_app_r_alt, Nat.sub_diag.
  - unfold D. by rewrite length_imap, length_fmap, length_seq.
  - intros k s Hs. rewrite list_lookup_imap in Hs. unfold D in Hs at 2.
    rewrite list_lookup_fmap in Hs.
    destruct (seq 0 K !! k) as [k'|] eqn:Hk; [|done].
    apply lookup_seq in Hk as [-> _]. simpl in Hs. injection Hs as <-.
    apply e_sum_sums.
Qed.

Lemma Discrete_init_normalises_rows_witness :
  ∃ sums : list float32,
    Discrete.__init__ 1 2 (λ _ v, Ex.F (Z.of_nat v + 1)) []
    = Some ({| Discrete.probabilities := length ([] : list (Tensor float32)) |},
            [] ++ [Mat 2 (zip_with (λ row s, (λ x, e_div x s) <$> row)
                           ((λ k, (λ v, Ex.F (Z.of_nat v + 1)) <$> seq 0 2) <$> seq 0 1)
                           sums)])
    ∧ length sums = 1
    ∧ ∀ k s, sums !! k = Some s
             → sums_to ((λ v, Ex.F (Z.of_nat v + 1)) <$> seq 0 2) s.
Proof.
  apply (Discrete_init_normalises_rows 1 2 (λ _ v, Ex.F (Z.of_nat v + 1)) []).
Defined.

(** ** Discrete.maximize: new tensors, and symbols out of range *)

Section MaximizeFresh.
Context {E : Type} `{!DType E} `{!Reduce E}.
Implicit Types (σ : list (Tensor E)) (h : Discrete.head).

(** A call that returns has allocated the two tensors of the record behind
    the tensors that existed. *)
Lemma maximize_inv σ σ' h (data : list Z) (gamma : Tensor E) (r : Stats) :
  Discrete.maximize h data gamma σ = Some (r, σ') →
  ∃ n d, r = {[ "num" := length σ; "denom" := S (length σ) ]} ∧ σ' = σ ++ [n; d].
Proof.
  unfold Discrete.maximize, Discrete.num_states, bind, lift, load, alloc, store, ret.
  destruct (t_ gamma) as [gamma_|]; [|done].
  destruct (σ !! Discrete.probabilities h) as [P|] eqn:HP; [|done].
  destruct (size0 P) as [k|]; [|done].
  rewrite HP, lookup_snoc.
  destruct (scatter_add_1 _ _ _ _) as [num1|]; [|done].
  rewrite decide_True by (rewrite length_app; simpl; lia).
  destruct (sum0 gamma) as [d|]; [|done].
  intros [= <- <-]. exists num1, d.
  rewrite length_insert, length_app, insert_app_r_alt, Nat.sub_diag by done.
  simpl. rewrite Nat.add_1_r, <- (assoc_L (++)). done.
Qed.
End MaximizeFresh.

(** X6: the record that [Discrete.maximize] returns holds two tensors that
    did not exist before the call: it shares no tensor with any record made
    earlier, every earlier tensor keeps its value, and two calls in a row
    return records that share no tensor, so that merging them with [update]
    does not add a tensor to itself. *)
Theorem Discrete_maximize_returns_new_tensors {E} `{!DType E} `{!Reduce E}
    (σ σ1 σ2 : list (Tensor E)) (h : Discrete.head) (data1 data2 : list Z)
    (gamma1 gamma2 : Tensor E) (r1 r2 : Stats) :
  Discrete.maximize h data1 gamma1 σ = Some (r1, σ1) →
  Discrete.maximize h data2 gamma2 σ1 = Some (r2, σ2) →
  separate r1 r2
  ∧ (∀ u : Stats, (∀ i l, u !! i = Some l → l < length σ) → separate r1 u)
  ∧ (∀ l t, σ !! l = Some t → σ1 !! l = Some t)
  ∧ (∀ n d, stats_at σ1 r1 n d → stats_at σ2 r1 n d).
Proof.
  intros (n1 & d1 & -> & ->)%maximize_inv (n2 & d2 & -> & ->)%maximize_inv.
  rewrite length_app. simpl.
  split; [|split; [|split]].
  - intros i j l l'.
    intros [[_ <-]|[_ [_ <-]%lookup_singleton_Some]]%lookup_insert_Some
           [[_ <-]|[_ [_ <-]%lookup_singleton_Some]]%lookup_insert_Some; lia.
  - intros u Hu i j l l'.
    intros [[_ <-]|[_ [_ <-]%lookup_singleton_Some]]%lookup_insert_Some Hj;
      specialize (Hu j l' Hj); lia.
  - intros l t Hl. by apply lookup_app_l_Some.
  - intros n d (ln & ld & Hn & Hd & Hln & Hld). exists ln, ld.
    repeat split; try done; by apply lookup_app_l_Some.
Qed.

Lemma Discrete_maximize_returns_new_tensors_witness :
  separate ({[ "num" := 1; "denom" := 2 ]} : Stats) {[ "num" := 3; "denom" := 4 ]}.
Proof.
  refine (proj1 (Discrete_maximize_returns_new_tensors
            Ex.disc_store
            (Ex.disc_store ++ [Mat 2 [[Ex.F 2; Ex.F 0]; [Ex.F 1; Ex.F 0]]; Vec [Ex.F 2; Ex.F 1]])
            (Ex.disc_store ++ [Mat 2 [[Ex.F 2; Ex.F 0]; [Ex.F 1; Ex.F 0]]; Vec [Ex.F 2; Ex.F 1];
                               Mat 2 [[Ex.F 1; Ex.F 0]; [Ex.F 0; Ex.F 0]]; Vec [Ex.F 1; Ex.F 0]])
            Ex.disc Ex.disc_data [0]%Z Ex.disc_gamma (Mat 2 [[Ex.F 1; Ex.F 0]])
            {[ "num" := 1; "denom" := 2 ]} {[ "num" := 3; "denom" := 4 ]} _ _)).
  - reflexivity.
  - reflexivity.
Defined.

(** X7: [Discrete.maximize] raises when a symbol is outside [0, V), negative
    symbols included ([scatter_add_] takes no negative index), for every head
    with at least one state and whatever the responsibilities are. *)
Theorem Discrete_maximize_symbol_out_of_range {E} `{!DType E} `{!Reduce E}
    (σ : list (Tensor E)) (h : Discrete.head) (V : nat) (mp : list (list E))
    (data : list Z) (gamma : Tensor E) (z : Z) :
  σ !! Discrete.probabilities h = Some (Mat V mp) → mp ≠ [] →
  z ∈ data → ¬ (0 ≤ z < Z.of_nat V)%Z →
  Discrete.maximize h data gamma σ = None.
Proof.
  intros HP Hmp Hz Hrange.
  unfold Discrete.maximize, Discrete.num_states, bind, lift, load, alloc.
  destruct (t_ gamma) as [gamma_|]; [|done].
  rewrite HP. cbn [size0]. cbv beta. rewrite HP, lookup_snoc.
  assert (Hsc : scatter_add_1 (zeros_like (Mat V mp)) (length data)
                  (replicate (length mp) data) gamma_ = None); [|by rewrite Hsc].
  unfold scatter_add_1. rewrite length_replicate.
  destruct (length mp * length data =? 0) eqn:Hz0.
  { apply Nat.eqb_eq in Hz0.
    destruct mp as [|? ?]; [done|].
    destruct data as [|? ?]; [by apply elem_of_nil in Hz|].
    simpl in Hz0. lia. }
  simpl. destruct gamma_ as [| |cs ms]; try done.
  rewrite decide_False; [done|].
  intros (_ & _ & _ & Hall).
  destruct mp as [|row mp]; [done|]. simpl in Hall.
  apply Forall_cons in Hall as [Hd _].
  rewrite Forall_forall in Hd. by apply Hrange, Hd.
Qed.

Lemma Discrete_maximize_symbol_out_of_range_witness :
  Discrete.maximize Ex.disc [0; -1]%Z
    (Mat 2 [[Ex.F 1; Ex.F 0]; [Ex.F 0; Ex.F 1]]) Ex.disc_store = None.
Proof.
  apply (Discrete_maximize_symbol_out_of_range Ex.disc_store Ex.disc 2
           [[Ex.half; Ex.half]; [Ex.F 1; Ex.F 0]] [0; -1]%Z _ (-1)%Z).
  - reflexivity.
  - discriminate.
  - right. left.
  - lia.
Defined.

(** ** Discrete.evaluate: the lookup handed to normalize *)

Section EvaluateLookup.
Context {E : Type} `{!DType E} (U : Utils E).
Implicit Types (σ : list (Tensor E)) (h : Discrete.head).

Lemma Discrete_evaluate_value h (data : list Z) σ :
  out_value (Discrete.evaluate U h data) σ
  = (P ← σ !! Discrete.probabilities h; Pt ← t_ P;
     probs ← tindex Pt data; normalize U probs).
Proof.
  unfold out_value. rewrite Discrete_evaluate_run.
  destruct (σ !! Discrete.probabilities h) as [P|]; [simpl|done].
  destruct (t_ P) as [Pt|]; [simpl|done].
  destruct (tindex Pt data) as [probs|]; [simpl|done].
  destruct (normalize U probs); [|done]. apply lookup_snoc.
Qed.

Lemma mbind_Some {A B} (x : A) (f : A → option B) : Some x ≫= f = f x.
Proof. reflexivity. Qed.

Lemma resp_of_state_lookup (m : list (list E)) (j k : nat) :
  Forall (λ row, j < length row) m →
  resp_of_state m j !! k = (row ← m !! k; row !! j).
Proof.
  unfold resp_of_state. intros Hm. revert k.
  induction Hm as [|row m Hj _ IH]; intros k; [done|].
  destruct (lookup_lt_is_Some_2 row j Hj) as [x Hx].
  cbn. rewrite Hx. cbn. destruct k as [|k]; cbn; [done|apply IH].
Qed.

Lemma py_index_mod (V : nat) (z : Z) :
  (- Z.of_nat V ≤ z < Z.of_nat V)%Z →
  py_index V z = Some (Z.to_nat (z mod Z.of_nat V)).
Proof.
  intros Hz. unfold py_index.
  destruct (decide (0 ≤ z < Z.of_nat V)%Z) as [Hp|Hn].
  - by rewrite Z.mod_small.
  - rewrite decide_True by lia. do 2 f_equal.
    rewrite <- (Z.mod_add z 1) by lia. rewrite Z.mod_small; lia.
Qed.

Lemma py_index_None (V : nat) (z : Z) :
  ¬ (- Z.of_nat V ≤ z < Z.of_nat V)%Z → py_index V z = None.
Proof.
  intros Hz. unfold py_index. rewrite !decide_False by lia. done.
Qed.

Lemma py_index_lt (V : nat) (z : Z) (j : nat) : py_index V z = Some j → j < V.
Proof.
  unfold py_index. repeat case_decide; intros; simplify_eq; lia.
Qed.

Lemma transpose_wf (V : nat) (m : list (list E)) :
  wf (Mat V m) = true →
  t_ (Mat V m) = Some (Mat (length m) (resp_of_state m <$> seq 0 V))
  ∧ Forall (λ row, length row = V) m.
Proof.
  simpl. intros Hwf.
  assert (Hall : Forall (λ row : list E, length row = V) m).
  { apply Forall_forall. intros row Hin.
    rewrite forallb_forall in Hwf. apply Nat.eqb_eq, Hwf. by apply list_elem_of_In. }
  split; [|done]. by rewrite (columns_resp m V Hall).
Qed.
End EvaluateLookup.

(** X8: [Discrete.evaluate] hands to [normalize] the matrix with one row per
    item and one entry per state, the entry of item [n] and state [k] being
    the table entry of state [k] and symbol [data[n]]; a negative symbol
    counts from the last one.  What [evaluate] returns is what [normalize]
    makes of that matrix. *)
Theorem Discrete_evaluate_looks_up_symbols {E} `{!DType E} (U : Utils E)
    (σ : list (Tensor E)) (h : Discrete.head) (V : nat) (m : list (list E))
    (data : list Z) :
  σ !! Discrete.probabilities h = Some (Mat V m) → wf (Mat V m) = true →
  Forall (λ z, - Z.of_nat V ≤ z < Z.of_nat V)%Z data →
  ∃ probs,
    out_value (Discrete.evaluate U h data) σ = normalize U (Mat (length m) probs)
    ∧ length probs = length data
    ∧ ∀ n z k, data !! n = Some z →
        entry (Mat (length m) probs) n k
        = entry (Mat V m) k (Z.to_nat (z mod Z.of_nat V)).
Proof.
  intros HP Hwf Hdata.
  destruct (transpose_wf V m Hwf) as [Ht Hall].
  exists ((λ z, resp_of_state m (Z.to_nat (z mod Z.of_nat V))) <$> data).
  split; [|split].
  - rewrite Discrete_evaluate_value, HP, mbind_Some, Ht, mbind_Some.
    cbn [tindex]. rewrite length_fmap, length_seq.
    assert (Hsel : mapM (λ i, j ← py_index V i; (resp_of_state m <$> seq 0 V) !! j) data
                   = Some ((λ z, resp_of_state m (Z.to_nat (z mod Z.of_nat V))) <$> data)).
    { apply mapM_Some, Forall2_fmap_r, Forall_Forall2_diag.
      eapply Forall_impl; [exact Hdata|]. simpl. intros z Hz.
      rewrite (py_index_mod V z Hz). simpl.
      rewrite list_lookup_fmap, lookup_seq_lt; [done|].
      pose proof (Z.mod_pos_bound z (Z.of_nat V)). lia. }
    by rewrite Hsel.
  - by rewrite length_fmap.
  - intros n z k Hn. simpl. rewrite list_lookup_fmap, Hn. simpl.
    apply resp_of_state_lookup.
    eapply Forall_impl; [exact Hall|]. simpl. intros row ->.
    apply Forall_forall with (x := z) in Hdata; [|by eapply list_elem_of_lookup_2].
    pose proof (Z.mod_pos_bound z (Z.of_nat V)). lia.
Qed.

Lemma Discrete_evaluate_looks_up_symbols_witness :
  ∃ probs,
    out_value (Discrete.evaluate Ex.U Ex.disc [0; -1]%Z) Ex.disc_store
    = normalize Ex.U (Mat (length [[Ex.half; Ex.half]; [Ex.F 1; Ex.F 0]]) probs)
    ∧ length probs = length [0; -1]%Z
    ∧ ∀ n z k, [0; -1]%Z !! n = Some z →
        entry (Mat (length [[Ex.half; Ex.half]; [Ex.F 1; Ex.F 0]]) probs) n k
        = entry (Mat 2 [[Ex.half; Ex.half]; [Ex.F 1; Ex.F 0]]) k
            (Z.to_nat (z mod Z.of_nat 2)).
Proof.
  apply (Discrete_evaluate_looks_up_symbols Ex.U Ex.disc_store Ex.disc 2
           [[Ex.half; Ex.half]; [Ex.F 1; Ex.F 0]] [0; -1]%Z).
  - reflexivity.
  - reflexivity.
  - repeat constructor; lia.
Defined.

(** X9: [Discrete.evaluate] raises when a symbol is outside [-V, V), for
    every table with [V] symbols per state. *)
Theorem Discrete_evaluate_symbol_out_of_range {E} `{!DType E} (U : Utils E)
    (σ : list (Tensor E)) (h : Discrete.head) (V : nat) (m : list (list E))
    (data : list Z) (z : Z) :
  σ !! Discrete.probabilities h = Some (Mat V m) → wf (Mat V m) = true →
  z ∈ data → ¬ (- Z.of_nat V ≤ z < Z.of_nat V)%Z →
  Discrete.evaluate U h data σ = None.
Proof.
  intros HP Hwf Hz Hrange.
  destruct (transpose_wf V m Hwf) as [Ht _].
  rewrite Discrete_evaluate_run, HP, Ht, mbind_Some.
  cbn [tindex]. rewrite length_fmap, length_seq.
  destruct (mapM _ data) as [sel|] eqn:Hsel; [|done].
  apply mapM_Some in Hsel.
  apply list_elem_of_lookup in Hz as [n Hn].
  destruct (Forall2_lookup_l _ _ _ _ _ Hsel Hn) as (row & _ & Hrow).
  by rewrite (py_index_None V z Hrange) in Hrow.
Qed.

Lemma Discrete_evaluate_symbol_out_of_range_witness :
  Discrete.evaluate Ex.U Ex.disc [0; 2]%Z Ex.disc_store = None.
Proof.
  apply (Discrete_evaluate_symbol_out_of_range Ex.U Ex.disc_store Ex.disc 2
           [[Ex.half; Ex.half]; [Ex.F 1; Ex.F 0]] [0; 2]%Z 2%Z).
  - reflexivity.
  - reflexivity.
  - right. left.
  - lia.
Defined.

(** ** Gaussian.evaluate: shape of the result, densities and log-densities *)

Section GaussianEvaluate.
Context {E : Type} `{!DType E} (U : Utils E).
Implicit Types (σ : list (Tensor E)) (h : Gaussian.head).

Lemma chunks_length (r c : nat) (l : list E) : length (chunks r c l) = r.
Proof. revert l. induction r as [|r IH]; intros l; simpl; [done|by rewrite IH]. Qed.

Lemma view_shape (t t' : Tensor E) (s : list nat) :
  view t s = Some t' → shape t' = s.
Proof.
  unfold view. destruct s as [|n [|c [|??]]]; try done.
  - destruct (flatten t) as [|x [|??]]; try done. by intros [= <-].
  - destruct (length (flatten t) =? n) eqn:Hn; [|done].
    apply Nat.eqb_eq in Hn. intros [= <-]. simpl. by rewrite Hn.
  - destruct (length (flatten t) =? n * c); [|done].
    intros [= <-]. simpl. by rewrite chunks_length.
Qed.

Lemma tmap_shape (f : E → E) (t : Tensor E) : shape (tmap f t) = shape t.
Proof. destruct t; simpl; by rewrite ?length_fmap. Qed.

(** The value that [evaluate] returns, as a function of the values of the
    parameters. *)
Lemma Gaussian_evaluate_value h (data : Tensor E) (log : bool) σ :
  out_value (Gaussian.evaluate U h data log) σ
  = (d ← last (shape data);
     flat ← (if d =? 0 then None else view data [length (flatten data) / d; d]);
     m ← σ !! Gaussian.means h; c ← σ !! Gaussian.covars h;
     probabilities ← log_normal U flat m c;
     k ← size0 m;
     result ← view probabilities (removelast (shape data) ++ [k]);
     Some (if log then result else tmap (e_exp U) result)).
Proof.
  unfold out_value, Gaussian.evaluate, Gaussian.num_components, bind, load, lift, alloc.
  destruct (last (shape data)) as [d|]; [|reflexivity].
  rewrite mbind_Some.
  destruct (if d =? 0 then None else view data [length (flatten data) / d; d])
    as [flat|]; [|reflexivity].
  rewrite mbind_Some.
  destruct (σ !! Gaussian.means h) as [m|] eqn:Hm; [|reflexivity].
  rewrite mbind_Some.
  destruct (σ !! Gaussian.covars h) as [c|]; [|reflexivity].
  rewrite mbind_Some.
  destruct (log_normal U flat m c) as [p|]; [|reflexivity].
  rewrite mbind_Some, Hm.
  destruct (size0 m) as [k|]; [|reflexivity].
  rewrite mbind_Some.
  destruct (view p (removelast (shape data) ++ [k])) as [result|]; [|reflexivity].
  rewrite mbind_Some. destruct log; apply lookup_snoc.
Qed.
End GaussianEvaluate.

(** X10: the densities are the exponentials of the log-densities:
    [evaluate(data)] returns, entry by entry, [exp] of what
    [evaluate(data, log=True)] returns on the same parameters, and raises
    exactly when that call raises. *)
Theorem Gaussian_evaluate_exp_of_log {E} `{!DType E} (U : Utils E)
    (h : Gaussian.head) (data : Tensor E) (σ σ' : list (Tensor E)) :
  σ !! Gaussian.means h = σ' !! Gaussian.means h →
  σ !! Gaussian.covars h = σ' !! Gaussian.covars h →
  out_value (Gaussian.evaluate U h data false) σ'
  = tmap (e_exp U) <$> out_value (Gaussian.evaluate U h data true) σ.
Proof.
  intros Hm Hc. rewrite !Gaussian_evaluate_value, Hm, Hc.
  destruct (last (shape data)) as [d|]; [|reflexivity].
  rewrite !mbind_Some.
  destruct (if d =? 0 then None else view data [length (flatten data) / d; d])
    as [flat|]; [|reflexivity].
  rewrite !mbind_Some.
  destruct (σ' !! Gaussian.means h) as [m|]; [|reflexivity].
  rewrite !mbind_Some.
  destruct (σ' !! Gaussian.covars h) as [c|]; [|reflexivity].
  rewrite !mbind_Some.
  destruct (log_normal U flat m c) as [p|]; [|reflexivity].
  rewrite !mbind_Some.
  destruct (size0 m) as [k|]; [|reflexivity].
  rewrite !mbind_Some.
  by destruct (view p (removelast (shape data) ++ [k])).
Qed.

Lemma Gaussian_evaluate_exp_of_log_witness :
  out_value (Gaussian.evaluate Ex.U Ex.gauss (Mat 1 [[Ex.F 3]]) false)
    (Ex.gauss_store ++ [Mat 1 [[Ex.F 3]]])
  = tmap (e_exp Ex.U)
      <$> out_value (Gaussian.evaluate Ex.U Ex.gauss (Mat 1 [[Ex.F 3]]) true) Ex.gauss_store.
Proof.
  apply (Gaussian_evaluate_exp_of_log Ex.U Ex.gauss (Mat 1 [[Ex.F 3]])); reflexivity.
Defined.

(** X11: when [Gaussian.evaluate] returns, the result has the shape of the
    data with the last size, the features, replaced by the number of
    components. *)
Theorem Gaussian_evaluate_result_shape {E} `{!DType E} (U : Utils E)
    (h : Gaussian.head) (data : Tensor E) (log : bool) (σ : list (Tensor E))
    (m out : Tensor E) (K : nat) :
  σ !! Gaussian.means h = Some m → size0 m = Some K →
  out_value (Gaussian.evaluate U h data log) σ = Some out →
  shape out = removelast (shape data) ++ [K].
Proof.
  intros Hm HK. rewrite Gaussian_evaluate_value, Hm.
  destruct (last (shape data)) as [d|]; [|done].
  rewrite mbind_Some.
  destruct (if d =? 0 then None else view data [length (flatten data) / d; d])
    as [flat|]; [|done].
  rewrite !mbind_Some.
  destruct (σ !! Gaussian.covars h) as [c|]; [|done].
  rewrite mbind_Some.
  destruct (log_normal U flat m c) as [p|]; [|done].
  rewrite mbind_Some, HK, mbind_Some.
  destruct (view p (removelast (shape data) ++ [K])) as [result|] eqn:Hv; [|done].
  rewrite mbind_Some. intros [= <-].
  apply view_shape in Hv. destruct log; [done|by rewrite tmap_shape].
Qed.

Lemma Gaussian_evaluate_result_shape_witness :
  shape (Mat 1 [[Ex.F 3]; [Ex.F 4]] : Tensor float32)
  = removelast (shape (Mat 1 [[Ex.F 3]; [Ex.F 4]] : Tensor float32)) ++ [1].
Proof.
  apply (Gaussian_evaluate_result_shape Ex.U Ex.gauss (Mat 1 [[Ex.F 3]; [Ex.F 4]]) false
           Ex.gauss_store (Mat 1 [[Ex.F 0]]) (Mat 1 [[Ex.F 3]; [Ex.F 4]]) 1);
    reflexivity.
Defined.

(** ** Gaussian: the covariance of a new head, and component indices *)

Lemma f32_scale_identity (D : nat) :
  tmap (e_mul (e_one : float32)) (identity D) = identity D.
Proof.
  unfold identity, diag_matrix, tmap. f_equal.
  apply list_eq. intros i. rewrite list_lookup_fmap, !list_lookup_imap.
  destruct (replicate D e_one !! i) as [x|] eqn:Hx; [|done]. simpl.
  apply lookup_replicate_1 in Hx as [-> _]. f_equal.
  unfold diag_row. rewrite list_fmap_insert, fmap_replicate. done.
Qed.

Lemma covars_init_lookup {E} `{!DType E} (cov : string) (K D i : nat) :
  cov ≠ "diag" → cov ≠ "diag-shared" →
  i < (if String.eqb cov "spherical" then K else D) →
  ∃ v, covars_init cov K D = Vec v ∧ v !! i = Some (e_one : E).
Proof.
  intros Hd%String.eqb_neq _ Hi. unfold covars_init. rewrite Hd.
  destruct (String.eqb cov "spherical"); eexists; (split; [done|]);
    by apply lookup_replicate_2.
Qed.

(** X12: a new Gaussian head has unit covariances: for every covariance name
    [_get_full_covariance_matrix(i)] of the head that [__init__] returns is
    the identity matrix, for every component [i] of a 'diag' or 'spherical'
    head, for every [i] at all of a 'diag-shared' head, and for every [i]
    below the number of features for any other name. *)
Theorem Gaussian_init_identity_covariance (K D i : nat) (cov : string)
    (normal : nat → nat → float32) (σ σ' : list (Tensor float32)) (h : Gaussian.head) :
  Gaussian.__init__ K D cov normal σ = Some (h, σ') →
  cov = "diag-shared"
  ∨ i < (if String.eqb cov "diag" || String.eqb cov "spherical" then K else D) →
  Gaussian._get_full_covariance_matrix h (Z.of_nat i) σ' = Some (identity D, σ').
Proof.
  rewrite Gaussian_init_spec. intros [= <- <-] Hi.
  set (σ' := σ ++ [means_init normal K D; covars_init cov K D]).
  assert (Hm : σ' !! length σ = Some (means_init normal K D)).
  { subst σ'. by rewrite lookup_app_r, Nat.sub_diag. }
  assert (Hc : σ' !! S (length σ) = Some (covars_init cov K D)).
  { subst σ'. rewrite lookup_app_r by lia.
    by replace (S (length σ) - length σ) with 1 by lia. }
  destruct (decide (cov = "diag-shared")) as [->|Hns].
  { by erewrite get_full_diag_shared; [|reflexivity|exact Hc]. }
  destruct Hi as [?|Hi]; [done|].
  destruct (decide (cov = "diag")) as [->|Hnd].
  { simpl in Hi.
    erewrite get_full_diag; [done|reflexivity|exact Hc|].
    by apply lookup_replicate_2. }
  assert (Hd : String.eqb cov "diag" = false) by by apply String.eqb_neq.
  rewrite Hd in Hi. simpl in Hi.
  destruct (covars_init_lookup (E:=float32) cov K D i Hnd Hns Hi) as (v & Hv & Hvi).
  rewrite Hv in Hc.
  erewrite get_full_other; [|exact Hnd|exact Hns|exact Hc|exact Hm|exact Hvi].
  by rewrite f32_scale_identity.
Qed.

Lemma Gaussian_init_identity_covariance_witness :
  Gaussian._get_full_covariance_matrix
    {| Gaussian.covariance := "spherical"; Gaussian.means := 0; Gaussian.covars := 1 |}
    (Z.of_nat 1)
    [Mat 2 [[Ex.F 0; Ex.F 0]; [Ex.F 0; Ex.F 0]]; Vec [Ex.F 1; Ex.F 1]]
  = Some (identity 2,
          [Mat 2 [[Ex.F 0; Ex.F 0]; [Ex.F 0; Ex.F 0]]; Vec [Ex.F 1; Ex.F 1]]).
Proof.
  apply (Gaussian_init_identity_covariance 2 2 1 "spherical" (λ _ _, Ex.F 0) []).
  - reflexivity.
  - right. simpl. lia.
Defined.

(** X13: except for 'diag-shared', [_get_full_covariance_matrix(i)] raises
    when [i] is not an index of the first axis of the covariance tensor, of
    size [n]: outside [-n, n).  For a name other than 'diag' and 'spherical'
    that axis is the features, so a component [i] at or above the number of
    features raises whatever the number of components is. *)
Theorem Gaussian_full_covariance_index_error {E} `{!DType E} (h : Gaussian.head)
    (σ : list (Tensor E)) (c : Tensor E) (n : nat) (i : Z) :
  Gaussian.covariance h ≠ "diag-shared" →
  σ !! Gaussian.covars h = Some c → size0 c = Some n →
  ¬ (- Z.of_nat n ≤ i < Z.of_nat n)%Z →
  Gaussian._get_full_covariance_matrix h i σ = None.
Proof.
  intros Hs%String.eqb_neq Hc Hn Hi.
  unfold Gaussian._get_full_covariance_matrix.
  rewrite (bind_Some _ _ σ _ σ (load_Some _ _ _ Hc)), Hs.
  assert (Hg : tget c i = None).
  { destruct c as [|v|? m]; simplify_eq/=; by rewrite py_index_None. }
  destruct (String.eqb (Gaussian.covariance h) "diag");
    unfold bind, lift; by rewrite Hg.
Qed.

Lemma Gaussian_full_covariance_index_error_witness :
  Gaussian._get_full_covariance_matrix
    {| Gaussian.covariance := "full"; Gaussian.means := 0; Gaussian.covars := 1 |} 2
    [Mat 2 [[Ex.F 0; Ex.F 0]; [Ex.F 0; Ex.F 0]; [Ex.F 0; Ex.F 0]]; Vec [Ex.F 1; Ex.F 1]]
  = None.
Proof.
  apply (Gaussian_full_covariance_index_error _ _ (Vec [Ex.F 1; Ex.F 1]) 2 2).
  - discriminate.
  - reflexivity.
  - reflexivity.
  - lia.
Defined.

(** ** Records with a missing key *)

Section MissingKey.
Context {E : Type} `{!DType E} `{!Reduce E}.
Implicit Types (σ : list (Tensor E)) (u v : Stats).

Lemma update_current_missing_key u (prev : option Stats) σ :
  u !! "num" = None ∨ u !! "denom" = None → Discrete.update u prev σ = None.
Proof.
  unfold Discrete.update, bind, lift.
  intros [->| ->]; [done|]. by destruct (u !! "num").
Qed.

Lemma update_previous_missing_key u v σ :
  u !! "num" = None ∨ u !! "denom" = None → Discrete.update v (Some u) σ = None.
Proof.
  intros Hu. unfold Discrete.update.
  unfold bind at 1, lift at 1. destruct (v !! "num") as [ln|]; [|done].
  unfold bind at 1, lift at 1. destruct (v !! "denom") as [ld|]; [|done].
  unfold bind at 1.
  assert (Hin : (let* pnum := lift (u !! "num") in
                 Discrete.iadd_ ln pnum;;;
                 let* pdenom := lift (u !! "denom") in Discrete.iadd_ ld pdenom) σ
                = (None : option (unit * list (Tensor E)))); [|by rewrite Hin].
  unfold bind at 1, lift at 1. destruct Hu as [->| ->]; [done|].
  destruct (u !! "num") as [pn|]; [|done].
  unfold bind at 1. destruct (Discrete.iadd_ ln pn σ) as [[[] σ1]|]; [|done].
  reflexivity.
Qed.

Lemma apply_missing_key (h : Discrete.head) u σ :
  u !! "num" = None ∨ u !! "denom" = None → Discrete.apply h u σ = None.
Proof.
  unfold Discrete.apply, bind, lift, load. intros [->| ->]; [done|].
  destruct (u !! "num") as [ln|]; [|done]. by destruct (σ !! ln).
Qed.

Lemma Gaussian_maximize_inv (U : Utils E) (h : Gaussian.head)
    (sequences gamma : Tensor E) σ σ' (r : Stats) :
  Gaussian.maximize U h sequences gamma σ = Some (r, σ') →
  ∃ denom m c,
    sum0 gamma = Some denom
    ∧ max_likeli_means U sequences gamma denom = Some m
    ∧ max_likeli_covars U sequences gamma denom m (Gaussian.covariance h) = Some c
    ∧ r = {[ "means" := length σ; "covars" := S (length σ) ]}
    ∧ σ' = σ ++ [m; c].
Proof.
  unfold Gaussian.maximize, bind, lift, alloc, ret.
  destruct (sum0 gamma) as [denom|] eqn:Hd; [|done].
  destruct (max_likeli_means U sequences gamma denom) as [m|] eqn:Hm; [|done].
  destruct (max_likeli_covars U sequences gamma denom m _) as [c|] eqn:Hc; [|done].
  intros [= <- <-]. exists denom, m, c.
  split; [done|]. split; [done|]. split; [done|]. split.
  - by rewrite length_app, Nat.add_1_r.
  - by rewrite <- (assoc_L (++)).
Qed.
End MissingKey.

(** X14: [Gaussian.maximize] leaves every tensor that existed, the means and
    covariances of the head among them, and returns a record with the keys
    'means' and 'covars', which name two different tensors that did not
    exist before.  The record has no key 'num': [Discrete.update], with it as
    either argument, and [Discrete.apply] raise on it. *)
Theorem Gaussian_maximize_record {E} `{!DType E} `{!Reduce E} (U : Utils E)
    (h : Gaussian.head) (sequences gamma : Tensor E) (σ σ' : list (Tensor E))
    (r : Stats) :
  Gaussian.maximize U h sequences gamma σ = Some (r, σ') →
  (∀ l t, σ !! l = Some t → σ' !! l = Some t)
  ∧ (∃ lm lc : nat,
       r !! "means" = Some lm ∧ r !! "covars" = Some lc ∧ lm ≠ lc
       ∧ σ !! lm = None ∧ σ !! lc = None
       ∧ is_Some (σ' !! lm) ∧ is_Some (σ' !! lc))
  ∧ (∀ (prev : option Stats) (cur : Stats) (hd : Discrete.head) (σ0 : list (Tensor E)),
       Discrete.update r prev σ0 = None
       ∧ Discrete.update cur (Some r) σ0 = None
       ∧ Discrete.apply hd r σ0 = None).
Proof.
  intros (denom & m & c & Hd & Hm & Hc & -> & ->)%Gaussian_maximize_inv.
  assert (Hk : ({[ "means" := length σ; "covars" := S (length σ) ]} : Stats) !! "num" = None)
    by by simplify_map_eq.
  split; [|split].
  - intros l t Hl. by apply lookup_app_l_Some.
  - exists (length σ), (S (length σ)). split; [by simplify_map_eq|].
    split; [by simplify_map_eq|]. split; [lia|].
    split; [apply lookup_ge_None; lia|]. split; [apply lookup_ge_None; lia|].
    split; apply lookup_lt_is_Some; rewrite length_app; simpl; lia.
  - intros prev cur hd σ0. split; [|split].
    + apply update_current_missing_key. by left.
    + apply update_previous_missing_key. by left.
    + apply apply_missing_key. by left.
Qed.

Lemma Gaussian_maximize_record_witness :
  Discrete.update ({[ "means" := 4; "covars" := 5 ]} : Stats) None
    (Ex.gauss_store ++ [Vec [Ex.F 2]; Vec [Ex.F 2]]) = None.
Proof.
  refine (proj1 (proj2 (proj2 (Gaussian_maximize_record Ex.U Ex.gauss
            (Mat 1 [[Ex.F 3]; [Ex.F 4]]) (Mat 1 [[Ex.F 1]; [Ex.F 1]])
            Ex.gauss_store (Ex.gauss_store ++ [Vec [Ex.F 2]; Vec [Ex.F 2]])
            {[ "means" := 4; "covars" := 5 ]} _)) None ∅ Ex.disc _)).
  reflexivity.
Defined.

(** ** Markov chain: the inferred number of states of nested data *)

(** Induction on [SequenceData] with the entries of a dataset. *)
Lemma SequenceData_nested_ind (P : MarkovChain.SequenceData → Prop) :
  (∀ dt a, P (MarkovChain.NdArray dt a)) →
  (∀ dt a, P (MarkovChain.TorchTensor dt a)) →
  (∀ entries, Forall P entries → P (MarkovChain.Dataset entries)) →
  ∀ data, P data.
Proof.
  intros Ha Ht Hd. fix IH 1. intros [dt a|dt a|entries].
  - apply Ha.
  - apply Ht.
  - apply Hd. induction entries as [|entry entries IHe]; constructor.
    + apply IH.
    + apply IHe.
Qed.

Lemma get_num_states_dataset_inv (entries : list MarkovChain.SequenceData) (K : Z) :
  MarkovChain._get_num_states (MarkovChain.Dataset entries) = Some K →
  ∃ ks, Forall2 (λ e k, MarkovChain._get_num_states e = Some k) entries ks
        ∧ MarkovChain.maximum ks = Some K.
Proof.
  simpl.
  match goal with |- mbind _ ?e = _ → _ => destruct e as [ks|] eqn:He end; [|done].
  simpl. intros HK. exists ks. split; [|done].
  clear HK. revert ks He.
  induction entries as [|entry entries IH]; intros ks.
  - by intros [= <-].
  - destruct (MarkovChain._get_num_states entry) as [k|] eqn:Hk; [|done].
    match goal with |- match ?e with _ => _ end = _ → _ =>
      destruct e as [ks'|] eqn:He' end; [|done].
    intros [= <-]. constructor; [done|by apply IH].
Qed.

Lemma maximum_Some_is_max (l : list Z) (m : Z) :
  MarkovChain.maximum l = Some m → is_max m l.
Proof.
  intros Hm. destruct (maximum_is_max l) as (m' & Hm' & Hmax).
  { by intros ->. }
  congruence.
Qed.

Lemma all_states_dataset (entries : list MarkovChain.SequenceData) (x : Z) :
  x ∈ all_states (MarkovChain.Dataset entries)
  ↔ ∃ entry, entry ∈ entries ∧ x ∈ all_states entry.
Proof.
  simpl. induction entries as [|e entries IH].
  - split; [by intros ?%elem_of_nil|by intros (? & ?%elem_of_nil & _)].
  - rewrite elem_of_app, IH. split.
    + intros [Hx|(e' & He' & Hx)]; [exists e; split; [left|done]|].
      exists e'. split; [by right|done].
    + intros (e' & [->|He']%elem_of_cons & Hx); [by left|].
      right. by exists e'.
Qed.

Lemma no_overflow_dataset (entries : list MarkovChain.SequenceData) :
  no_overflow (MarkovChain.Dataset entries) ↔ Forall no_overflow entries.
Proof.
  simpl. induction entries as [|e entries IH]; [by split|].
  rewrite IH, Forall_cons. done.
Qed.

(** X15: whenever [_get_num_states] returns [K] for data, nested to any
    depth, in which no array holds 2^63 - 1, every state in the data is below
    [K] and the state [K - 1] occurs in the data. *)
Theorem get_num_states_bounds_all_states (data : MarkovChain.SequenceData) (K : Z) :
  no_overflow data →
  MarkovChain._get_num_states data = Some K →
  (K - 1)%Z ∈ all_states data ∧ Forall (λ x, x < K)%Z (all_states data).
Proof.
  revert K. induction data as [dt a|dt a|entries IH] using SequenceData_nested_ind;
    intros K Hno.
  - destruct dt; [|done]. simpl.
    destruct (MarkovChain.maximum a) as [m|] eqn:Hm; [|done]. simpl.
    apply maximum_Some_is_max in Hm as [Hin Hle].
    assert (Hw : MarkovChain.wrap64 (m + 1) = (m + 1)%Z).
    { apply wrap64_small. simpl in Hno. rewrite Forall_forall in Hno.
      specialize (Hno m Hin). unfold MarkovChain.int64_min, MarkovChain.int64_max in *.
      lia. }
    rewrite Hw. intros [= <-]. split.
    + by replace (m + 1 - 1)%Z with m by lia.
    + eapply Forall_impl; [exact Hle|]. simpl. lia.
  - destruct dt; [|done]. simpl.
    destruct (MarkovChain.maximum a) as [m|] eqn:Hm; [|done]. simpl.
    apply maximum_Some_is_max in Hm as [Hin Hle]. intros [= <-]. split.
    + by replace (m + 1 - 1)%Z with m by lia.
    + eapply Forall_impl; [exact Hle|]. simpl. lia.
  - intros (ks & Hks & [Hin Hle]%maximum_Some_is_max)%get_num_states_dataset_inv.
    apply no_overflow_dataset in Hno.
    split.
    + apply list_elem_of_lookup in Hin as [j Hj].
      destruct (Forall2_lookup_r _ _ _ _ _ Hks Hj) as (e & He & Hek).
      apply all_states_dataset. exists e. split; [by eapply list_elem_of_lookup_2|].
      rewrite Forall_forall in IH. rewrite Forall_forall in Hno.
      apply (IH e); [by eapply list_elem_of_lookup_2| |done].
      apply Hno. by eapply list_elem_of_lookup_2.
    + apply Forall_forall. intros x (e & He & Hx)%all_states_dataset.
      apply list_elem_of_lookup in He as [j Hj].
      destruct (Forall2_lookup_l _ _ _ _ _ Hks Hj) as (k & Hk & Hek).
      rewrite Forall_forall in IH. rewrite Forall_forall in Hno.
      rewrite Forall_forall in Hle.
      assert (He : e ∈ entries) by by eapply list_elem_of_lookup_2.
      destruct (IH e He k (Hno e He) Hek) as [_ Hall].
      rewrite Forall_forall in Hall. specialize (Hall x Hx).
      specialize (Hle k (list_elem_of_lookup_2 _ _ _ Hk)). lia.
Qed.

Lemma get_num_states_bounds_all_states_witness :
  (3 - 1)%Z ∈ [0; 1; 2; 0]%Z ∧ Forall (λ x, x < 3)%Z [0; 1; 2; 0]%Z.
Proof.
  apply (get_num_states_bounds_all_states
           (MarkovChain.Dataset
              [MarkovChain.TorchTensor MarkovChain.int64 [0; 1]%Z;
               MarkovChain.Dataset [MarkovChain.NdArray MarkovChain.int64 [2; 0]%Z]]) 3).
  - simpl. repeat split. repeat constructor; vm_compute; congruence.
  - reflexivity.
Defined.

(** X16: [_get_num_states] returns exactly on int64 arrays and tensors that
    are not empty and on datasets that are not empty and yield only such
    data; on an empty array, another dtype, an empty dataset or a dataset
    with one such entry at any depth it raises. *)
Theorem get_num_states_returns_iff (data : MarkovChain.SequenceData) :
  is_Some (MarkovChain._get_num_states data) ↔ inferable data = true.
Proof.
  induction data as [dt a|dt a|entries IH] using SequenceData_nested_ind.
  - destruct dt, a; simpl; split; try done; by intros [? ?].
  - destruct dt, a; simpl; split; try done; by intros [? ?].
  - destruct entries as [|e0 entries0]; [simpl; split; [by intros [? ?]|done]|].
    set (entries := e0 :: entries0) in *.
    assert (Heach : ∀ l : list MarkovChain.SequenceData,
              Forall (λ e, is_Some (MarkovChain._get_num_states e) ↔ inferable e = true) l →
              (∃ ks, Forall2 (λ e k, MarkovChain._get_num_states e = Some k) l ks)
              ↔ (fix go (l : list MarkovChain.SequenceData) : bool :=
                   match l with
                   | [] => true
                   | entry :: l' => inferable entry && go l'
                   end) l = true).
    { induction 1 as [|e l He _ IHl]; simpl.
      - split; [done|]. intros _. exists []. constructor.
      - rewrite andb_true_iff, <- He, <- IHl. split.
        + intros (ks & Hks). apply Forall2_cons_inv_l in Hks as (k & ks' & Hk & Hks' & ->).
          split; [by exists k|by exists ks'].
        + intros [[k Hk] [ks Hks]]. exists (k :: ks). by constructor. }
    change (inferable (MarkovChain.Dataset entries) = true)
      with ((fix go (l : list MarkovChain.SequenceData) : bool :=
               match l with
               | [] => true
               | entry :: l' => inferable entry && go l'
               end) entries = true).
    rewrite <- (Heach entries IH). split.
    + intros [K (ks & Hks & _)%get_num_states_dataset_inv]. by exists ks.
    + intros [ks Hks]. rewrite (get_num_states_dataset _ _ Hks).
      destruct (maximum_is_max ks) as (K & HK & _); [|by exists K].
      intros ->. subst entries. by apply Forall2_nil_inv_r in Hks.
Qed.

Lemma get_num_states_returns_iff_witness :
  MarkovChain._get_num_states
    (MarkovChain.Dataset
       [MarkovChain.TorchTensor MarkovChain.int64 [0; 1]%Z;
        MarkovChain.Dataset [MarkovChain.NdArray MarkovChain.int64 []]]) = None.
Proof.
  apply eq_None_not_Some.
  rewrite (get_num_states_returns_iff _). discriminate.
Defined.

(** ** Discrete: merged statistics and the statistics of the joined batch *)

Lemma resp_of_symbol_app {A} (d1 d2 : list Z) (g1 g2 : list (list A)) (k v : nat) :
  length g1 = length d1 →
  resp_of_symbol (d1 ++ d2) (g1 ++ g2) k v
  = resp_of_symbol d1 g1 k v ++ resp_of_symbol d2 g2 k v.
Proof.
  intros Hl. unfold resp_of_symbol.
  rewrite zip_with_app by done. apply omap_app.
Qed.

Lemma resp_of_state_app {A} (g1 g2 : list (list A)) (k : nat) :
  resp_of_state (g1 ++ g2) k = resp_of_state g1 k ++ resp_of_state g2 k.
Proof. apply omap_app. Qed.

(** Adding [x] to the term of index [j] adds [x] to the total. *)
Lemma total_bump (f : nat → Z) (x : Z) (j : nat) (l : list nat) :
  NoDup l →
  total ((λ v, if decide (j = v) then x + f v else f v)%Z <$> l)
  = if decide (j ∈ l) then (x + total (f <$> l))%Z else total (f <$> l).
Proof.
  unfold total. induction 1 as [|v l Hv Hnd IH]; [done|].
  rewrite !fmap_cons. simpl. rewrite IH.
  destruct (decide (j = v)) as [->|Hne].
  - rewrite decide_False by done. rewrite decide_True by left. lia.
  - destruct (decide (j ∈ l)) as [Hin|Hnin].
    + rewrite decide_True by by right. lia.
    + rewrite decide_False; [done|]. by intros [?|?]%elem_of_cons.
Qed.

(** The totals per symbol add up to the total over all items. *)
Lemma total_by_symbol (data : list Z) (g : list (list Z)) (k V : nat) :
  Forall (λ z, 0 ≤ z < Z.of_nat V)%Z data →
  length g = length data →
  Forall (λ row, k < length row) g →
  total ((λ v, total (resp_of_symbol data g k v)) <$> seq 0 V)
  = total (resp_of_state g k).
Proof.
  intros Hd. revert g. induction Hd as [|d data Hd0 _ IH]; intros g Hl Hg.
  - destruct g; [|done]. unfold resp_of_symbol, resp_of_state. simpl.
    generalize (seq 0 V). intros l. induction l as [|v l IHl]; [done|].
    rewrite fmap_cons. unfold total in *. simpl. by rewrite IHl.
  - destruct Hg as [|row g Hk Hg]; [done|].
    destruct (lookup_lt_is_Some_2 row k Hk) as [x Hx].
    assert (Hst : resp_of_state (row :: g) k = x :: resp_of_state g k).
    { unfold resp_of_state. cbn. by rewrite Hx. }
    rewrite Hst. change (total (x :: resp_of_state g k))
      with (x + total (resp_of_state g k))%Z.
    rewrite <- (IH g) by (simpl in Hl; done || lia).
    assert (Hsym : ∀ v, total (resp_of_symbol (d :: data) (row :: g) k v)
              = if decide (Z.to_nat d = v)
                then (x + total (resp_of_symbol data g k v))%Z
                else total (resp_of_symbol data g k v)).
    { intros v. unfold resp_of_symbol. cbn.
      destruct (decide (d = Z.of_nat v)) as [->|Hne].
      - rewrite decide_True by lia. by rewrite Hx.
      - by rewrite decide_False by lia. }
    erewrite list_fmap_ext; [|intros ? v _; apply Hsym].
    rewrite (total_bump _ x (Z.to_nat d)) by apply NoDup_seq.
    rewrite decide_True; [done|]. apply elem_of_seq. lia.
Qed.

Section Batches.
Context {E : Type} `{!DType E} `{!Reduce E} `{!ReduceSums E}.
Implicit Types (σ : list (Tensor E)) (h : Discrete.head).

(** The values that [maximize] returns for a batch that fits the head. *)
Lemma maximize_values σ h (K V : nat) (mp : list (list E)) (data : list Z)
    (gamma : list (list E)) :
  σ !! Discrete.probabilities h = Some (Mat V mp) → length mp = K →
  Forall (λ z, 0 ≤ z < Z.of_nat V)%Z data →
  length gamma = length data →
  Forall (λ row, length row = K) gamma →
  ∃ num denom,
    Discrete.maximize h data (Mat K gamma) σ
    = Some ({[ "num" := length σ; "denom" := S (length σ) ]}, σ ++ [num; denom])
    ∧ discrete_stats K V num denom
    ∧ (∀ k v, k < K → v < V →
         entry num k v = Some (sum_in_order (resp_of_symbol data gamma k v)))
    ∧ (∀ k, k < K →
         ∃ d, tget denom (Z.of_nat k) = Some (Scal d)
              ∧ sums_to (resp_of_state gamma k) d).
Proof.
  intros HP Hmp Hdata Hlen Hg.
  destruct (maximize_run σ h K V mp data gamma HP Hmp Hdata Hlen Hg)
    as (num & Hrun & Hnl & Hnum).
  eexists (Mat V num), (Vec _). split; [exact Hrun|].
  split; [|split].
  - split; [|split]; simpl.
    + by rewrite Hnl.
    + apply forallb_forall. intros row Hin.
      apply list_elem_of_In, list_elem_of_lookup in Hin as [k Hk].
      pose proof (lookup_lt_Some _ _ _ Hk) as Hlt. rewrite Hnl in Hlt.
      rewrite (Hnum k Hlt) in Hk. simplify_eq.
      apply Nat.eqb_eq. by rewrite scatter_add_row_length, length_replicate.
    + by rewrite length_fmap, length_seq.
  - intros k v Hk Hv. simpl. rewrite (Hnum k Hk). simpl.
    rewrite (scatter_add_row_lookup _ _ _ v e_zero) by by apply lookup_replicate_2.
    rewrite selected_resp; [done| |].
    + eapply Forall_impl; [exact Hdata|]. simpl. lia.
    + eapply Forall_impl; [exact Hg|]. simpl. intros row ->. lia.
  - intros k Hk. eexists. split; [|apply e_sum_sums]. simpl.
    rewrite py_index_nat by by rewrite length_fmap, length_seq.
    simpl. by rewrite list_lookup_fmap, lookup_seq_lt.
Qed.

(** The same for responsibilities in an exact range: the statistics are the
    sums themselves. *)
Lemma maximize_exact σ h (K V : nat) (mp : list (list E)) (data : list Z)
    (ι : Z → E) (B : Z) (g : list (list Z)) :
  ExactRange ι B →
  σ !! Discrete.probabilities h = Some (Mat V mp) → length mp = K →
  Forall (λ z, 0 ≤ z < Z.of_nat V)%Z data →
  length g = length data →
  Forall (λ row, length row = K) g →
  Forall (Forall (λ z, 0 ≤ z)%Z) g →
  (∀ k, k < K → (total (resp_of_state g k) ≤ B)%Z) →
  ∃ num denom,
    Discrete.maximize h data (Mat K ((λ row : list Z, ι <$> row) <$> g)) σ
    = Some ({[ "num" := length σ; "denom" := S (length σ) ]}, σ ++ [num; denom])
    ∧ discrete_stats K V num denom
    ∧ (∀ k v, k < K → v < V →
         entry num k v = Some (ι (total (resp_of_symbol data g k v))))
    ∧ (∀ k, k < K →
         tget denom (Z.of_nat k) = Some (Scal (ι (total (resp_of_state g k))))).
Proof.
  intros HX HP Hmp Hdata Hlen Hg Hnn HB.
  destruct (maximize_values σ h K V mp data ((λ row : list Z, ι <$> row) <$> g))
    as (num & denom & Hrun & Hs & Hn & Hdn); try done.
  { by rewrite length_fmap. }
  { apply Forall_fmap. eapply Forall_impl; [exact Hg|]. simpl. intros row <-.
    by rewrite length_fmap. }
  exists num, denom. split; [done|]. split; [done|]. split.
  - intros k v Hk Hv. rewrite (Hn k v Hk Hv). f_equal.
    destruct (resp_of_symbol_part data g k v Hnn) as [Hnn' Hle].
    specialize (HB k Hk).
    eapply (sums_to_exact ι B); [done|apply sums_to_in_order| |done|lia].
    apply resp_of_symbol_fmap.
  - intros k Hk. destruct (Hdn k Hk) as (d & -> & Hd). do 2 f_equal.
    eapply (sums_to_exact ι B); [done|exact Hd| |by apply resp_of_state_nonneg|by apply HB].
    apply resp_of_state_fmap.
Qed.

Lemma entry_tadd (a b : Tensor E) (k v : nat) (x y : E) :
  entry a k v = Some x → entry b k v = Some y →
  entry (tadd a b) k v = Some (e_add x y).
Proof.
  destruct a as [| |c m], b as [| |c' m']; try done. simpl.
  intros Hx Hy. rewrite lookup_zip_with.
  destruct (m !! k) as [row|]; [|done]. destruct (m' !! k) as [row'|]; [|done].
  simpl in *. by rewrite lookup_zip_with, Hx, Hy.
Qed.

Lemma tget_tadd (a b : Tensor E) (k : nat) (x y : E) :
  shape a = shape b →
  tget a (Z.of_nat k) = Some (Scal x) → tget b (Z.of_nat k) = Some (Scal y) →
  tget (tadd a b) (Z.of_nat k) = Some (Scal (e_add x y)).
Proof.
  destruct a as [|u|], b as [|w|]; try done; simpl.
  - intros [= Hl]. destruct (decide (k < length u)) as [Hk|Hk].
    + rewrite !py_index_nat by (rewrite ?length_zip_with; lia). simpl.
      rewrite lookup_zip_with.
      destruct (u !! k); [|done]. destruct (w !! k); [|done]. simpl.
      by intros [= ->] [= ->].
    + rewrite (py_index_None (length u)) by lia. done.
  - intros _. destruct (py_index _ _); [|done]. simpl. by destruct (_ !! _).
Qed.
End Batches.

(** X17: merging is unbiased where the additions are exact.  For two batches
    that fit the head, with responsibilities in an exact range of the element
    type whose totals per state stay in the range, the record that [update]
    returns for the statistics of the second batch merged with those of the
    first and the record that [maximize] returns for the two batches joined
    into one hold the same values: the sums over the joined batch, whatever
    order of additions the kernel takes. *)
Theorem Discrete_merge_equals_joined_batch {E} `{!DType E} `{!Reduce E}
    `{!ReduceSums E} (σ : list (Tensor E)) (h : Discrete.head) (K V : nat)
    (mp : list (list E)) (data1 data2 : list Z) (ι : Z → E) (B : Z)
    (g1 g2 : list (list Z)) :
  ExactRange ι B →
  σ !! Discrete.probabilities h = Some (Mat V mp) → length mp = K →
  Forall (λ z, 0 ≤ z < Z.of_nat V)%Z data1 → length g1 = length data1 →
  Forall (λ row, length row = K) g1 → Forall (Forall (λ z, 0 ≤ z)%Z) g1 →
  Forall (λ z, 0 ≤ z < Z.of_nat V)%Z data2 → length g2 = length data2 →
  Forall (λ row, length row = K) g2 → Forall (Forall (λ z, 0 ≤ z)%Z) g2 →
  (∀ k, k < K → (total (resp_of_state (g1 ++ g2) k) ≤ B)%Z) →
  ∃ n d n' d',
    yields (let* r1 := Discrete.maximize h data1
                         (Mat K ((λ row : list Z, ι <$> row) <$> g1)) in
            let* r2 := Discrete.maximize h data2
                         (Mat K ((λ row : list Z, ι <$> row) <$> g2)) in
            Discrete.update r2 (Some r1)) σ n d
    ∧ yields (Discrete.maximize h (data1 ++ data2)
                (Mat K ((λ row : list Z, ι <$> row) <$> (g1 ++ g2)))) σ n' d'
    ∧ discrete_stats K V n d ∧ discrete_stats K V n' d'
    ∧ (∀ k v, k < K → v < V →
         entry n k v
         = Some (ι (total (resp_of_symbol (data1 ++ data2) (g1 ++ g2) k v)))
         ∧ entry n' k v = entry n k v)
    ∧ (∀ k, k < K →
         tget d (Z.of_nat k)
         = Some (Scal (ι (total (resp_of_state (g1 ++ g2) k))))
         ∧ tget d' (Z.of_nat k) = tget d (Z.of_nat k)).
Proof.
  intros HX HP Hmp Hd1 Hl1 Hg1 Hnn1 Hd2 Hl2 Hg2 Hnn2 HB.
  assert (HB12 : ∀ k, k < K →
            (0 ≤ total (resp_of_state g1 k))%Z ∧ (0 ≤ total (resp_of_state g2 k))%Z
            ∧ (total (resp_of_state g1 k) + total (resp_of_state g2 k) ≤ B)%Z).
  { intros k Hk. specialize (HB k Hk).
    rewrite resp_of_state_app, total_app in HB.
    pose proof (total_nonneg _ (resp_of_state_nonneg g1 k Hnn1)).
    pose proof (total_nonneg _ (resp_of_state_nonneg g2 k Hnn2)). lia. }
  destruct (maximize_exact σ h K V mp data1 ι B g1) as (n1 & dn1 & Hrun1 & Hs1 & Hn1 & Hdn1);
    try done.
  { intros k Hk. destruct (HB12 k Hk) as (? & ? & ?). lia. }
  set (σ1 := σ ++ [n1; dn1]) in *.
  assert (HP1 : σ1 !! Discrete.probabilities h = Some (Mat V mp))
    by by apply lookup_app_l_Some.
  destruct (maximize_exact σ1 h K V mp data2 ι B g2) as (n2 & dn2 & Hrun2 & Hs2 & Hn2 & Hdn2);
    try done.
  { intros k Hk. destruct (HB12 k Hk) as (? & ? & ?). lia. }
  set (σ2 := σ1 ++ [n2; dn2]) in *.
  assert (Hr2 : stats_at σ2 {[ "num" := length σ1; "denom" := S (length σ1) ]} n2 dn2).
  { exists (length σ1), (S (length σ1)).
    rewrite stats_lookup_num, stats_lookup_denom. subst σ2. repeat split.
    - by rewrite lookup_app_r, Nat.sub_diag.
    - rewrite lookup_app_r by lia. by replace (S (length σ1) - length σ1) with 1 by lia. }
  assert (Hr1 : stats_at σ2 {[ "num" := length σ; "denom" := S (length σ) ]} n1 dn1).
  { exists (length σ), (S (length σ)).
    rewrite stats_lookup_num, stats_lookup_denom. subst σ2 σ1. repeat split.
    - apply lookup_app_l_Some. by rewrite lookup_app_r, Nat.sub_diag.
    - apply lookup_app_l_Some. rewrite lookup_app_r by lia.
      by replace (S (length σ) - length σ) with 1 by lia. }
  destruct (update_step σ2 _ _ K V n2 dn2 n1 dn1 Hr2 Hr1 Hs2 Hs1)
    as (r & σ3 & Hup & Hrn & Hrd & Hat & Hst & _).
  destruct (maximize_exact σ h K V mp (data1 ++ data2) ι B (g1 ++ g2))
    as (n' & d' & Hrun' & Hs' & Hn' & Hdn'); try done.
  { by apply Forall_app. }
  { rewrite !length_app; lia. }
  { by apply Forall_app. }
  { by apply Forall_app. }
  exists (tadd n2 n1), (tadd dn2 dn1), n', d'.
  split; [|split; [|split; [|split; [|split]]]]; try done.
  - exists r, σ3. split; [|by eapply stats_at_same].
    by rewrite (bind_Some _ _ σ _ σ1 Hrun1), (bind_Some _ _ σ1 _ σ2 Hrun2).
  - eexists _, _. split; [exact Hrun'|].
    exists (length σ), (S (length σ)).
    rewrite stats_lookup_num, stats_lookup_denom. repeat split.
    + by rewrite lookup_app_r, Nat.sub_diag.
    + rewrite lookup_app_r by lia. by replace (S (length σ) - length σ) with 1 by lia.
  - intros k v Hk Hv.
    rewrite (entry_tadd _ _ _ _ _ _ (Hn2 k v Hk Hv) (Hn1 k v Hk Hv)).
    rewrite (Hn' k v Hk Hv).
    assert (Hsum : e_add (ι (total (resp_of_symbol data2 g2 k v)))
                     (ι (total (resp_of_symbol data1 g1 k v)))
                   = ι (total (resp_of_symbol (data1 ++ data2) (g1 ++ g2) k v))).
    { destruct (resp_of_symbol_part data1 g1 k v Hnn1) as [Hp1 Hle1].
      destruct (resp_of_symbol_part data2 g2 k v Hnn2) as [Hp2 Hle2].
      pose proof (total_nonneg _ Hp1). pose proof (total_nonneg _ Hp2).
      destruct (HB12 k Hk) as (? & ? & ?).
      rewrite resp_of_symbol_app, total_app by done.
      rewrite (exact_add ι B HX) by lia. f_equal. lia. }
    by rewrite Hsum.
  - intros k Hk.
    assert (Hsh : shape dn2 = shape dn1).
    { destruct Hs1 as (_ & _ & ->), Hs2 as (_ & _ & ->). done. }
    rewrite (tget_tadd dn2 dn1 k _ _ Hsh (Hdn2 k Hk) (Hdn1 k Hk)).
    rewrite (Hdn' k Hk).
    destruct (HB12 k Hk) as (? & ? & ?).
    rewrite resp_of_state_app, total_app.
    rewrite (exact_add ι B HX) by lia.
    by rewrite (Z.add_comm (total (resp_of_state g2 k))).
Qed.

Lemma Discrete_merge_equals_joined_batch_witness :
  ∃ n d n' d',
    yields (let* r1 := Discrete.maximize Ex.disc [0]%Z
                         (Mat 2 ((λ row : list Z, Ex.F <$> row) <$> [[1; 0]]%Z)) in
            let* r2 := Discrete.maximize Ex.disc [1]%Z
                         (Mat 2 ((λ row : list Z, Ex.F <$> row) <$> [[1; 2]]%Z)) in
            Discrete.update r2 (Some r1)) Ex.disc_store n d
    ∧ yields (Discrete.maximize Ex.disc ([0] ++ [1])%Z
                (Mat 2 ((λ row : list Z, Ex.F <$> row) <$> ([[1; 0]] ++ [[1; 2]])%Z)))
        Ex.disc_store n' d'
    ∧ discrete_stats 2 2 n d ∧ discrete_stats 2 2 n' d'
    ∧ (∀ k v, k < 2 → v < 2 →
         entry n k v
         = Some (Ex.F (total (resp_of_symbol ([0] ++ [1])%Z
                                ([[1; 0]] ++ [[1; 2]])%Z k v)))
         ∧ entry n' k v = entry n k v)
    ∧ (∀ k, k < 2 →
         tget d (Z.of_nat k)
         = Some (Scal (Ex.F (total (resp_of_state ([[1; 0]] ++ [[1; 2]])%Z k))))
         ∧ tget d' (Z.of_nat k) = tget d (Z.of_nat k)).
Proof.
  apply (Discrete_merge_equals_joined_batch Ex.disc_store Ex.disc 2 2
           [[Ex.half; Ex.half]; [Ex.F 1; Ex.F 0]] [0]%Z [1]%Z Ex.F 256
           [[1; 0]]%Z [[1; 2]]%Z).
  - exact f32_exact_range.
  - reflexivity.
  - reflexivity.
  - repeat constructor; lia.
  - reflexivity.
  - repeat constructor.
  - repeat constructor; lia.
  - repeat constructor; lia.
  - reflexivity.
  - repeat constructor.
  - repeat constructor; lia.
  - intros [|[|k]] Hk; vm_compute; (congruence || lia).
Defined.

(** X18: the numerators of a state add up to its denominator where the
    additions are exact.  In the record that [maximize] returns for a batch
    that fits the head, with responsibilities in an exact range of the
    element type whose totals per state stay in the range, the entries
    [num[k][v]] of a state [k], added over the symbols [v] in any order,
    give [denom[k]]. *)
Theorem Discrete_maximize_row_totals {E} `{!DType E} `{!Reduce E} `{!ReduceSums E}
    (σ : list (Tensor E)) (h : Discrete.head) (K V : nat) (mp : list (list E))
    (data : list Z) (ι : Z → E) (B : Z) (g : list (list Z)) :
  ExactRange ι B →
  σ !! Discrete.probabilities h = Some (Mat V mp) → length mp = K →
  Forall (λ z, 0 ≤ z < Z.of_nat V)%Z data → length g = length data →
  Forall (λ row, length row = K) g → Forall (Forall (λ z, 0 ≤ z)%Z) g →
  (∀ k, k < K → (total (resp_of_state g k) ≤ B)%Z) →
  ∃ num denom,
    yields (Discrete.maximize h data (Mat K ((λ row : list Z, ι <$> row) <$> g)))
      σ num denom
    ∧ ∀ k, k < K →
        length (omap (entry num k) (seq 0 V)) = V
        ∧ ∃ d, tget denom (Z.of_nat k) = Some (Scal d)
               ∧ ∀ s, sums_to (omap (entry num k) (seq 0 V)) s → s = d.
Proof.
  intros HX HP Hmp Hd Hl Hg Hnn HB.
  destruct (maximize_exact σ h K V mp data ι B g HX HP Hmp Hd Hl Hg Hnn HB)
    as (num & denom & Hrun & Hs & Hn & Hdn).
  exists num, denom. split.
  - eexists _, _. split; [exact Hrun|].
    exists (length σ), (S (length σ)).
    rewrite stats_lookup_num, stats_lookup_denom. repeat split.
    + by rewrite lookup_app_r, Nat.sub_diag.
    + rewrite lookup_app_r by lia. by replace (S (length σ) - length σ) with 1 by lia.
  - intros k Hk.
    assert (Hrow : omap (entry num k) (seq 0 V)
                   = ι <$> ((λ v, total (resp_of_symbol data g k v)) <$> seq 0 V)).
    { rewrite <- list_fmap_compose.
      generalize (λ v, proj1 (elem_of_seq 0 V v)).
      generalize (seq 0 V). intros l Hin. induction l as [|v l IHl]; [done|].
      cbn. rewrite (Hn k v Hk) by (destruct (Hin v); [left|lia]). cbn.
      f_equal. apply IHl. intros v' Hv'. apply Hin. by right. }
    rewrite Hrow, !length_fmap, length_seq. split; [done|].
    eexists. split; [by apply Hdn|]. intros s Hsum.
    assert (Htot : total ((λ v, total (resp_of_symbol data g k v)) <$> seq 0 V)
                   = total (resp_of_state g k)).
    { apply total_by_symbol; try done.
      eapply Forall_impl; [exact Hg|]. simpl. intros row ->. lia. }
    rewrite <- Htot.
    eapply (sums_to_exact ι B); [done|exact Hsum|done| |].
    + apply Forall_fmap, Forall_forall. intros v _. simpl.
      apply total_nonneg. by apply resp_of_symbol_part.
    + rewrite Htot. by apply HB.
Qed.

Lemma Discrete_maximize_row_totals_witness :
  ∃ num denom,
    yields (Discrete.maximize Ex.disc [0; 1; 1]%Z
              (Mat 2 ((λ row : list Z, Ex.F <$> row) <$> [[1; 0]; [1; 2]; [3; 1]]%Z)))
      Ex.disc_store num denom
    ∧ ∀ k, k < 2 →
        length (omap (entry num k) (seq 0 2)) = 2
        ∧ ∃ d, tget denom (Z.of_nat k) = Some (Scal d)
               ∧ ∀ s, sums_to (omap (entry num k) (seq 0 2)) s → s = d.
Proof.
  apply (Discrete_maximize_row_totals Ex.disc_store Ex.disc 2 2
           [[Ex.half; Ex.half]; [Ex.F 1; Ex.F 0]] [0; 1; 1]%Z Ex.F 256
           [[1; 0]; [1; 2]; [3; 1]]%Z).
  - exact f32_exact_range.
  - reflexivity.
  - reflexivity.
  - repeat constructor; lia.
  - reflexivity.
  - repeat constructor.
  - repeat constructor; lia.
  - intros [|[|k]] Hk; vm_compute; (congruence || lia).
Defined.

(** ** Discrete.maximize: responsibilities that do not match the symbols *)

Section Surplus.
Context {E : Type} `{!DType E} `{!Reduce E}.
Implicit Types (σ : list (Tensor E)) (h : Discrete.head).

Lemma scatter_add_1_zeros_le (data : list Z) (gamma : list (list E)) (K V : nat)
    (mp : list (list E)) :
  length mp = K →
  Forall (λ z, 0 ≤ z < Z.of_nat V)%Z data →
  length data ≤ length gamma →
  ∃ num,
    scatter_add_1 (zeros_like (Mat V mp)) (length data) (replicate K data)
      (Mat (length gamma) (resp_of_state gamma <$> seq 0 K)) = Some (Mat V num)
    ∧ length num = K
    ∧ ∀ k, k < K →
        num !! k = Some (scatter_add_row (replicate V e_zero) (Z.to_nat <$> data)
                           (resp_of_state gamma k)).
Proof.
  intros Hmp Hdata Hlen. unfold scatter_add_1, zeros_like, fill.
  rewrite length_replicate, Hmp.
  destruct (K * length data =? 0) eqn:Hz.
  - eexists. split; [done|]. split; [by rewrite length_replicate|].
    intros k Hk. rewrite lookup_replicate_2 by done.
    apply Nat.eqb_eq in Hz.
    assert (length data = 0) as Hn%nil_length_inv by nia.
    by rewrite Hn.
  - rewrite decide_True.
    2:{ rewrite !length_fmap, length_seq, length_replicate.
        repeat split; try lia. by apply Forall_replicate. }
    eexists. split; [done|].
    assert (Hd : drop K (replicate K (replicate V (e_zero (E:=E)))) = []).
    { apply drop_ge. by rewrite length_replicate. }
    rewrite Hd, app_nil_r. split.
    + rewrite length_zip_with, length_zip, !length_replicate, length_fmap, length_seq. lia.
    + intros k Hk. rewrite lookup_zip_with.
      rewrite lookup_replicate_2 by done. simpl.
      rewrite (lookup_zip_with pair (replicate K data)).
      rewrite lookup_replicate_2 by done. simpl.
      rewrite list_lookup_fmap, lookup_seq_lt by done. done.
Qed.

Lemma maximize_run_le σ h (K V : nat) (mp : list (list E)) (data : list Z)
    (gamma : list (list E)) :
  σ !! Discrete.probabilities h = Some (Mat V mp) → length mp = K →
  Forall (λ z, 0 ≤ z < Z.of_nat V)%Z data →
  length data ≤ length gamma →
  Forall (λ row, length row = K) gamma →
  ∃ num,
    Discrete.maximize h data (Mat K gamma) σ
    = Some ({[ "num" := length σ; "denom" := S (length σ) ]},
            σ ++ [Mat V num;
                  Vec ((λ j, e_sum 0 (Mat K gamma) j (resp_of_state gamma j))
                         <$> seq 0 K)])
    ∧ ∀ k, k < K →
        num !! k = Some (scatter_add_row (replicate V e_zero) (Z.to_nat <$> data)
                           (resp_of_state gamma k)).
Proof.
  intros HP Hmp Hdata Hlen Hg.
  destruct (scatter_add_1_zeros_le data gamma K V mp Hmp Hdata Hlen)
    as (num & Hsc & Hnl & Hnum).
  exists num. split; [|done].
  unfold Discrete.maximize.
  rewrite (bind_Some _ _ σ (Mat (length gamma) (resp_of_state gamma <$> seq 0 K)) σ).
  2:{ apply lift_Some. simpl. by rewrite (columns_resp gamma K Hg). }
  rewrite (bind_Some _ _ σ K σ).
  2:{ unfold Discrete.num_states. rewrite (bind_Some _ _ σ _ σ (load_Some _ _ _ HP)).
      apply lift_Some. simpl. by rewrite Hmp. }
  rewrite (bind_Some _ _ σ _ σ (load_Some _ _ _ HP)).
  rewrite (bind_Some _ _ σ (length σ) (σ ++ [zeros_like (Mat V mp)])) by done.
  rewrite (bind_Some _ _ _ (zeros_like (Mat V mp)) (σ ++ [zeros_like (Mat V mp)])).
  2:{ apply load_Some, lookup_snoc. }
  rewrite (bind_Some _ _ _ (Mat V num) (σ ++ [zeros_like (Mat V mp)])).
  2:{ by apply lift_Some. }
  rewrite (bind_Some _ _ _ tt (σ ++ [Mat V num])).
  2:{ erewrite store_Some by apply lookup_snoc.
      rewrite insert_app_r_alt, Nat.sub_diag by done. done. }
  rewrite (bind_Some _ _ _
             (Vec ((λ j, e_sum 0 (Mat K gamma) j (resp_of_state gamma j)) <$> seq 0 K))
             (σ ++ [Mat V num])).
  2:{ apply lift_Some. simpl. by rewrite (sums_resp gamma K _ Hg). }
  unfold bind, alloc, ret. rewrite length_app, <- (assoc_L (++)). simpl.
  by rewrite Nat.add_1_r.
Qed.

Lemma resp_of_symbol_take (data : list Z) (gamma : list (list E)) (k v : nat) :
  resp_of_symbol data gamma k v = resp_of_symbol data (take (length data) gamma) k v.
Proof.
  unfold resp_of_symbol. f_equal. revert gamma.
  induction data as [|d data IH]; intros [|row gamma]; simpl; try done.
  by rewrite <- IH.
Qed.
End Surplus.

(** X19: [Discrete.maximize] does not ask that there be as many rows of
    responsibilities as symbols.  With more rows it returns: the numerators
    count the first [N] rows only, [N] being the number of symbols, while the
    denominators are sums over all the rows (added in the order that the
    kernel takes). *)
Theorem Discrete_maximize_surplus_rows {E} `{!DType E} `{!Reduce E} `{!ReduceSums E}
    (σ : list (Tensor E)) (h : Discrete.head) (K V : nat) (mp : list (list E))
    (data : list Z) (gamma : list (list E)) :
  σ !! Discrete.probabilities h = Some (Mat V mp) → length mp = K →
  Forall (λ z, 0 ≤ z < Z.of_nat V)%Z data →
  length data ≤ length gamma →
  Forall (λ row, length row = K) gamma →
  ∃ num denom,
    yields (Discrete.maximize h data (Mat K gamma)) σ num denom
    ∧ (∀ k v, k < K → v < V →
         entry num k v
         = Some (sum_in_order (resp_of_symbol data (take (length data) gamma) k v)))
    ∧ (∀ k, k < K →
         ∃ d, tget denom (Z.of_nat k) = Some (Scal d)
              ∧ sums_to (resp_of_state gamma k) d).
Proof.
  intros HP Hmp Hdata Hlen Hg.
  destruct (maximize_run_le σ h K V mp data gamma HP Hmp Hdata Hlen Hg)
    as (num & Hrun & Hnum).
  eexists (Mat V num), (Vec _). split; [|split].
  - eexists _, _. split; [exact Hrun|].
    exists (length σ), (S (length σ)).
    rewrite stats_lookup_num, stats_lookup_denom. repeat split.
    + by rewrite lookup_app_r, Nat.sub_diag.
    + rewrite lookup_app_r by lia. by replace (S (length σ) - length σ) with 1 by lia.
  - intros k v Hk Hv. simpl. rewrite (Hnum k Hk). simpl.
    rewrite (scatter_add_row_lookup _ _ _ v e_zero) by by apply lookup_replicate_2.
    rewrite selected_resp, <- resp_of_symbol_take; [done| |].
    + eapply Forall_impl; [exact Hdata|]. simpl. lia.
    + eapply Forall_impl; [exact Hg|]. simpl. intros row ->. lia.
  - intros k Hk. eexists. split; [|apply e_sum_sums]. simpl.
    rewrite py_index_nat by by rewrite length_fmap, length_seq.
    simpl. by rewrite list_lookup_fmap, lookup_seq_lt.
Qed.

Lemma Discrete_maximize_surplus_rows_witness :
  ∃ num denom,
    yields (Discrete.maximize Ex.disc [0]%Z
              (Mat 2 [[Ex.F 1; Ex.F 0]; [Ex.F 0; Ex.F 1]])) Ex.disc_store num denom
    ∧ (∀ k v, k < 2 → v < 2 →
         entry num k v
         = Some (sum_in_order
                   (resp_of_symbol [0]%Z
                      (take (length [0]%Z) [[Ex.F 1; Ex.F 0]; [Ex.F 0; Ex.F 1]]) k v)))
    ∧ (∀ k, k < 2 →
         ∃ d, tget denom (Z.of_nat k) = Some (Scal d)
              ∧ sums_to (resp_of_state [[Ex.F 1; Ex.F 0]; [Ex.F 0; Ex.F 1]] k) d).
Proof.
  apply (Discrete_maximize_surplus_rows Ex.disc_store Ex.disc 2 2
           [[Ex.half; Ex.half]; [Ex.F 1; Ex.F 0]] [0]%Z
           [[Ex.F 1; Ex.F 0]; [Ex.F 0; Ex.F 1]]).
  - reflexivity.
  - reflexivity.
  - repeat constructor; lia.
  - simpl. lia.
  - repeat constructor.
Defined.

(** X20: [Discrete.maximize] raises when there are symbols but fewer rows of
    responsibilities than symbols, or fewer columns than states. *)
Theorem Discrete_maximize_too_few_responsibilities {E} `{!DType E} `{!Reduce E}
    (σ : list (Tensor E)) (h : Discrete.head) (V c : nat) (mp gm : list (list E))
    (data : list Z) :
  σ !! Discrete.probabilities h = Some (Mat V mp) →
  data ≠ [] → mp ≠ [] →
  length gm < length data ∨ c < length mp →
  Discrete.maximize h data (Mat c gm) σ = None.
Proof.
  intros HP Hdata Hmp Hfew.
  unfold Discrete.maximize, Discrete.num_states, bind, lift, load, alloc.
  destruct (t_ (Mat c gm)) as [gamma_|] eqn:Ht; [|done].
  rewrite HP. cbn [size0]. cbv beta. rewrite HP, lookup_snoc.
  assert (Hsc : scatter_add_1 (zeros_like (Mat V mp)) (length data)
                  (replicate (length mp) data) gamma_ = None); [|by rewrite Hsc].
  simpl in Ht. destruct (mapM _ (seq 0 c)) as [cols|] eqn:Hcols; [|done].
  simpl in Ht. injection Ht as <-.
  apply mapM_Some, Forall2_length in Hcols. rewrite length_seq in Hcols.
  unfold scatter_add_1. rewrite length_replicate.
  destruct (length mp * length data =? 0) eqn:Hz0.
  { apply Nat.eqb_eq in Hz0.
    destruct mp as [|? ?]; [done|]. destruct data as [|? ?]; [done|].
    simpl in Hz0. lia. }
  simpl. rewrite decide_False; [done|].
  intros (H1 & H2 & _). lia.
Qed.

Lemma Discrete_maximize_too_few_responsibilities_witness :
  Discrete.maximize Ex.disc [0; 1]%Z (Mat 2 [[Ex.F 1; Ex.F 0]]) Ex.disc_store = None.
Proof.
  apply (Discrete_maximize_too_few_responsibilities Ex.disc_store Ex.disc 2 2
           [[Ex.half; Ex.half]; [Ex.F 1; Ex.F 0]] [[Ex.F 1; Ex.F 0]] [0; 1]%Z).
  - reflexivity.
  - discriminate.
  - discriminate.
  - left. simpl. lia.
Defined.

(** ** Discrete.update: records of heads with other numbers of symbols *)

Lemma expand_list_other {A} (l : list A) (n : nat) :
  length l ≠ n → length l ≠ 1 → expand_list l n = None.
Proof.
  intros Hn H1. unfold expand_list.
  destruct (Nat.eqb_spec (length l) n); [done|].
  by destruct l as [|? [|? ?]].
Qed.

Lemma iadd_other_columns {E} `{!DType E} (V V' : nat) (n n' : list (list E)) :
  n' ≠ [] → Forall (λ row, length row = V') n' → V' ≠ V → V' ≠ 1 →
  iadd (Mat V n) (Mat V' n') = None.
Proof.
  intros Hne Hrows HV H1. unfold iadd. simpl.
  destruct n' as [|row n']; [done|].
  apply Forall_cons in Hrows as [Hrow _].
  cbn [mapM]. rewrite expand_list_other; [done|lia|lia].
Qed.

(** X21: [Discrete.update] raises when the numerators of the previous record
    have another number of columns than the current ones and not a single
    column: the in-place sum cannot broadcast them. *)
Theorem Discrete_update_other_symbols {E} `{!DType E} (σ : list (Tensor E))
    (current previous : Stats) (ln lp : nat) (V V' : nat) (n n' : list (list E)) :
  current !! "num" = Some ln → previous !! "num" = Some lp →
  σ !! ln = Some (Mat V n) → σ !! lp = Some (Mat V' n') →
  n' ≠ [] → Forall (λ row, length row = V') n' → V' ≠ V → V' ≠ 1 →
  Discrete.update current (Some previous) σ = None.
Proof.
  intros Hcn Hpn Hln Hlp Hne Hrows HV H1.
  unfold Discrete.update, Discrete.iadd_, bind, lift, load.
  rewrite Hcn. destruct (current !! "denom") as [ld|]; [|done].
  rewrite Hpn, Hln, Hlp, (iadd_other_columns V V' n n') by done. done.
Qed.

Lemma Discrete_update_other_symbols_witness :
  Discrete.update {[ "num" := 1; "denom" := 2 ]} (Some {[ "num" := 3; "denom" := 4 ]})
    (Ex.disc_store ++ [Mat 2 [[Ex.F 2; Ex.F 0]; [Ex.F 1; Ex.F 0]]; Vec [Ex.F 2; Ex.F 1];
                       Mat 3 [[Ex.F 1; Ex.F 0; Ex.F 0]; [Ex.F 0; Ex.F 0; Ex.F 1]];
                       Vec [Ex.F 1; Ex.F 1]])
  = None.
Proof.
  apply (Discrete_update_other_symbols _ _ _ 1 3 2 3
           [[Ex.F 2; Ex.F 0]; [Ex.F 1; Ex.F 0]]
           [[Ex.F 1; Ex.F 0; Ex.F 0]; [Ex.F 0; Ex.F 0; Ex.F 1]]).
  - reflexivity.
  - reflexivity.
  - reflexivity.
  - reflexivity.
  - discriminate.
  - repeat constructor.
  - lia.
  - lia.
Defined.
